(** * kinematics_demo/src/singularity.cpp: the velocity-resolved IK loop

    A shallow embedding of the numerical core of [singularity.cpp]:
    the two damped pseudo-inverses of the Jacobian, the moving local
    target ([LocalTarget]) with its two-waypoint switch, and the clamp
    and integrate step of the main loop.

    Numbers.  A C++ [double] is read as a real number ([R] of the
    Standard Library): no rounding, no overflow.  What IEEE arithmetic
    answers with an infinity or a NaN (a division by zero, the inverse
    of a singular matrix) is the outcome [NonFinite], tagged with the
    place in the source where it arises; every division of the source
    goes through [fdiv], but for the one of line 435, whose quotient is
    tested before it is used: it goes through [fquot], which keeps the
    infinities and the NaN apart, since the test of line 436 turns the
    positive infinity into 1.0.  The reals have one zero, which stands
    for the positive zero of the doubles: with positive speeds, a
    duration is a maximum of quotients of non-negative numbers by
    positive ones, and never the negative zero.

    Libraries of the program that are not part of it (Eigen, tf, tf2)
    are modelled by what their functions compute: Eigen's dense
    matrices by MathComp's, [tf::Transform], [tf::Matrix3x3] and
    [tf::Quaternion] by records with the operations the program calls. *)

From HB Require Import structures.
From Stdlib Require Import Reals Lra Psatz ZArith Lia.
From Stdlib Require Import ClassicalEpsilon FunctionalExtensionality.
From Stdlib Require String.
Set Warnings "-notation-overridden,-ambiguous-paths,-rewrite-rw,-deprecated".
Set Warnings "-redundant-canonical-projection".
From mathcomp Require Import ssreflect ssrfun ssrbool eqtype ssrnat div seq.
From mathcomp Require Import choice fintype finfun bigop ssralg matrix mxalgebra.

Set Implicit Arguments.
Unset Strict Implicit.
Unset Printing Implicit Defensive.

(** MathComp takes the key [R] for [ring_scope]; the reals of the
    Standard Library are written with the key [Real]. *)
Delimit Scope R_scope with Real.
Import String.StringSyntax.

(** ** The reals as a field of MathComp

    Eigen's matrices hold doubles; MathComp's matrices want a
    [fieldType].  The structure is built on the operations of the
    Standard Library, so that [x + y] in [ring_scope] is [Rplus x y]. *)

Module RealField.

Definition Req_bool (x y : R) : bool :=
  if Req_dec_T x y then true else false.

Lemma Req_boolP : Equality.axiom Req_bool.
Proof.
move=> x y; rewrite /Req_bool.
by case: (Req_dec_T x y) => h; constructor.
Qed.

HB.instance Definition _ := hasDecEq.Build R Req_boolP.

Definition pick_real (P : pred R) (n : nat) : option R :=
  match excluded_middle_informative (exists x, P x) with
  | left ex => Some (proj1_sig (constructive_indefinite_description _ ex))
  | right _ => None
  end.

Lemma pick_real_sound (P : pred R) n x : pick_real P n = Some x -> P x.
Proof.
rewrite /pick_real; case: excluded_middle_informative => // ex [<-].
exact: (proj2_sig (constructive_indefinite_description _ ex)).
Qed.

Lemma pick_real_complete (P : pred R) :
  (exists x, P x) -> exists n, pick_real P n.
Proof.
move=> ex; exists 0%N; rewrite /pick_real.
by case: excluded_middle_informative.
Qed.

Lemma pick_real_ext (P Q : pred R) : P =1 Q -> pick_real P =1 pick_real Q.
Proof.
move=> PQ n; have -> // : P = Q.
exact: functional_extensionality.
Qed.

HB.instance Definition _ :=
  hasChoice.Build R pick_real_sound pick_real_complete pick_real_ext.

Lemma RplusA : associative Rplus.
Proof. by move=> x y z; rewrite Rplus_assoc. Qed.

Lemma RmultA : associative Rmult.
Proof. by move=> x y z; rewrite Rmult_assoc. Qed.

HB.instance Definition _ :=
  GRing.isZmodule.Build R RplusA Rplus_comm Rplus_0_l Rplus_opp_l.

Lemma R1_neq0 : R1 != R0.
Proof. by apply/eqP; exact: R1_neq_R0. Qed.

HB.instance Definition _ :=
  GRing.Zmodule_isComNzRing.Build R
    RmultA Rmult_comm Rmult_1_l Rmult_plus_distr_r R1_neq0.

Lemma Rinv_l_neq0 (x : R) : x != R0 -> Rmult (Rinv x) x = R1.
Proof. by move/eqP => x0; exact: Rinv_l. Qed.

HB.instance Definition _ :=
  GRing.ComNzRing_isField.Build R Rinv_l_neq0 Rinv_0.

End RealField.

Export RealField.

(** ** Outcomes

    [site] names the places of the source (and of the tf functions it
    calls) where a double can leave the finite numbers. *)

Inductive site : Type :=
  | at_lhs_inverse          (* lhs.inverse(), line 300 *)
  | at_rhs_inverse          (* rhs.inverse(), line 310 *)
  | at_reciprocal           (* 1/Sv(i), line 341 *)
  | at_damped_reciprocal    (* Sv(i) / (Sv(i)*Sv(i) + lambda*lambda), line 345 *)
  | at_expected_duration    (* time_elapsed / expected_duration_, line 435 *)
  | at_linear_vel           (* position_dist / linear_vel_, line 486 *)
  | at_dquat_rot_vel        (* quat_angle / dquat_rot_vel_, line 490 *)
  | at_setRotation          (* 2.0 / d in tf::Matrix3x3::setRotation *)
  | at_getRotation          (* 0.5 / s in tf::Matrix3x3::getRotation *)
  | at_normalize            (* 1 / length() in tf::Quaternion::normalize *)
  | at_angleShortestPath    (* dot(q) / s in tf2::Quaternion::angleShortestPath *)
  | at_slerp.               (* 1.0 / sin(theta) in tf2::Quaternion::slerp *)

Inductive result (A : Type) : Type :=
  | Ok of A
  | NonFinite of site.

Arguments Ok {A} _.
Arguments NonFinite {A} _.

Definition bind {A B : Type} (r : result A) (k : A -> result B) : result B :=
  match r with
  | Ok a => k a
  | NonFinite s => NonFinite s
  end.

Notation "x <- r ;; k" := (bind r (fun x => k))
  (at level 100, r at next level, right associativity).

(** Division of doubles: the quotient, or a non-finite value when the
    divisor is zero. *)
Definition fdiv (s : site) (a b : R) : result R :=
  if Req_dec_T b 0%Real then NonFinite s else Ok (a / b)%Real.

(** A double that is tested before it is used: a number, or one of the
    three values that IEEE 754 gives to a division by zero. *)
Inductive ieee : Type :=
  | Number of R
  | PlusInfinity
  | MinusInfinity
  | NaN.

(** [a / b] with its infinities: [x / 0] is an infinity of the sign of
    [x], and [0 / 0] is a NaN. *)
Definition fquot (a b : R) : ieee :=
  if Req_dec_T b 0%Real then
    if Rlt_dec 0 a then PlusInfinity
    else if Rlt_dec a 0 then MinusInfinity else NaN
  else Number (a / b)%Real.

(** [x > y]: true of the positive infinity, false of a NaN. *)
Definition fgreater (x : ieee) (y : R) : bool :=
  match x with
  | Number x => if Rlt_dec y x then true else false
  | PlusInfinity => true
  | MinusInfinity | NaN => false
  end.

(** A double that enters further arithmetic: its number, or the outcome
    [NonFinite]. *)
Definition number (s : site) (x : ieee) : result R :=
  match x with
  | Number x => Ok x
  | PlusInfinity | MinusInfinity | NaN => NonFinite s
  end.

(** ** Messages and tf

    [geometry_msgs::Point], [geometry_msgs::Quaternion] and
    [geometry_msgs::Pose]; [tf::Vector3], [tf::Quaternion] (the same
    record serves [tf2::Quaternion]), [tf::Matrix3x3] (three rows, as
    [m_el]) and [tf::Transform]. *)

Record Point : Type := mkPoint { px : R; py : R; pz : R }.

Record Quaternion : Type := mkQuaternion { qx : R; qy : R; qz : R; qw : R }.

Record Pose : Type := mkPose { position : Point; orientation : Quaternion }.

Record Vector3 : Type := mkVector3 { vx : R; vy : R; vz : R }.

Record Matrix3x3 : Type := mkMatrix3x3 { row0 : Vector3; row1 : Vector3; row2 : Vector3 }.

Record Transform : Type := mkTransform { m_basis : Matrix3x3; m_origin : Vector3 }.

Module tf.

Local Open Scope R_scope.

(** [m_el[i]] and [v[i]]; the program only uses indices below 3. *)
Definition m_el (m : Matrix3x3) (i : nat) : Vector3 :=
  match i with 0%N => row0 m | 1%N => row1 m | _ => row2 m end.

Definition coord (v : Vector3) (i : nat) : R :=
  match i with 0%N => vx v | 1%N => vy v | _ => vz v end.

Definition el (m : Matrix3x3) (i j : nat) : R := coord (m_el m i) j.

Definition v_dot (a b : Vector3) : R := vx a * vx b + vy a * vy b + vz a * vz b.

Definition v_neg (a : Vector3) : Vector3 := mkVector3 (- vx a) (- vy a) (- vz a).

Definition v_add (a b : Vector3) : Vector3 :=
  mkVector3 (vx a + vx b) (vy a + vy b) (vz a + vz b).

(** [Matrix3x3 * Vector3]: the dot product of each row with the vector. *)
Definition m_mulv (m : Matrix3x3) (v : Vector3) : Vector3 :=
  mkVector3 (v_dot (row0 m) v) (v_dot (row1 m) v) (v_dot (row2 m) v).

Definition transpose (m : Matrix3x3) : Matrix3x3 :=
  mkMatrix3x3
    (mkVector3 (el m 0 0) (el m 1 0) (el m 2 0))
    (mkVector3 (el m 0 1) (el m 1 1) (el m 2 1))
    (mkVector3 (el m 0 2) (el m 1 2) (el m 2 2)).

(** [tdotx], [tdoty], [tdotz]: the dot product of a column with a vector. *)
Definition tdot (m : Matrix3x3) (j : nat) (v : Vector3) : R :=
  el m 0 j * vx v + el m 1 j * vy v + el m 2 j * vz v.

(** [Matrix3x3 * Matrix3x3]. *)
Definition m_mul (m1 m2 : Matrix3x3) : Matrix3x3 :=
  mkMatrix3x3
    (mkVector3 (tdot m2 0 (row0 m1)) (tdot m2 1 (row0 m1)) (tdot m2 2 (row0 m1)))
    (mkVector3 (tdot m2 0 (row1 m1)) (tdot m2 1 (row1 m1)) (tdot m2 2 (row1 m1)))
    (mkVector3 (tdot m2 0 (row2 m1)) (tdot m2 1 (row2 m1)) (tdot m2 2 (row2 m1))).

Definition length2 (q : Quaternion) : R :=
  qx q * qx q + qy q * qy q + qz q * qz q + qw q * qw q.

Definition dot (q1 q2 : Quaternion) : R :=
  qx q1 * qx q2 + qy q1 * qy q2 + qz q1 * qz q2 + qw q1 * qw q2.

Definition q_neg (q : Quaternion) : Quaternion :=
  mkQuaternion (- qx q) (- qy q) (- qz q) (- qw q).

(** [tfAcos]: the argument is brought into [-1, 1] first. *)
Definition tfAcos (x : R) : R :=
  let x1 := if Rlt_dec x (-1) then -1 else x in
  let x2 := if Rlt_dec 1 x1 then 1 else x1 in
  acos x2.

(** [Matrix3x3::setRotation], called by the constructor
    [Transform(q, origin)]. *)
Definition setRotation (q : Quaternion) : result Matrix3x3 :=
  let d := length2 q in
  s <- fdiv at_setRotation 2 d ;;
  let xs := qx q * s in let ys := qy q * s in let zs := qz q * s in
  let wx := qw q * xs in let wy := qw q * ys in let wz := qw q * zs in
  let xx := qx q * xs in let xy := qx q * ys in let xz := qx q * zs in
  let yy := qy q * ys in let yz := qy q * zs in let zz := qz q * zs in
  Ok (mkMatrix3x3
        (mkVector3 (1 - (yy + zz)) (xy - wz) (xz + wy))
        (mkVector3 (xy + wz) (1 - (xx + zz)) (yz - wx))
        (mkVector3 (xz - wy) (yz + wx) (1 - (xx + yy)))).

Definition mkTransformQ (q : Quaternion) (c : Vector3) : result Transform :=
  b <- setRotation q ;; Ok (mkTransform b c).

(** [Transform::inverse]. *)
Definition inverse (t : Transform) : Transform :=
  let inv := transpose (m_basis t) in
  mkTransform inv (m_mulv inv (v_neg (m_origin t))).

(** [Transform::operator*]. *)
Definition mul (t1 t2 : Transform) : Transform :=
  mkTransform (m_mul (m_basis t1) (m_basis t2))
    (v_add (m_mulv (m_basis t1) (m_origin t2)) (m_origin t1)).

(** The four-slot array [temp] of [getRotation]. *)
Definition temp_set (temp : nat -> R) (i : nat) (v : R) : nat -> R :=
  fun j => if j == i then v else temp j.

(** [Matrix3x3::getRotation]. *)
Definition getRotation (m : Matrix3x3) : result Quaternion :=
  let trace := el m 0 0 + el m 1 1 + el m 2 2 in
  let temp := fun _ : nat => 0 in
  if Rlt_dec 0 trace then
    let s := sqrt (trace + 1) in
    let temp := temp_set temp 3 (s * 0.5) in
    s <- fdiv at_getRotation 0.5 s ;;
    let temp := temp_set temp 0 ((el m 2 1 - el m 1 2) * s) in
    let temp := temp_set temp 1 ((el m 0 2 - el m 2 0) * s) in
    let temp := temp_set temp 2 ((el m 1 0 - el m 0 1) * s) in
    Ok (mkQuaternion (temp 0%N) (temp 1%N) (temp 2%N) (temp 3%N))
  else
    let i := if Rlt_dec (el m 0 0) (el m 1 1)
             then (if Rlt_dec (el m 1 1) (el m 2 2) then 2%N else 1%N)
             else (if Rlt_dec (el m 0 0) (el m 2 2) then 2%N else 0%N) in
    let j := ((i + 1) %% 3)%N in
    let k := ((i + 2) %% 3)%N in
    let s := sqrt (el m i i - el m j j - el m k k + 1) in
    let temp := temp_set temp i (s * 0.5) in
    s <- fdiv at_getRotation 0.5 s ;;
    let temp := temp_set temp 3 ((el m k j - el m j k) * s) in
    let temp := temp_set temp j ((el m j i + el m i j) * s) in
    let temp := temp_set temp k ((el m k i + el m i k) * s) in
    Ok (mkQuaternion (temp 0%N) (temp 1%N) (temp 2%N) (temp 3%N)).

(** [Quaternion::normalize]: [*this /= length()], that is a product
    with [1 / length()]. *)
Definition normalize (q : Quaternion) : result Quaternion :=
  r <- fdiv at_normalize 1 (sqrt (length2 q)) ;;
  Ok (mkQuaternion (qx q * r) (qy q * r) (qz q * r) (qw q * r)).

Definition QUATERNION_TOLERANCE : R := 0.1.

(** [quaternionTFToMsg]: a quaternion off the unit sphere by more than
    the tolerance is normalized (and a warning logged). *)
Definition quaternionTFToMsg (bt : Quaternion) : result Quaternion :=
  if Rlt_dec QUATERNION_TOLERANCE (Rabs (length2 bt - 1))
  then normalize bt
  else Ok bt.

Definition pointTFToMsg (v : Vector3) : Point := mkPoint (vx v) (vy v) (vz v).

(** [poseTFToMsg]. *)
Definition poseTFToMsg (t : Transform) : result Pose :=
  r <- getRotation (m_basis t) ;;
  q <- quaternionTFToMsg r ;;
  Ok (mkPose (pointTFToMsg (m_origin t)) q).

(** [Quaternion::getAngleShortestPath]. *)
Definition getAngleShortestPath (q : Quaternion) : R :=
  if Rle_dec 0 (qw q) then 2 * tfAcos (qw q) else 2 * tfAcos (- qw q).

(** [Quaternion::angleShortestPath]. *)
Definition angleShortestPath (q1 q2 : Quaternion) : result R :=
  let s := sqrt (length2 q1 * length2 q2) in
  if Rlt_dec (dot q1 q2) 0 then
    c <- fdiv at_angleShortestPath (dot q1 (q_neg q2)) s ;; Ok (tfAcos c * 2)
  else
    c <- fdiv at_angleShortestPath (dot q1 q2) s ;; Ok (tfAcos c * 2).

(** [tf2::slerp(q1, q2, t)], that is [q1.slerp(q2, t)]. *)
Definition slerp (q1 q2 : Quaternion) (t : R) : result Quaternion :=
  a <- angleShortestPath q1 q2 ;;
  let theta := a / 2 in
  if Req_dec_T theta 0 then Ok q1
  else
    d <- fdiv at_slerp 1 (sin theta) ;;
    let s0 := sin ((1 - t) * theta) in
    let s1 := sin (t * theta) in
    if Rlt_dec (dot q1 q2) 0 then
      Ok (mkQuaternion ((qx q1 * s0 + - qx q2 * s1) * d)
                       ((qy q1 * s0 + - qy q2 * s1) * d)
                       ((qz q1 * s0 + - qz q2 * s1) * d)
                       ((qw q1 * s0 + - qw q2 * s1) * d))
    else
      Ok (mkQuaternion ((qx q1 * s0 + qx q2 * s1) * d)
                       ((qy q1 * s0 + qy q2 * s1) * d)
                       ((qz q1 * s0 + qz q2 * s1) * d)
                       ((qw q1 * s0 + qw q2 * s1) * d)).

End tf.

(** Comparisons of doubles, as the booleans the C++ conditions are. *)
Definition fless (a b : R) : bool := if Rlt_dec a b then true else false.

(** [std::max(a, b)]: [(a < b) ? b : a]. *)
Definition std_max (a b : R) : R := if Rlt_dec a b then b else a.

(** ** namespace visualization

    The two waypoints are globals of the program (lines 33-36), written
    by the feedback callback of the interactive markers and read by
    [LocalTarget::reset_]. *)

Module visualization.

Local Open Scope string_scope.

Definition t1_name : String.string := "eef_target1".

Definition t2_name : String.string := "eef_target2".

Record Globals : Type := mkGlobals { eef_target1 : Pose; eef_target2 : Pose }.

(** What the callback reads of [InteractiveMarkerFeedback]. *)
Record InteractiveMarkerFeedback : Type := mkFeedback {
  marker_name : String.string;
  pose : Pose
}.

(** Lines 59-79; [compare(...) == 0] is equality of strings. *)
Definition processFeedback (feedback : InteractiveMarkerFeedback) (g : Globals) : Globals :=
  if String.eqb t1_name (marker_name feedback)
  then mkGlobals (pose feedback) (eef_target2 g)
  else if String.eqb t2_name (marker_name feedback)
  then mkGlobals (eef_target1 g) (pose feedback)
  else g.

End visualization.

(** ** namespace kinematics *)

Module kinematics.

Definition to_Vector3 (p : Point) : Vector3 := mkVector3 (px p) (py p) (pz p).

(** [d_tf = ref_tf.inverse() * target_tf], lines 252-259 and 269-276. *)
Definition d_tf (target ref : Pose) : result Transform :=
  target_tf <- tf.mkTransformQ (orientation target) (to_Vector3 (position target)) ;;
  ref_tf <- tf.mkTransformQ (orientation ref) (to_Vector3 (position ref)) ;;
  Ok (tf.mul (tf.inverse ref_tf) target_tf).

(** Lines 248-263. *)
Definition dPose_geom (target ref : Pose) : result Pose :=
  d <- d_tf target ref ;; tf.poseTFToMsg d.

Section Matrices.

Local Open Scope ring_scope.

(** Lines 265-284: the 4x4 homogeneous matrix of [d_tf]. *)
Definition dPose (target ref : Pose) : result 'M[R]_4 :=
  d <- d_tf target ref ;;
  Ok (\matrix_(i < 4, j < 4)
        if (i < 3)%N then
          if (j < 3)%N then tf.el (m_basis d) i j else tf.coord (m_origin d) i
        else
          if (j < 3)%N then 0 else 1).

(** An [Eigen::Matrix3d] given by its nine coefficients, row by row. *)
Definition Matrix3d (r00 r01 r02 r10 r11 r12 r20 r21 r22 : R) : 'M[R]_3 :=
  \matrix_(i < 3, j < 3)
    nth 0 (nth [::] [:: [:: r00; r01; r02]; [:: r10; r11; r12]; [:: r20; r21; r22]] i) j.

(** Lines 241-246, with [Eigen::Quaterniond::toRotationMatrix], which
    does not normalize the quaternion. *)
Definition getRotationMatrix (q : Quaternion) : 'M[R]_3 :=
  let tx := Rmult 2 (qx q) in
  let ty := Rmult 2 (qy q) in
  let tz := Rmult 2 (qz q) in
  let twx := Rmult tx (qw q) in
  let twy := Rmult ty (qw q) in
  let twz := Rmult tz (qw q) in
  let txx := Rmult tx (qx q) in
  let txy := Rmult ty (qx q) in
  let txz := Rmult tz (qx q) in
  let tyy := Rmult ty (qy q) in
  let tyz := Rmult tz (qy q) in
  let tzz := Rmult tz (qz q) in
  Matrix3d (Rminus 1 (Rplus tyy tzz)) (Rminus txy twz) (Rplus txz twy)
           (Rplus txy twz) (Rminus 1 (Rplus txx tzz)) (Rminus tyz twx)
           (Rminus txz twy) (Rplus tyz twx) (Rminus 1 (Rplus txx tyy)).

(** [Eigen::MatrixXd::inverse()]: the inverse of an invertible matrix;
    on a singular one the LU solve divides by a zero pivot. *)
Definition inverse (s : site) (n : nat) (A : 'M[R]_n) : result 'M[R]_n :=
  if A \in unitmx then Ok (invmx A) else NonFinite s.

(** Lines 286-312.  The rows and columns of an [Eigen::MatrixXd] are
    the two indices of the matrix type; the result has [jacb.cols()]
    rows and [jacb.rows()] columns on both branches. *)
Definition calculateDampedPseudoInverse_without_SVD
    (m n : nat) (jacb : 'M[R]_(m, n)) (eps lambda : R) : result 'M[R]_(n, m) :=
  let jacb_transpose := jacb^T in
  if (m >= n)%N then
    let lhs := jacb_transpose *m jacb + (lambda * lambda) *: 1%:M in
    lhs_inverse <- inverse at_lhs_inverse lhs ;;
    Ok (lhs_inverse *m jacb_transpose)
  else
    let rhs := jacb *m jacb_transpose + (lambda * lambda) *: 1%:M in
    rhs_inverse <- inverse at_rhs_inverse rhs ;;
    Ok (jacb_transpose *m rhs_inverse).

(** What [Eigen::JacobiSVD<MatrixXd>(jacb, ComputeThinU | ComputeThinV)]
    holds: thin factors, [min(rows, cols)] singular values. *)
Record JacobiSVD (m n : nat) : Type := mkJacobiSVD {
  matrixU : 'M[R]_(m, minn m n);
  singularValues : 'cV[R]_(minn m n);
  matrixV : 'M[R]_(n, minn m n)
}.

(** An Eigen vector read as the sequence of its coefficients, and back. *)
Definition coefficients (k : nat) (v : 'cV[R]_k) : seq R :=
  [seq v i 0 | i <- enum 'I_k].

Definition vector_of (k : nat) (s : seq R) : 'cV[R]_k :=
  \col_(i < k) nth 0 s i.

(** The body of the loop of lines 333-347. *)
Definition inv_Sv_at (eps lambda Sv_i : R) : result R :=
  if fless eps (Rabs Sv_i) then fdiv at_reciprocal 1 Sv_i
  else fdiv at_damped_reciprocal Sv_i (Sv_i * Sv_i + lambda * lambda).

(** The loop of lines 333-347, one singular value per iteration. *)
Fixpoint inv_Sv_loop (eps lambda : R) (Sv : seq R) : result (seq R) :=
  match Sv with
  | [::] => Ok [::]
  | Sv_i :: Sv' =>
      inv_Sv_i <- inv_Sv_at eps lambda Sv_i ;;
      rest <- inv_Sv_loop eps lambda Sv' ;;
      Ok (inv_Sv_i :: rest)
  end.

Section WithSVD.

(** Eigen's decomposition is not part of the program. *)
Variable svd_of : forall m n : nat, 'M[R]_(m, n) -> JacobiSVD m n.

(** Lines 318-349. *)
Definition calculateDampedPseudoInverse_with_SVD
    (m n : nat) (jacb : 'M[R]_(m, n)) (eps lambda : R) : result 'M[R]_(n, m) :=
  let svd := svd_of jacb in
  let U := matrixU svd in
  let Sv := singularValues svd in
  let V := matrixV svd in
  inv_Sv <- inv_Sv_loop eps lambda (coefficients Sv) ;;
  Ok (V *m diag_mx (vector_of (minn m n) inv_Sv)^T *m U^T).

End WithSVD.

End Matrices.

End kinematics.

(** ** class LocalTarget *)

Record LocalTarget : Type := mkLocalTarget {
  linear_vel_ : R;
  dquat_rot_vel_ : R;
  global_target_id_ : Z;
  from_ : Pose;
  to_ : Pose;
  start_time_ : R;
  expected_duration_ : R;
  pose_ : Pose
}.

Module LocalTargetM.

Local Open Scope R_scope.

(** Lines 458-468. *)
Definition isClose_ (s : LocalTarget) : bool :=
  let tolerance := 0.01 in
  let pose_ := pose_ s in
  let to_ := to_ s in
  [&& fless (Rabs (px (position pose_) - px (position to_))) tolerance,
      fless (Rabs (py (position pose_) - py (position to_))) tolerance,
      fless (Rabs (pz (position pose_) - pz (position to_))) tolerance,
      fless (Rabs (qx (orientation pose_) - qx (orientation to_))) tolerance,
      fless (Rabs (qy (orientation pose_) - qy (orientation to_))) tolerance,
      fless (Rabs (qz (orientation pose_) - qz (orientation to_))) tolerance &
      fless (Rabs (qw (orientation pose_) - qw (orientation to_))) tolerance].

(** Lines 470-494.  [eef_target1] and [eef_target2] are the two global
    waypoints as they are when the function reads them, [now] the
    reading of [ros::Time::now()], in seconds. *)
Definition reset_ (eef_target1 eef_target2 : Pose) (now : R)
    (s : LocalTarget) (global_target_id : Z) : result LocalTarget :=
  let from_ := pose_ s in
  let to_ := if Z.eqb global_target_id 1 then eef_target1 else eef_target2 in
  d_pose <- kinematics.dPose_geom to_ from_ ;;
  let position_dist :=
    sqrt (px (position d_pose) * px (position d_pose) +
          py (position d_pose) * py (position d_pose) +
          pz (position d_pose) * pz (position d_pose)) in
  position_time <- fdiv at_linear_vel position_dist (linear_vel_ s) ;;
  let d_quat := orientation d_pose in
  let quat_angle := tf.getAngleShortestPath d_quat in
  quat_time <- fdiv at_dquat_rot_vel quat_angle (dquat_rot_vel_ s) ;;
  let max_time := std_max position_time quat_time in
  Ok {| linear_vel_ := linear_vel_ s;
        dquat_rot_vel_ := dquat_rot_vel_ s;
        global_target_id_ := global_target_id;
        from_ := from_;
        to_ := to_;
        start_time_ := now;
        expected_duration_ := max_time;
        pose_ := pose_ s |}.

(** Line 432: the arrival check and the switch of waypoint.  The field
    [global_target_id_] only ever holds 0 or 1, so the [int] sum does
    not overflow; [%] is the remainder of C++. *)
Definition switch_ (eef_target1 eef_target2 : Pose) (now : R)
    (s : LocalTarget) : result LocalTarget :=
  if isClose_ s
  then reset_ eef_target1 eef_target2 now s (Z.rem (global_target_id_ s + 1) 2)
  else Ok s.

(** Lines 433-445: the interpolation along the current leg.  No test
    precedes the division of line 435.  By a zero duration it gives the
    positive infinity when time has elapsed, which line 436 replaces by
    1.0, and a NaN or the negative infinity when it has not, which line
    436 leaves: the position of lines 438-440 is then not finite. *)
Definition interpolate_ (now : R) (s : LocalTarget) : result LocalTarget :=
  let time_elapsed := now - start_time_ s in
  let slerp_t := fquot time_elapsed (expected_duration_ s) in
  let slerp_t := if fgreater slerp_t 1.0 then Number 1.0 else slerp_t in
  slerp_t <- number at_expected_duration slerp_t ;;
  let from_ := from_ s in
  let to_ := to_ s in
  let x := (px (position to_) - px (position from_)) * slerp_t + px (position from_) in
  let y := (py (position to_) - py (position from_)) * slerp_t + py (position from_) in
  let z := (pz (position to_) - pz (position from_)) * slerp_t + pz (position from_) in
  let q1 := orientation from_ in
  let q2 := orientation to_ in
  q_slerp <- tf.slerp q1 q2 slerp_t ;;
  Ok {| linear_vel_ := linear_vel_ s;
        dquat_rot_vel_ := dquat_rot_vel_ s;
        global_target_id_ := global_target_id_ s;
        from_ := from_;
        to_ := to_;
        start_time_ := start_time_ s;
        expected_duration_ := expected_duration_ s;
        pose_ := mkPose (mkPoint x y z) q_slerp |}.

(** Lines 429-446.  The clock is read twice: [now_reset] inside
    [reset_] when the switch fires, [now] for the elapsed time. *)
Definition updatePose (eef_target1 eef_target2 : Pose) (now_reset now : R)
    (s : LocalTarget) : result LocalTarget :=
  s1 <- switch_ eef_target1 eef_target2 now_reset s ;;
  interpolate_ now s1.

(** Lines 419-424, once the markers are initialized: the fields that
    [reset_] overwrites start from the values of [junk]. *)
Definition new (eef_target1 eef_target2 : Pose) (now : R) (junk : LocalTarget)
    (pose : Pose) (linear_vel dquat_rot_vel : R) : result LocalTarget :=
  reset_ eef_target1 eef_target2 now
    {| linear_vel_ := linear_vel;
       dquat_rot_vel_ := dquat_rot_vel;
       global_target_id_ := global_target_id_ junk;
       from_ := from_ junk;
       to_ := to_ junk;
       start_time_ := start_time_ junk;
       expected_duration_ := expected_duration_ junk;
       pose_ := pose |} 1.

(** Lines 427 and 429-446 over several ticks of the main loop: each
    tick brings the waypoints and the two clock readings of that tick. *)
Record tick : Type := mkTick {
  tick_target1 : Pose;
  tick_target2 : Pose;
  tick_now_reset : R;
  tick_now : R
}.

Fixpoint run (ticks : seq tick) (s : LocalTarget) : result LocalTarget :=
  match ticks with
  | [::] => Ok s
  | t :: ticks' =>
      s' <- updatePose (tick_target1 t) (tick_target2 t)
              (tick_now_reset t) (tick_now t) s ;;
      run ticks' s'
  end.

End LocalTargetM.

(** ** main: solve, clamp and integrate *)

Module main.

Local Open Scope R_scope.

(** Line 660. *)
Definition dmax : R := 1.0 * PI / 180.0.

(** Lines 658-665, with the step limit as an argument. *)
Fixpoint clamp_integrate (dmax : R) (count i : nat) (d_theta position : seq R)
    : seq R * seq R :=
  match count with
  | 0%N => (d_theta, position)
  | count'.+1 =>
      let d_theta :=
        if Rlt_dec dmax (nth 0 d_theta i) then set_nth 0 d_theta i dmax
        else if Rlt_dec (nth 0 d_theta i) (- dmax) then set_nth 0 d_theta i (- dmax)
        else d_theta in
      let position := set_nth 0 position i (nth 0 position i + nth 0 d_theta i) in
      clamp_integrate dmax count' i.+1 d_theta position
  end.

(** Lines 635-636: a default [geometry_msgs::Pose], all zeros, with
    [orientation.w] set to 1. *)
Definition origin : Pose := mkPose (mkPoint 0 0 0) (mkQuaternion 0 0 0 1.0).

(** Line 630: the pose of the local target seen from the end effector,
    and line 637: the pose of the end effector seen from the origin. *)
Definition error_pose (target_pose eef_pose : Pose) : result 'M[R]_4 :=
  kinematics.dPose target_pose eef_pose.

Definition eef_trans (eef_pose : Pose) : result 'M[R]_4 :=
  kinematics.dPose eef_pose origin.

(** Lines 606-608, 647 and 657-665 of the loop body: from the Jacobian
    and the spatial twist error of the tick to the clamped step
    [d_theta] and the new [current_joints.position].  (What comes in
    between, the forward kinematics and the logarithm and adjoint of
    se3.hpp, produces [sTwist_error].) *)
Definition joint_update (n : nat) (jacobian : 'M[R]_(6, n)) (dls_eps dls_lambda : R)
    (sTwist_error : 'cV[R]_6) (position : seq R) : result (seq R * seq R) :=
  jacb_pseudo_inv <-
    kinematics.calculateDampedPseudoInverse_without_SVD jacobian dls_eps dls_lambda ;;
  let d_theta := (jacb_pseudo_inv *m sTwist_error)%R in
  Ok (clamp_integrate dmax (size position) 0 (kinematics.coefficients d_theta) position).

End main.

(** ** namespace SE3 (kinematics_demo/se3.hpp) *)

Module SE3.

Local Open Scope R_scope.

(** The test of the commented sketch of lines 181-191, with
    [numeric_limits<double>::epsilon()] and [min()]. *)
Definition almost_equal (x y : R) : bool :=
  let ulp := 2 in
  ~~ fless (/ 2 ^ 52 * Rabs (x + y) * ulp) (Rabs (x - y))
  || fless (Rabs (x - y)) (/ 2 ^ 1022).

Definition norm (p : 'cV[R]_3) : R := sqrt (\sum_(i < 3) p i ord0 * p i ord0)%R.

Definition rotation_angle (Rm : 'M[R]_3) : R :=
  let c := (mxtrace Rm - 1) / 2 in
  let c := if Rlt_dec c (-1) then -1 else c in
  let c := if Rlt_dec 1 c then 1 else c in
  acos c.

Section Log.

(** The branches for a half turn and for a general angle, which the
    sources at hand do not contain. *)
Variables log_half_turn log_general : 'M[R]_3 -> 'cV[R]_3 -> R -> result 'cV[R]_(3 + 3).

(** Modelled from the spec: [SE3::log] of kinematics_demo/se3.hpp, which
    is called at line 632 and is not among the sources.  The rotation
    angle is [acos(clamp((trace(R) - 1)/2, -1, 1))]; for an angle that
    is approximately 0 the angular part is the zero vector and the
    linear part is [p] normalized if non-zero, otherwise zero.  The
    twist holds the angular part first. *)
Definition log (T : 'M[R]_(3 + 1)) : result 'cV[R]_(3 + 3) :=
  let Rm := ulsubmx T in
  let p := ursubmx T in
  let theta := rotation_angle Rm in
  if almost_equal theta 0 then
    if p == 0%R then Ok (col_mx 0 0)%R
    else Ok (col_mx 0 ((/ norm p) *: p))%R
  else if almost_equal theta PI then log_half_turn Rm p theta
  else log_general Rm p theta.

End Log.

End SE3.

(** ** The vocabulary of the claims

    What the specification names and the source does not: the quantities
    the theorems compare the code with, and the concrete inputs of the
    witnesses and counterexamples. *)

Section RealVocabulary.

Local Open Scope R_scope.

(** The value the loop leaves in [d_theta[i]]. *)
Definition clamped (dmax d : R) : R :=
  if Rlt_dec dmax d then dmax else if Rlt_dec d (- dmax) then - dmax else d.

(** The rotation matrix [setRotation] builds, and the same matrix for a
    unit quaternion ([s = 2]). *)
Definition rotation_of (q : Quaternion) : Matrix3x3 :=
  let s := 2 / tf.length2 q in
  let xs := qx q * s in let ys := qy q * s in let zs := qz q * s in
  let wx := qw q * xs in let wy := qw q * ys in let wz := qw q * zs in
  let xx := qx q * xs in let xy := qx q * ys in let xz := qx q * zs in
  let yy := qy q * ys in let yz := qy q * zs in let zz := qz q * zs in
  mkMatrix3x3
    (mkVector3 (1 - (yy + zz)) (xy - wz) (xz + wy))
    (mkVector3 (xy + wz) (1 - (xx + zz)) (yz - wx))
    (mkVector3 (xz - wy) (yz + wx) (1 - (xx + yy))).

(** [conj(a) * b], the rotation from [a] to [b]. *)
Definition relative (a b : Quaternion) : Quaternion :=
  mkQuaternion
    (qw a * qx b - qx a * qw b - qy a * qz b + qz a * qy b)
    (qw a * qy b + qx a * qz b - qy a * qw b - qz a * qx b)
    (qw a * qz b - qx a * qy b + qy a * qx b - qz a * qw b)
    (qw a * qw b + qx a * qx b + qy a * qy b + qz a * qz b).

Definition scaled (c : R) (q : Quaternion) : Quaternion :=
  mkQuaternion (c * qx q) (c * qy q) (c * qz q) (c * qw q).

Definition normalized (q : Quaternion) : Quaternion :=
  scaled (/ sqrt (tf.length2 q)) q.

(** The distance between two points and the geodesic angle between two
    orientations, as the spec names them. *)
Definition linear_distance (a b : Point) : R :=
  sqrt ((px a - px b) * (px a - px b) + (py a - py b) * (py a - py b) +
        (pz a - pz b) * (pz a - pz b)).

Definition geodesic_angle (a b : Quaternion) : R :=
  2 * acos (Rabs (tf.dot a b) / sqrt (tf.length2 a * tf.length2 b)).

(** The half angle of [slerp]. *)
Definition half_angle (q1 q2 : Quaternion) : R :=
  acos (Rabs (tf.dot q1 q2) / sqrt (tf.length2 q1 * tf.length2 q2)).

(** The quaternion [slerp] combines from its two arguments. *)
Definition slerp_mix (q1 q2 : Quaternion) (s0 s1 d : R) : Quaternion :=
  mkQuaternion ((qx q1 * s0 + qx q2 * s1) * d) ((qy q1 * s0 + qy q2 * s1) * d)
               ((qz q1 * s0 + qz q2 * s1) * d) ((qw q1 * s0 + qw q2 * s1) * d).

(** The waypoint [reset_] selects, the duration it computes for the leg
    from [S] to [D], and the spec's interpolations. *)
Definition selected (eef_target1 eef_target2 : Pose) (id : Z) : Pose :=
  if Z.eqb id 1 then eef_target1 else eef_target2.

Definition leg_duration (S D : Pose) (max_linear_speed max_angular_speed : R) : R :=
  Rmax (linear_distance (position D) (position S) / max_linear_speed)
       (geodesic_angle (orientation S) (orientation D) / max_angular_speed).

Definition lerp (a b : Point) (t : R) : Point :=
  mkPoint ((px b - px a) * t + px a) ((py b - py a) * t + py a)
          ((pz b - pz a) * t + pz a).

Definition clamp01 (x : R) : R :=
  if Rlt_dec x 0 then 0 else if Rlt_dec 1 x then 1 else x.

Definition within_tolerance (a b : Pose) : Prop :=
  [/\ Rabs (px (position a) - px (position b)) < 0.01,
      Rabs (py (position a) - py (position b)) < 0.01,
      Rabs (pz (position a) - pz (position b)) < 0.01 &
      [/\ Rabs (qx (orientation a) - qx (orientation b)) < 0.01,
          Rabs (qy (orientation a) - qy (orientation b)) < 0.01,
          Rabs (qz (orientation a) - qz (orientation b)) < 0.01 &
          Rabs (qw (orientation a) - qw (orientation b)) < 0.01]].

(** A state with a new output pose, and two states on the same leg. *)
Definition with_pose (s : LocalTarget) (p : Pose) : LocalTarget :=
  {| linear_vel_ := linear_vel_ s;
     dquat_rot_vel_ := dquat_rot_vel_ s;
     global_target_id_ := global_target_id_ s;
     from_ := from_ s;
     to_ := to_ s;
     start_time_ := start_time_ s;
     expected_duration_ := expected_duration_ s;
     pose_ := p |}.

Definition on_leg (s : LocalTarget) (id : Z) (S D : Pose) (start duration : R) : Prop :=
  [/\ global_target_id_ s = id, from_ s = S, to_ s = D,
      start_time_ s = start & expected_duration_ s = duration].

(** The fraction the code interpolates at. *)
Definition capped (x : R) : R := if Rlt_dec 1 x then 1 else x.

(** The fraction [clamp (e / duration) 0 1] of the spec at an elapsed
    time [e >= 0]; on a leg of zero duration the quotient of [e > 0] is
    the positive infinity, and its clamp is 1. *)
Definition fraction (e duration : R) : R :=
  if Req_dec_T duration 0 then 1 else clamp01 (e / duration).

(** Poses on the x axis without rotation, their quaternion written
    with [w = 1] or [w = -1], and a state that holds such a pose. *)
Definition pose_at (x w : R) : Pose :=
  mkPose (mkPoint x 0 0) (mkQuaternion 0 0 0 w).

Definition state_at (p : Pose) (linear_vel dquat_rot_vel : R) : LocalTarget :=
  {| linear_vel_ := linear_vel;
     dquat_rot_vel_ := dquat_rot_vel;
     global_target_id_ := 0;
     from_ := p;
     to_ := p;
     start_time_ := 0;
     expected_duration_ := 0;
     pose_ := p |}.

(** A state at the start of the leg from [S] to [D]. *)
Definition leg_state (S D : Pose) (id : Z) (start duration : R) : LocalTarget :=
  {| linear_vel_ := 1;
     dquat_rot_vel_ := 1;
     global_target_id_ := id;
     from_ := S;
     to_ := D;
     start_time_ := start;
     expected_duration_ := duration;
     pose_ := S |}.

End RealVocabulary.

Section MatrixVocabulary.

Local Open Scope ring_scope.

(** [X] is the inverse of [A], as the spec writes [A⁻¹]. *)
Definition inverse_of (n : nat) (A X : 'M[R]_n) : Prop :=
  A *m X = 1%:M /\ X *m A = 1%:M.

(** The reciprocal the spec gives a singular value: [1/σ] above the
    threshold, [σ/(σ² + λ²)] otherwise; and the number it divides by. *)
Definition filtered_reciprocal (eps lambda sigma : R) : R :=
  if Rlt_dec eps (Rabs sigma) then Rdiv 1 sigma
  else Rdiv sigma (Rplus (Rmult sigma sigma) (Rmult lambda lambda)).

Definition filter_divisor (eps lambda sigma : R) : R :=
  if Rlt_dec eps (Rabs sigma) then sigma
  else Rplus (Rmult sigma sigma) (Rmult lambda lambda).

(** What Eigen promises of the thin decomposition. *)
Definition is_svd (m n : nat) (J : 'M[R]_(m, n)) (d : kinematics.JacobiSVD m n) : Prop :=
  [/\ J = kinematics.matrixU d *m diag_mx (kinematics.singularValues d)^T
            *m (kinematics.matrixV d)^T,
      (kinematics.matrixU d)^T *m kinematics.matrixU d = 1%:M,
      (kinematics.matrixV d)^T *m kinematics.matrixV d = 1%:M &
      forall i, Rle R0 (kinematics.singularValues d i ord0)].

(** A decomposition with the identity for both factors and one value
    for every singular value: a decomposition of [sigma%:M]. *)
Definition scalar_svd (sigma : R) (m n : nat) (_ : 'M[R]_(m, n)) :
    kinematics.JacobiSVD m n :=
  kinematics.mkJacobiSVD (pid_mx (minn m n)) (const_mx sigma) (pid_mx (minn m n)).

(** The spatial twist error of the scenario: 1 cm at index 3 of the
    six entries (angular part first), zero elsewhere. *)
Definition twist_error_x : 'cV[R]_6 :=
  \col_(i < 6) if (i : nat) == 3 then 0.01%Real else 0%Real.

End MatrixVocabulary.

(** ** The vocabulary of the further properties *)

Section MatrixVocabulary2.

Local Open Scope ring_scope.

(** The squared Euclidean norm of an Eigen vector, and the cost that
    damped least squares minimizes: [‖J x - b‖² + λ² ‖x‖²]. *)
Definition sqnorm (k : nat) (v : 'cV[R]_k) : R := \sum_(i < k) v i ord0 * v i ord0.

Definition damped_cost (m n : nat) (J : 'M[R]_(m, n)) (lambda : R)
    (b : 'cV[R]_m) (x : 'cV[R]_n) : R :=
  sqnorm (J *m x - b) + (lambda * lambda) * sqnorm x.

End MatrixVocabulary2.

Section TransformVocabulary.

Local Open Scope ring_scope.

(** A [tf::Matrix3x3] and a [tf::Vector3] as Eigen holds them, and the
    homogeneous matrix of a [tf::Transform]. *)
Definition mx_of (M : Matrix3x3) : 'M[R]_3 := \matrix_(i < 3, j < 3) tf.el M i j.

Definition col_of (v : Vector3) : 'cV[R]_3 := \col_(i < 3) tf.coord v i.

Definition homogeneous (d : Transform) : 'M[R]_(3 + 1) :=
  block_mx (mx_of (m_basis d)) (col_of (m_origin d)) 0 1%:M.

(** The rotation matrix and the position of a pose, and the pose with
    its quaternion multiplied by a number. *)
Definition rotation_mx (p : Pose) : 'M[R]_3 := mx_of (rotation_of (orientation p)).

Definition position_col (p : Pose) : 'cV[R]_3 := col_of (kinematics.to_Vector3 (position p)).

Definition rescaled (c : R) (p : Pose) : Pose :=
  mkPose (position p) (scaled c (orientation p)).

(** The homogeneous matrix of the pose [target] seen from the pose [ref]:
    [T_ref⁻¹ T_target]. *)
Definition relative_mx (target ref : Pose) : 'M[R]_(3 + 1) :=
  block_mx ((rotation_mx ref)^T *m rotation_mx target)
           ((rotation_mx ref)^T *m (position_col target - position_col ref))
           0 1%:M.

End TransformVocabulary.

Section LoopVocabulary.

Local Open Scope R_scope.

(** The joint positions after several iterations of the loop of main,
    given the solver output [d_theta] of each iteration. *)
Definition integrate_steps (steps : seq (seq R)) (position : seq R) : seq R :=
  foldl (fun p d_theta => (main.clamp_integrate main.dmax (size p) 0 d_theta p).2)
        position steps.

End LoopVocabulary.

Section FeedbackVocabulary.

(** The globals after a sequence of feedback callbacks, oldest first. *)
Definition process_all (feedbacks : seq visualization.InteractiveMarkerFeedback)
    (g : visualization.Globals) : visualization.Globals :=
  foldl (fun g feedback => visualization.processFeedback feedback g) g feedbacks.

(** The poses that the feedbacks of one marker carry, oldest first. *)
Definition poses_of (name : String.string)
    (feedbacks : seq visualization.InteractiveMarkerFeedback) : seq Pose :=
  [seq visualization.pose feedback
     | feedback <- feedbacks & String.eqb name (visualization.marker_name feedback)].

End FeedbackVocabulary.

(** ** Proofs *)

(** Splits the goal along every comparison of reals it tests. *)
Ltac case_decisions :=
  repeat match goal with
         | |- context [Rle_dec ?a ?b] => case: (Rle_dec a b) => ? /=
         | |- context [Rlt_dec ?a ?b] => case: (Rlt_dec a b) => ? /=
         end.

(** States an equation between coefficients of matrices, written with
    the operations of MathComp, as an equation of [R]. *)
Ltac over_R :=
  repeat match goal with
         | |- context [@fun_of_matrix ?T ?m ?n ?A ?i ?j] =>
             move: (@fun_of_matrix T m n A i j) => ?
         end;
  match goal with |- @eq _ ?a ?b => change (@eq R a b) end.

(** ** Outcomes: the basic equations *)

Section OutcomeFacts.

Local Open Scope R_scope.

Lemma fdiv_Ok (s : site) (a b : R) : b <> 0 -> fdiv s a b = Ok (a / b).
Proof. by rewrite /fdiv => b0; case: Req_dec_T. Qed.

Lemma fdiv_zero (s : site) (a : R) : fdiv s a 0 = NonFinite s.
Proof. by rewrite /fdiv; case: Req_dec_T. Qed.

Lemma fdiv_inv (s : site) (a b q : R) : fdiv s a b = Ok q -> b <> 0 /\ q = a / b.
Proof. by rewrite /fdiv; case: Req_dec_T => // b0 [<-]. Qed.

Lemma bind_inv (A B : Type) (r : result A) (k : A -> result B) (b : B) :
  bind r k = Ok b -> exists2 a, r = Ok a & k a = Ok b.
Proof. by case: r => //= a kab; exists a. Qed.

Lemma flessP (a b : R) : reflect (a < b) (fless a b).
Proof. by rewrite /fless; case: Rlt_dec => h; constructor. Qed.

Lemma std_maxE (a b : R) : std_max a b = Rmax a b.
Proof.
rewrite /std_max /Rmax; case: Rlt_dec => h1; case: Rle_dec => h2 //=; lra.
Qed.

End OutcomeFacts.

Section Clamp.

Local Open Scope R_scope.

Lemma clamped_bound (dmax d : R) : 0 <= dmax -> Rabs (clamped dmax d) <= dmax.
Proof.
move=> dmax0; rewrite /clamped.
case: Rlt_dec => h1 /=; first by rewrite Rabs_pos_eq //; lra.
case: Rlt_dec => h2 /=; first by rewrite Rabs_Ropp Rabs_pos_eq //; lra.
by apply: Rabs_le; lra.
Qed.

Lemma clamped_id (dmax d : R) : Rabs d <= dmax -> clamped dmax d = d.
Proof.
rewrite /clamped /Rabs; case: Rcase_abs => h0 hd.
  by case: Rlt_dec => h1 /=; [lra|case: Rlt_dec => h2 //=; lra].
by case: Rlt_dec => h1 /=; [lra|case: Rlt_dec => h2 //=; lra].
Qed.

Lemma clamped_idem (dmax d : R) : 0 <= dmax -> clamped dmax (clamped dmax d) = clamped dmax d.
Proof. by move=> dmax0; apply: clamped_id; apply: clamped_bound. Qed.

Lemma dmax_pos : 0 < main.dmax.
Proof. rewrite /main.dmax; have := PI_RGT_0; lra. Qed.

(** One pass of the loop body at index [i]. *)
Lemma clamp_integrate_step (dmax : R) (count i : nat) (d p : seq R) :
  main.clamp_integrate dmax count.+1 i d p =
  main.clamp_integrate dmax count i.+1
    (if (i < size d)%N then set_nth 0 d i (clamped dmax (nth 0 d i))
     else if Rlt_dec dmax 0 then set_nth 0 d i dmax
     else if Rlt_dec 0 (- dmax) then set_nth 0 d i (- dmax) else d)
    (set_nth 0 p i (nth 0 p i + (if (i < size d)%N then clamped dmax (nth 0 d i)
                                  else clamped dmax 0))).
Proof.
rewrite /= /clamped; case: ltnP => [id|di].
  case: Rlt_dec => h1 /=; first by rewrite !nth_set_nth /= eqxx.
  case: Rlt_dec => h2 /=; first by rewrite !nth_set_nth /= eqxx.
  congr (main.clamp_integrate _ _ _ _ _).
  apply: (@eq_from_nth _ 0); first by rewrite size_set_nth; apply/esym/maxn_idPr.
  by move=> j _; rewrite nth_set_nth /=; case: eqP => // ->.
rewrite (nth_default _ di).
case: Rlt_dec => h1 /=; first by rewrite !nth_set_nth /= eqxx.
case: Rlt_dec => h2 /=; first by rewrite !nth_set_nth /= eqxx.
by rewrite (nth_default _ di).
Qed.

(** The loop, entry by entry: positions [i .. i+count-1] get the
    clamped step, the others are left as they were. *)
Lemma clamp_integrate_nth (dmax : R) (count i : nat) (d p : seq R) (j : nat) :
  (i + count <= size d)%N ->
  [/\ size (main.clamp_integrate dmax count i d p).1 = size d,
      nth 0 (main.clamp_integrate dmax count i d p).1 j =
        (if (i <= j < i + count)%N then clamped dmax (nth 0 d j) else nth 0 d j) &
      nth 0 (main.clamp_integrate dmax count i d p).2 j =
        (if (i <= j < i + count)%N then nth 0 p j + clamped dmax (nth 0 d j)
         else nth 0 p j)].
Proof.
elim: count i d p => [|count IH] i d p.
  by rewrite addn0 /= => _; split=> //; case: ifP => //; case: ltngtP.
rewrite addnS -addSn => le_d.
have id : (i < size d)%N by apply: leq_trans le_d; rewrite ltnS leq_addr.
rewrite clamp_integrate_step id.
set d1 := set_nth _ _ _ _; set p1 := set_nth _ _ _ _.
have sz1 : size d1 = size d by rewrite size_set_nth; apply/maxn_idPr.
case: (IH i.+1 d1 p1); first by rewrite sz1.
move=> -> -> ->; rewrite sz1 /d1 /p1 !nth_set_nth /=.
case: (ltngtP i j) => [ij|ji|->] /=; split=> //.
- by rewrite addSn ltnS leq_addr.
- by rewrite addSn ltnS leq_addr.
Qed.

Lemma clamp_integrate_size2 (dmax : R) (count i : nat) (d p : seq R) :
  (i + count <= size p)%N -> size (main.clamp_integrate dmax count i d p).2 = size p.
Proof.
elim: count i d p => [|count IH] i d p //.
rewrite addnS -addSn => le_p.
have ip : (i < size p)%N by apply: leq_trans le_p; rewrite ltnS leq_addr.
rewrite clamp_integrate_step.
set d1 := if _ then _ else _; set p1 := set_nth _ _ _ _.
have sz1 : size p1 = size p by rewrite size_set_nth; apply/maxn_idPr.
by rewrite IH sz1.
Qed.

End Clamp.

(** ** From the operations of MathComp to those of the Standard Library *)

Section RealOps.

Local Open Scope ring_scope.

Lemma RplusE (x y : R) : GRing.add x y = Rplus x y. Proof. by []. Qed.
Lemma RmultE (x y : R) : GRing.mul x y = Rmult x y. Proof. by []. Qed.
Lemma RoppE (x : R) : GRing.opp x = Ropp x. Proof. by []. Qed.
Lemma RinvE (x : R) : GRing.inv x = Rinv x. Proof. by []. Qed.
Lemma R0E : GRing.zero = R0 :> R. Proof. by []. Qed.
Lemma R1E : GRing.one _ = R1 :> R. Proof. by []. Qed.

Definition RopsE := (RplusE, RmultE, RoppE, RinvE, R0E, R1E).

Lemma sum_squares_ge0 (I : Type) (s : seq I) (f : I -> R) :
  Rle R0 (\sum_(i <- s) f i * f i).
Proof.
elim: s => [|i s]; first by rewrite big_nil; apply: Rle_refl.
rewrite big_cons; move: (\sum_(j <- s) _) => S; rewrite !RopsE => S0.
by have := Rle_0_sqr (f i); rewrite /Rsqr; lra.
Qed.

Lemma sum_squares_eq0 (I : eqType) (s : seq I) (f : I -> R) :
  \sum_(i <- s) f i * f i = 0 -> forall i, i \in s -> f i = 0.
Proof.
elim: s => [|j s IH]; first by [].
rewrite big_cons => sum0 i.
have := Rle_0_sqr (f j); have := sum_squares_ge0 s f; rewrite /Rsqr.
move: IH sum0; move: (\sum_(j <- s) _) => S; rewrite !RopsE => IH sum0 S0 fj0.
rewrite in_cons => /orP [/eqP ->|]; first by nra.
by apply: IH; lra.
Qed.

Lemma mulmx_tr_row (n : nat) (v : 'rV[R]_n) :
  (v *m v^T) ord0 ord0 = \sum_(j < n) v ord0 j * v ord0 j.
Proof. by rewrite mxE; apply: eq_bigr => j _; rewrite mxE. Qed.

(** The damped Gram matrix is positive definite, hence invertible. *)
Lemma damped_gram_unit (m n : nat) (A : 'M[R]_(m, n)) (c : R) :
  Rlt R0 c -> A^T *m A + c *: 1%:M \in unitmx.
Proof.
move=> c0; rewrite -row_free_unit -kermx_eq0; apply/rowV0P => v /sub_kermxP vK.
have : (v *m (A^T *m A + c *: 1%:M) *m v^T) ord0 ord0 = 0 by rewrite vK mul0mx mxE.
rewrite mulmxDr mulmxDl mulmxA -(mulmxA (v *m A^T)) -{2}(trmxK A) -trmx_mul.
rewrite -scalemxAr mulmx1 -scalemxAl.
set w := v *m A^T.
have -> : (w *m w^T + c *: (v *m v^T)) ord0 ord0 =
          (w *m w^T) ord0 ord0 + c * (v *m v^T) ord0 ord0.
  by rewrite mxE [in X in _ + X]mxE.
rewrite !mulmx_tr_row.
have := sum_squares_ge0 (index_enum 'I_m) (fun j => w ord0 j).
have := @sum_squares_eq0 _ (index_enum 'I_n) (fun j => v ord0 j).
have := sum_squares_ge0 (index_enum 'I_n) (fun j => v ord0 j).
move: (\sum_(j < n) _) (\sum_(j < m) _) => Sv Sw; rewrite !RopsE => Sv0 eq0 Sw0 sum0.
apply/rowP => j; rewrite mxE; apply: eq0; last exact: mem_index_enum.
by nra.
Qed.

End RealOps.

Section NormalEquations.

Local Open Scope ring_scope.

Lemma inverse_Ok (s : site) (n : nat) (A X : 'M[R]_n) :
  kinematics.inverse s A = Ok X <-> inverse_of A X.
Proof.
rewrite /kinematics.inverse /inverse_of; split.
  by case: ifP => // Au [<-]; rewrite mulmxV // mulVmx.
case=> AX XA; case: (mulmx1_unit AX) => -> _; congr Ok.
by rewrite -[LHS]mul1mx -XA -mulmxA mulmxV ?mulmx1 //; case: (mulmx1_unit AX).
Qed.

Lemma inverse_NonFinite (s : site) (n : nat) (A : 'M[R]_n) :
  A \in unitmx -> kinematics.inverse s A = Ok (invmx A).
Proof. by rewrite /kinematics.inverse => ->. Qed.

Lemma without_SVD_tall (m n : nat) (J : 'M[R]_(m, n)) (eps lambda : R) :
  (n <= m)%N ->
  kinematics.calculateDampedPseudoInverse_without_SVD J eps lambda =
  (X <- kinematics.inverse at_lhs_inverse (J^T *m J + (lambda * lambda) *: 1%:M) ;;
   Ok (X *m J^T)).
Proof. by rewrite /kinematics.calculateDampedPseudoInverse_without_SVD => ->. Qed.

Lemma without_SVD_fat (m n : nat) (J : 'M[R]_(m, n)) (eps lambda : R) :
  (m < n)%N ->
  kinematics.calculateDampedPseudoInverse_without_SVD J eps lambda =
  (X <- kinematics.inverse at_rhs_inverse (J *m J^T + (lambda * lambda) *: 1%:M) ;;
   Ok (J^T *m X)).
Proof.
by rewrite /kinematics.calculateDampedPseudoInverse_without_SVD ltnNge => /negbTE ->.
Qed.

Lemma lambda2_pos (lambda : R) : lambda <> 0 -> Rlt R0 (lambda * lambda).
Proof. by rewrite !RopsE => l0; nra. Qed.

Lemma without_SVD_finite (m n : nat) (J : 'M[R]_(m, n)) (eps lambda : R) :
  lambda <> 0 ->
  exists P, kinematics.calculateDampedPseudoInverse_without_SVD J eps lambda = Ok P.
Proof.
move=> /lambda2_pos l2; case: (leqP n m) => nm.
  rewrite without_SVD_tall // inverse_NonFinite; first exact: damped_gram_unit.
  by eexists.
rewrite without_SVD_fat // inverse_NonFinite; last by eexists.
by rewrite -{1}(trmxK J); exact: damped_gram_unit.
Qed.

(** C1. The normal-equations strategy on a 6 x N Jacobian: it returns a
    matrix [P] exactly when the damped matrix has an inverse, and then [P]
    is [(JᵗJ + λ²I)⁻¹Jᵗ] if the Jacobian has at least as many rows as
    columns and [Jᵗ(JJᵗ + λ²I)⁻¹] otherwise; [P] has N rows and 6 columns
    (the type of the result) in both cases. *)
Theorem without_SVD_normal_equations (n : nat) (J : 'M[R]_(6, n)) (eps lambda : R)
    (P : 'M[R]_(n, 6)) :
  kinematics.calculateDampedPseudoInverse_without_SVD J eps lambda = Ok P <->
  if (n <= 6)%N
  then exists2 X, inverse_of (J^T *m J + (lambda * lambda) *: 1%:M) X & P = X *m J^T
  else exists2 X, inverse_of (J *m J^T + (lambda * lambda) *: 1%:M) X & P = J^T *m X.
Proof.
case: (leqP n 6) => n6.
  rewrite without_SVD_tall //; split.
    by move=> h; case: (bind_inv h) => X /inverse_Ok invX [<-]; exists X.
  by case=> X /(inverse_Ok at_lhs_inverse) -> ->.
rewrite without_SVD_fat //; split.
  by move=> h; case: (bind_inv h) => X /inverse_Ok invX [<-]; exists X.
by case=> X /(inverse_Ok at_rhs_inverse) -> ->.
Qed.

End NormalEquations.

Section SVDFilter.

Local Open Scope ring_scope.

Lemma inv_Sv_at_Ok (eps lambda sigma x : R) :
  kinematics.inv_Sv_at eps lambda sigma = Ok x <->
  filter_divisor eps lambda sigma <> R0 /\ x = filtered_reciprocal eps lambda sigma.
Proof.
rewrite /kinematics.inv_Sv_at /filter_divisor /filtered_reciprocal /fless.
case: Rlt_dec => h /=; split.
- by move/fdiv_inv.
- by case=> d0 ->; rewrite fdiv_Ok.
- by move/fdiv_inv.
- by case=> d0 ->; rewrite fdiv_Ok.
Qed.

Lemma inv_Sv_loop_Ok (eps lambda : R) (Sv r : seq R) :
  kinematics.inv_Sv_loop eps lambda Sv = Ok r <->
  (forall sigma, sigma \in Sv -> filter_divisor eps lambda sigma <> R0) /\
  r = [seq filtered_reciprocal eps lambda sigma | sigma <- Sv].
Proof.
elim: Sv r => [|sigma Sv IH] r /=; first by split=> [[<-]|[_ ->]].
split.
  move=> h; case: (bind_inv h) => x /inv_Sv_at_Ok [d0 ->] {}h.
  case: (bind_inv h) => rest /IH [dSv ->] [<-]; split=> // s.
  by rewrite in_cons => /orP [/eqP ->|/dSv].
case=> dSv ->.
have /inv_Sv_at_Ok -> /= : filter_divisor eps lambda sigma <> R0 /\
    filtered_reciprocal eps lambda sigma = filtered_reciprocal eps lambda sigma.
  by split=> //; apply: dSv; rewrite mem_head.
have /IH -> // : (forall s, s \in Sv -> filter_divisor eps lambda s <> R0) /\
    [seq filtered_reciprocal eps lambda s | s <- Sv] =
    [seq filtered_reciprocal eps lambda s | s <- Sv].
by split=> // s sSv; apply: dSv; rewrite in_cons sSv orbT.
Qed.

Lemma mem_coefficients (k : nat) (v : 'cV[R]_k) (x : R) :
  x \in kinematics.coefficients v <-> exists i, x = v i ord0.
Proof.
split; first by case/mapP => i _ ->; exists i.
by case=> i ->; apply/mapP; exists i => //; rewrite mem_enum.
Qed.

Lemma nth_coefficients (k : nat) (v : 'cV[R]_k) (i : 'I_k) :
  nth 0 (kinematics.coefficients v) i = v i ord0.
Proof.
by rewrite /kinematics.coefficients (nth_map i) ?size_enum_ord // nth_ord_enum.
Qed.

Lemma size_coefficients (k : nat) (v : 'cV[R]_k) :
  size (kinematics.coefficients v) = k.
Proof. by rewrite size_map size_enum_ord. Qed.

Lemma vector_of_map (k : nat) (f : R -> R) (v : 'cV[R]_k) :
  kinematics.vector_of k [seq f x | x <- kinematics.coefficients v] =
  \col_i f (v i ord0).
Proof.
apply/colP => i; rewrite !mxE (nth_map 0) ?size_coefficients //.
by rewrite nth_coefficients.
Qed.

Lemma diag_mx_delta (k : nat) (a : 'rV[R]_k) (i : 'I_k) :
  diag_mx a *m delta_mx i ord0 = a ord0 i *: (delta_mx i ord0 : 'cV[R]_k).
Proof.
apply/matrixP => j l; rewrite mul_diag_mx !mxE.
by case: eqP => [->|_] //=; rewrite !GRing.mulr0.
Qed.

Section Decomposition.

Variable svd_of : forall m n : nat, 'M[R]_(m, n) -> kinematics.JacobiSVD m n.

Lemma with_SVD_Ok (m n : nat) (J : 'M[R]_(m, n)) (eps lambda : R) (P : 'M[R]_(n, m)) :
  kinematics.calculateDampedPseudoInverse_with_SVD svd_of J eps lambda = Ok P <->
  (forall i, filter_divisor eps lambda (kinematics.singularValues (svd_of J) i ord0) <> R0) /\
  P = kinematics.matrixV (svd_of J)
      *m diag_mx (\row_i filtered_reciprocal eps lambda
                           (kinematics.singularValues (svd_of J) i ord0))
      *m (kinematics.matrixU (svd_of J))^T.
Proof.
rewrite /kinematics.calculateDampedPseudoInverse_with_SVD.
set Sv := kinematics.singularValues _.
have tr_col : (\col_i filtered_reciprocal eps lambda (Sv i ord0))^T =
              \row_i filtered_reciprocal eps lambda (Sv i ord0).
  by apply/rowP => i; rewrite !mxE.
split.
  move=> h; case: (bind_inv h) => r /inv_Sv_loop_Ok [dSv ->] [<-].
  rewrite vector_of_map tr_col; split=> // i.
  by apply: dSv; apply/mem_coefficients; exists i.
case=> dSv ->.
have /inv_Sv_loop_Ok -> /= :
    (forall s, s \in kinematics.coefficients Sv -> filter_divisor eps lambda s <> R0) /\
    [seq filtered_reciprocal eps lambda s | s <- kinematics.coefficients Sv] =
    [seq filtered_reciprocal eps lambda s | s <- kinematics.coefficients Sv].
  by split=> // s /mem_coefficients [i ->].
by rewrite vector_of_map tr_col.
Qed.

(** C2. The SVD strategy, for a Jacobian [J = U Σ Vᵗ]: it returns [P]
    exactly when no filtered reciprocal divides by zero, and then
    [P = V diag(inv_σ) Uᵗ] with [inv_σ_i = 1/σ_i] if [|σ_i| > ε] and
    [σ_i/(σ_i² + λ²)] otherwise.  On the singular directions: [P J v_i = v_i]
    for a singular value above [ε] (an exact reciprocal, no damping), and
    [P J v_i = σ_i²/(σ_i² + λ²) v_i] for the others. *)
Theorem with_SVD_filters_singular_values (m n : nat) (J : 'M[R]_(m, n))
    (eps lambda : R) :
  let U := kinematics.matrixU (svd_of J) in
  let Sv := kinematics.singularValues (svd_of J) in
  let V := kinematics.matrixV (svd_of J) in
  is_svd J (svd_of J) ->
  forall P : 'M[R]_(n, m),
  (kinematics.calculateDampedPseudoInverse_with_SVD svd_of J eps lambda = Ok P <->
   (forall i, filter_divisor eps lambda (Sv i ord0) <> R0) /\
   P = V *m diag_mx (\row_i (if Rlt_dec eps (Rabs (Sv i ord0))
                             then Rdiv 1 (Sv i ord0)
                             else Rdiv (Sv i ord0)
                                    (Rplus (Rmult (Sv i ord0) (Sv i ord0))
                                           (Rmult lambda lambda))))
         *m U^T) /\
  (kinematics.calculateDampedPseudoInverse_with_SVD svd_of J eps lambda = Ok P ->
   forall i,
   P *m J *m col i V =
   (if Rlt_dec eps (Rabs (Sv i ord0)) then 1
    else Rdiv (Rmult (Sv i ord0) (Sv i ord0))
           (Rplus (Rmult (Sv i ord0) (Sv i ord0)) (Rmult lambda lambda)))
   *: col i V).
Proof.
move=> U Sv V [eqJ UU VV _] P; split; first exact: with_SVD_Ok.
move=> /with_SVD_Ok [dSv ->] i; rewrite -/U -/Sv -/V.
set D := diag_mx _.
rewrite [X in _ *m X *m _]eqJ -/U -/Sv -/V colE !mulmxA -(mulmxA (V *m D)) UU mulmx1.
rewrite -(mulmxA _ V^T V) VV mulmx1 -(mulmxA V) mulmx_diag -mulmxA diag_mx_delta.
rewrite -scalemxAr; congr (_ *: _); rewrite !mxE !ord1.
move: (dSv i); rewrite /filter_divisor /filtered_reciprocal.
case: Rlt_dec => h /= d0; rewrite !RopsE; first by field.
by field.
Qed.

End Decomposition.

End SVDFilter.

Section Finite.

Local Open Scope ring_scope.

Lemma scalar_svd_is_svd (sigma : R) :
  Rle R0 sigma -> is_svd (sigma%:M : 'M[R]_1) (scalar_svd sigma (sigma%:M : 'M[R]_1)).
Proof.
move=> s0; split=> /=.
- apply/matrixP => i j; rewrite !ord1 !mxE !big_ord1 !mxE !big_ord1 !mxE /=.
  by rewrite !GRing.mulr1n !RopsE; change (@eq R) with (@eq R); ring.
- apply/matrixP => i j; rewrite !ord1 !mxE !big_ord1 !mxE /=.
  by rewrite !GRing.mulr1n !RopsE; ring.
- apply/matrixP => i j; rewrite !ord1 !mxE !big_ord1 !mxE /=.
  by rewrite !GRing.mulr1n !RopsE; ring.
- by move=> i; rewrite mxE.
Qed.

Lemma filter_divisor_neq0 (eps lambda sigma : R) :
  Rle R0 eps -> Rlt R0 lambda -> filter_divisor eps lambda sigma <> R0.
Proof.
move=> eps0 lambda0; rewrite /filter_divisor; case: Rlt_dec => h /= s0.
  by move: h; rewrite s0 Rabs_R0; lra.
by have := Rle_0_sqr sigma; rewrite /Rsqr; nra.
Qed.

Lemma with_SVD_finite (svd_of : forall m n, 'M[R]_(m, n) -> kinematics.JacobiSVD m n)
    (m n : nat) (J : 'M[R]_(m, n)) (eps lambda : R) :
  Rle R0 eps -> Rlt R0 lambda ->
  exists P, kinematics.calculateDampedPseudoInverse_with_SVD svd_of J eps lambda = Ok P.
Proof.
move=> eps0 lambda0; eexists; apply/with_SVD_Ok; split; last by [].
by move=> i; apply: filter_divisor_neq0.
Qed.

Lemma coefficients1 (v : 'cV[R]_1) : kinematics.coefficients v = [:: v ord0 ord0].
Proof.
apply: (@eq_from_nth _ 0); first by rewrite size_coefficients.
rewrite size_coefficients => i; rewrite ltnS leqn0 => /eqP ->.
exact: (nth_coefficients v ord0).
Qed.

End Finite.

Section PseudoInverseInstances.

Local Open Scope ring_scope.

(** C2 at the 1 x 1 Jacobian [2], whose singular value 2 is
    above the threshold 1. *)
Lemma with_SVD_filters_singular_values_witness :
  is_svd (2%Real%:M : 'M[R]_1) (scalar_svd 2%Real (2%Real%:M : 'M[R]_1)) /\
  exists P, kinematics.calculateDampedPseudoInverse_with_SVD (scalar_svd 2%Real)
              (2%Real%:M : 'M[R]_1) 1%Real 1%Real = Ok P.
Proof.
have svd2 : is_svd (2%Real%:M : 'M[R]_1) (scalar_svd 2%Real (2%Real%:M : 'M[R]_1)).
  by apply: scalar_svd_is_svd; lra.
split; first exact: svd2.
eexists.
apply: (proj2 (proj1 (with_SVD_filters_singular_values 1%Real 1%Real svd2 _))).
split; last by [].
by move=> i; apply: filter_divisor_neq0; lra.
Defined.

(** C3. For every Jacobian, rank-deficient ones included, every
    threshold [ε >= 0] and every damping [λ > 0], both strategies return a
    matrix: the normal-equations strategy never inverts a singular matrix
    ([JᵗJ + λ²I] and [JJᵗ + λ²I] are invertible) and the SVD strategy
    never divides by zero (a singular value of zero is not above [ε], so
    its reciprocal is [0/(0 + λ²) = 0]).  Entries are real numbers here:
    rounding, overflow and underflow of doubles are outside the model. *)
Theorem pseudo_inverses_finite
    (svd_of : forall m n, 'M[R]_(m, n) -> kinematics.JacobiSVD m n)
    (m n : nat) (J : 'M[R]_(m, n)) (eps lambda : R) :
  (0 <= eps)%Real -> (0 < lambda)%Real ->
  (exists P, kinematics.calculateDampedPseudoInverse_without_SVD J eps lambda = Ok P) /\
  (exists P, kinematics.calculateDampedPseudoInverse_with_SVD svd_of J eps lambda = Ok P).
Proof.
move=> eps0 lambda0; split; last exact: with_SVD_finite.
by apply: without_SVD_finite => l0; move: lambda0; rewrite l0 R0E; lra.
Qed.

(** C3 at the zero Jacobian of a seven-joint arm. *)
Lemma pseudo_inverses_finite_witness :
  ((0 <= 1)%Real /\ (0 < 1)%Real) /\
  (exists P, kinematics.calculateDampedPseudoInverse_without_SVD
               (0 : 'M[R]_(6, 7)) 1%Real 1%Real = Ok P) /\
  (exists P, kinematics.calculateDampedPseudoInverse_with_SVD (scalar_svd 0%Real)
               (0 : 'M[R]_(6, 7)) 1%Real 1%Real = Ok P).
Proof.
have h1 : (0 <= 1)%Real by lra.
have h2 : (0 < 1)%Real by lra.
split; first by [].
exact: (pseudo_inverses_finite (scalar_svd 0%Real) (0 : 'M[R]_(6, 7)) h1 h2).
Defined.

(** The side condition on [ε] cannot be dropped from C3: with the
    negative threshold [-1] the singular value 0 of the 1 x 1 Jacobian [0]
    counts as above the threshold, and line 341 computes [1/0] although
    [λ = 1 > 0]. *)
Lemma with_SVD_negative_eps :
  is_svd (0%Real%:M : 'M[R]_1) (scalar_svd 0%Real (0%Real%:M : 'M[R]_1)) /\
  kinematics.calculateDampedPseudoInverse_with_SVD (scalar_svd 0%Real)
    (0%Real%:M : 'M[R]_1) (-1)%Real 1%Real = NonFinite at_reciprocal.
Proof.
split; first by apply: scalar_svd_is_svd; lra.
rewrite /kinematics.calculateDampedPseudoInverse_with_SVD /= coefficients1 mxE /=.
rewrite /kinematics.inv_Sv_at /fless Rabs_R0; case: Rlt_dec => h /=; last by lra.
by rewrite fdiv_zero.
Qed.

End PseudoInverseInstances.

Section Scenario.

Local Open Scope ring_scope.

Lemma damped_identity_neq0 (lambda : R) : 1 + lambda * lambda != 0 :> R.
Proof.
apply/eqP; rewrite !RopsE => h.
by have := Rle_0_sqr lambda; rewrite /Rsqr; lra.
Qed.

Lemma without_SVD_identity (eps lambda : R) :
  kinematics.calculateDampedPseudoInverse_without_SVD (1%:M : 'M[R]_6) eps lambda =
  Ok ((/ (1 + lambda * lambda))%Real%:M).
Proof.
rewrite without_SVD_tall // trmx1 mulmx1 scalemx1 -GRing.raddfD /=.
rewrite inverse_NonFinite.
  by rewrite unitmxE det_scalar GRing.unitfE GRing.expf_neq0 // damped_identity_neq0.
by rewrite /= invmx_scalar mulmx1.
Qed.

Lemma coefficients_scenario (c : R) :
  kinematics.coefficients (c%:M *m twist_error_x) =
  [:: 0; 0; 0; c * 0.01; 0; 0]%Real.
Proof.
apply: (@eq_from_nth _ 0%Real); first by rewrite size_coefficients.
rewrite size_coefficients => i i6.
rewrite (nth_coefficients _ (Ordinal i6)) mul_scalar_mx !mxE /= !RopsE.
by case: i i6 => [|[|[|[|[|[|i]]]]]] //= _; ring.
Qed.

End Scenario.

Section ScenarioUpdate.

Local Open Scope R_scope.

Lemma dmax_gt_1cm : 0.01 < main.dmax.
Proof. by rewrite /main.dmax; have := PI2_1; lra. Qed.

Lemma damped_gain_bounds (lambda : R) :
  0 < 0.01 / (1 + lambda * lambda) <= 0.01 /\
  Rabs (0.01 / (1 + lambda * lambda) - 0.01) <= 0.01 * (lambda * lambda).
Proof.
have l2 : 0 <= lambda * lambda by have := Rle_0_sqr lambda; rewrite /Rsqr.
set d := 1 + lambda * lambda; have pos : 0 < d by rewrite /d; lra.
have inv_pos := Rinv_0_lt_compat d pos.
have inv_d : d * / d = 1 by apply: Rinv_r; lra.
have inv_le1 : / d <= 1 by rewrite /d in inv_d pos inv_pos *; nra.
rewrite /Rdiv; split; first by nra.
by apply: Rabs_le; rewrite /d in inv_d pos inv_pos inv_le1 *; nra.
Qed.

(** The loop of lines 658-665 on the six joints of the scenario. *)
Lemma clamp_integrate_scenario (step v : R) :
  0 <= step -> 0 <= v ->
  main.clamp_integrate step 6 0 [:: 0; 0; 0; v; 0; 0] (nseq 6 0) =
  ([:: 0; 0; 0; clamped step v; 0; 0], [:: 0; 0; 0; clamped step v; 0; 0]).
Proof.
move=> step0 v0.
have c0 : clamped step 0 = 0 by rewrite clamped_id // Rabs_R0.
by rewrite !clamp_integrate_step /= !c0 !Rplus_0_l.
Qed.

(** C4. The scenario of zero joints, the 6 x 6 identity as Jacobian and
    the twist error (0,0,0, 0.01,0,0): the normal-equations strategy
    returns a matrix [P], and the joint velocity [P * error] before
    clamping is exactly [(0,0,0, v,0,0)] with [v = 0.01/(1 + λ²)], at
    joint index 3 and scaled by the damping, so that it is within
    [0.01 λ²] of 0.01; the loop of main, whose step limit is the constant
    [dmax] of one degree, above 0.01, leaves it unclamped and advances the
    joint vector from zero to [(0,0,0, v,0,0)]; and under any step limit
    [0 <= step < v] the clamp engages and the joint vector advances by
    exactly [step] at joint index 3 and by nothing elsewhere. *)
Theorem scenario_joint_update (dls_eps dls_lambda : R) :
  let v := 0.01 / (1 + dls_lambda * dls_lambda) in
  [/\ exists2 P, kinematics.calculateDampedPseudoInverse_without_SVD
                   (1%:M : 'M[R]_6)%R dls_eps dls_lambda = Ok P
               & kinematics.coefficients (P *m twist_error_x)%R = [:: 0; 0; 0; v; 0; 0],
      Rabs (v - 0.01) <= 0.01 * (dls_lambda * dls_lambda),
      main.joint_update (1%:M : 'M[R]_6)%R dls_eps dls_lambda twist_error_x (nseq 6 0) =
        Ok ([:: 0; 0; 0; v; 0; 0], [:: 0; 0; 0; v; 0; 0]) &
      forall step, 0 <= step < v ->
        main.clamp_integrate step 6 0 [:: 0; 0; 0; v; 0; 0] (nseq 6 0) =
        ([:: 0; 0; 0; step; 0; 0], [:: 0; 0; 0; step; 0; 0])].
Proof.
move=> v; have [[v0 v1] vapprox] := damped_gain_bounds dls_lambda.
have coeffs : kinematics.coefficients
    ((/ (1 + dls_lambda * dls_lambda))%:M *m twist_error_x)%R = [:: 0; 0; 0; v; 0; 0].
  by rewrite coefficients_scenario /v /Rdiv [0.01 * _]Rmult_comm.
split=> //.
- by exists ((/ (1 + dls_lambda * dls_lambda))%:M)%R => //; apply: without_SVD_identity.
- rewrite /main.joint_update without_SVD_identity /bind; cbv beta iota zeta.
  rewrite coeffs size_nseq.
  rewrite (clamp_integrate_scenario (Rlt_le _ _ dmax_pos) (Rlt_le _ _ v0)).
  rewrite clamped_id //.
  by rewrite (Rabs_pos_eq _ (Rlt_le _ _ v0)); have := dmax_gt_1cm; lra.
- move=> step [step0 stepv].
  rewrite (clamp_integrate_scenario step0 (Rlt_le _ _ v0)).
  have -> : clamped step v = step.
    by rewrite /clamped; case: Rlt_dec => ? /=; lra.
  by [].
Qed.

(** With the default damping 20 of line 527 the velocity of the
    scenario is [(0,0,0, 1/40100,0,0)], which is neither at index 0 nor
    close to 0.01, and under the step limit 0.005, below 0.01, the joint
    vector advances by 1/40100 and not by the step limit. *)
Lemma scenario_default_lambda :
  exists2 P, kinematics.calculateDampedPseudoInverse_without_SVD
               (1%:M : 'M[R]_6)%R 1 20 = Ok P
           & kinematics.coefficients (P *m twist_error_x)%R = [:: 0; 0; 0; 1 / 40100; 0; 0] /\
             main.clamp_integrate 0.005 6 0
               (kinematics.coefficients (P *m twist_error_x)%R) (nseq 6 0) =
             ([:: 0; 0; 0; 1 / 40100; 0; 0], [:: 0; 0; 0; 1 / 40100; 0; 0]).
Proof.
exists ((/ (1 + 20 * 20))%:M)%R; first exact: without_SVD_identity.
have -> : kinematics.coefficients ((/ (1 + 20 * 20))%:M *m twist_error_x)%R =
          [:: 0; 0; 0; 1 / 40100; 0; 0].
  by rewrite coefficients_scenario; congr [:: _; _; _; _; _; _]; lra.
have h1 : 0 <= 0.005 by lra.
have h2 : 0 <= 1 / 40100 by lra.
split=> //; rewrite (clamp_integrate_scenario h1 h2).
by rewrite clamped_id // Rabs_pos_eq; lra.
Qed.

End ScenarioUpdate.

Section TfFacts.

Local Open Scope R_scope.

Lemma setRotation_Ok (q : Quaternion) :
  tf.length2 q <> 0 -> tf.setRotation q = Ok (rotation_of q).
Proof. by move=> n0; rewrite /tf.setRotation fdiv_Ok. Qed.

Lemma setRotation_zero (q : Quaternion) :
  tf.length2 q = 0 -> tf.setRotation q = NonFinite at_setRotation.
Proof. by move=> n0; rewrite /tf.setRotation n0 fdiv_zero. Qed.

Lemma length2_ge0 (q : Quaternion) : 0 <= tf.length2 q.
Proof. by rewrite /tf.length2; nra. Qed.

Lemma length2_relative (a b : Quaternion) :
  tf.length2 (relative a b) = tf.length2 a * tf.length2 b.
Proof. by rewrite /tf.length2 /=; ring. Qed.

Lemma qw_relative (a b : Quaternion) : qw (relative a b) = tf.dot a b.
Proof. by rewrite /tf.dot /=; ring. Qed.

Lemma relative_rotation (a b : Quaternion) :
  tf.length2 a <> 0 -> tf.length2 b <> 0 ->
  tf.m_mul (tf.transpose (rotation_of a)) (rotation_of b) = rotation_of (relative a b).
Proof.
move=> a0 b0.
have r0 : tf.length2 (relative a b) <> 0 by rewrite length2_relative; nra.
move: a0 b0 r0; rewrite /tf.m_mul /tf.transpose /rotation_of /tf.tdot /tf.el /tf.length2 /=.
move=> a0 b0 r0.
by congr (mkMatrix3x3 (mkVector3 _ _ _) (mkVector3 _ _ _) (mkVector3 _ _ _));
   field; split.
Qed.

End TfFacts.

Section GetRotation.

Local Open Scope R_scope.

Lemma rotation_of_scaled (c : R) (q : Quaternion) :
  c <> 0 -> tf.length2 q <> 0 -> rotation_of (scaled c q) = rotation_of q.
Proof.
rewrite /rotation_of /tf.length2 /= => c0 q0.
have s0 : c * qx q * (c * qx q) + c * qy q * (c * qy q) + c * qz q * (c * qz q) +
          c * qw q * (c * qw q) <> 0.
  have -> : c * qx q * (c * qx q) + c * qy q * (c * qy q) + c * qz q * (c * qz q) +
            c * qw q * (c * qw q) =
            c * c * (qx q * qx q + qy q * qy q + qz q * qz q + qw q * qw q) by ring.
  by do !apply: Rmult_integral_contrapositive_currified.
by congr (mkMatrix3x3 (mkVector3 _ _ _) (mkVector3 _ _ _) (mkVector3 _ _ _));
   field; split.
Qed.

Lemma length2_scaled (c : R) (q : Quaternion) :
  tf.length2 (scaled c q) = c * c * tf.length2 q.
Proof. by rewrite /tf.length2 /=; ring. Qed.

Lemma sqrt_length2_neq0 (q : Quaternion) : tf.length2 q <> 0 -> sqrt (tf.length2 q) <> 0.
Proof.
move=> q0 s0; apply: q0; apply: sqrt_eq_0 => //; exact: length2_ge0.
Qed.

Lemma length2_normalized (q : Quaternion) :
  tf.length2 q <> 0 -> tf.length2 (normalized q) = 1.
Proof.
move=> q0; rewrite length2_scaled -{3}(sqrt_sqrt _ (length2_ge0 q)).
by field; apply: sqrt_length2_neq0.
Qed.

Lemma rotation_of_normalized (q : Quaternion) :
  tf.length2 q <> 0 -> rotation_of (normalized q) = rotation_of q.
Proof.
move=> q0; apply: rotation_of_scaled => //.
by apply: Rinv_neq_0_compat; apply: sqrt_length2_neq0.
Qed.

Lemma sqrt_4sqr (x : R) : sqrt (4 * (x * x)) = 2 * Rabs x.
Proof.
have -> : 4 * (x * x) = Rsqr (2 * x) by rewrite /Rsqr; ring.
by rewrite sqrt_Rsqr_abs Rabs_mult (Rabs_pos_eq 2) //; lra.
Qed.

Lemma half_E : 0.5 = / 2.
Proof. by lra. Qed.

Lemma Rabs_neq0 (x : R) : x <> 0 -> 2 * Rabs x <> 0.
Proof. by move=> /Rabs_pos_lt; lra. Qed.

(** [getRotation] gives back the unit quaternion of a rotation matrix,
    up to its sign. *)
Lemma getRotation_unit (u : Quaternion) :
  tf.length2 u = 1 ->
  exists2 q', tf.getRotation (rotation_of u) = Ok q' & q' = u \/ q' = tf.q_neg u.
Proof.
case: u => x y z w; rewrite /rotation_of /tf.q_neg /tf.length2 /= => unit; rewrite unit.
have -> : 2 / 1 = 2 by field.
rewrite /tf.getRotation /tf.el /= !half_E.
case: Rlt_dec => tr /=.
  have -> : 1 - (y * (y * 2) + z * (z * 2)) + (1 - (x * (x * 2) + z * (z * 2))) +
            (1 - (x * (x * 2) + y * (y * 2))) + 1 = 4 * (w * w) by lra.
  have w0 : w <> 0 by move=> w0; rewrite w0 in unit; lra.
  rewrite sqrt_4sqr (fdiv_Ok _ _ (Rabs_neq0 w0)) /=.
  rewrite /tf.temp_set /=; eexists; first by [].
  move: (Rabs_neq0 w0); rewrite /Rabs; case: Rcase_abs => ws a0.
    by right; congr mkQuaternion; field.
  by left; congr mkQuaternion; field.
have finish (c : R) (q' : Quaternion) :
    c <> 0 ->
    (Rabs c = c -> q' = mkQuaternion x y z w) ->
    (Rabs c = - c -> q' = mkQuaternion (- x) (- y) (- z) (- w)) ->
    q' = mkQuaternion x y z w \/ q' = mkQuaternion (- x) (- y) (- z) (- w).
  move=> c0 pos neg; rewrite /Rabs in pos neg.
  by case: Rcase_abs pos neg => _ pos neg; [right; apply: neg|left; apply: pos].
case: Rlt_dec => m01 /=; case: Rlt_dec => m2 /=.
- have z0 : z <> 0 by move=> z0; move: m2; rewrite z0; clear; nra.
  set S := sqrt _; have -> : S = 2 * Rabs z by rewrite -sqrt_4sqr; congr sqrt; ring.
  rewrite (fdiv_Ok _ _ (Rabs_neq0 z0)) /tf.temp_set /=.
  eexists; first by [].
  by apply: (finish z) => // ->; congr mkQuaternion; field.
- have y0 : y <> 0 by move=> y0; move: m01; rewrite y0; clear; nra.
  set S := sqrt _; have -> : S = 2 * Rabs y by rewrite -sqrt_4sqr; congr sqrt; ring.
  rewrite (fdiv_Ok _ _ (Rabs_neq0 y0)) /tf.temp_set /=.
  eexists; first by [].
  by apply: (finish y) => // ->; congr mkQuaternion; field.
- have z0 : z <> 0 by move=> z0; move: m2; rewrite z0; clear; nra.
  set S := sqrt _; have -> : S = 2 * Rabs z by rewrite -sqrt_4sqr; congr sqrt; ring.
  rewrite (fdiv_Ok _ _ (Rabs_neq0 z0)) /tf.temp_set /=.
  eexists; first by [].
  by apply: (finish z) => // ->; congr mkQuaternion; field.
- have x0 : x <> 0 by move=> x0; move: unit tr m01 m2; rewrite x0; clear; nra.
  set S := sqrt _; have -> : S = 2 * Rabs x by rewrite -sqrt_4sqr; congr sqrt; ring.
  rewrite (fdiv_Ok _ _ (Rabs_neq0 x0)) /tf.temp_set /=.
  eexists; first by [].
  by apply: (finish x) => // ->; congr mkQuaternion; field.
Qed.

End GetRotation.

Section RelativePose.

Local Open Scope R_scope.

Lemma tfAcos_acos (x : R) : tf.tfAcos x = acos x.
Proof.
rewrite /tf.tfAcos; case: (Rlt_dec x (-1)) => h1 /=.
  case: (Rlt_dec 1 (-1)) => h2 /=; first by lra.
  by rewrite /acos; case_decisions; lra.
case: (Rlt_dec 1 x) => h2 //=.
by rewrite /acos; case_decisions; lra.
Qed.

Lemma getAngleShortestPath_abs (q : Quaternion) :
  tf.getAngleShortestPath q = 2 * acos (Rabs (qw q)).
Proof.
rewrite /tf.getAngleShortestPath !tfAcos_acos /Rabs.
by case: Rle_dec => h /=; case: Rcase_abs => h' //; congr (2 * acos _); lra.
Qed.

Lemma getAngleShortestPath_neg (q : Quaternion) :
  tf.getAngleShortestPath (tf.q_neg q) = tf.getAngleShortestPath q.
Proof. by rewrite !getAngleShortestPath_abs /= Rabs_Ropp. Qed.

Lemma length2_neg (q : Quaternion) : tf.length2 (tf.q_neg q) = tf.length2 q.
Proof. by rewrite /tf.length2 /=; ring. Qed.

Lemma quaternionTFToMsg_unit (q : Quaternion) :
  tf.length2 q = 1 -> tf.quaternionTFToMsg q = Ok q.
Proof.
move=> unit; rewrite /tf.quaternionTFToMsg /tf.QUATERNION_TOLERANCE unit.
have -> : 1 - 1 = 0 by ring.
by rewrite Rabs_R0; case: Rlt_dec => h //=; lra.
Qed.

(** The rotation part of [poseTFToMsg] on a rotation matrix. *)
Lemma getRotation_rotation_of (r : Quaternion) :
  tf.length2 r <> 0 ->
  exists2 q', tf.getRotation (rotation_of r) = Ok q'
            & q' = normalized r \/ q' = tf.q_neg (normalized r).
Proof.
move=> r0; rewrite -rotation_of_normalized //.
by apply: getRotation_unit; apply: length2_normalized.
Qed.

Lemma d_tf_Ok (target ref : Pose) :
  tf.length2 (orientation target) <> 0 -> tf.length2 (orientation ref) <> 0 ->
  kinematics.d_tf target ref =
  Ok (mkTransform
        (rotation_of (relative (orientation ref) (orientation target)))
        (tf.v_add
           (tf.m_mulv (tf.transpose (rotation_of (orientation ref)))
              (kinematics.to_Vector3 (position target)))
           (tf.m_mulv (tf.transpose (rotation_of (orientation ref)))
              (tf.v_neg (kinematics.to_Vector3 (position ref)))))).
Proof.
move=> t0 r0; rewrite /kinematics.d_tf /tf.mkTransformQ !setRotation_Ok //=.
by rewrite /tf.mul /tf.inverse /= relative_rotation.
Qed.

(** A rotation does not change the length of the displacement. *)
Lemma rotated_displacement (q : Quaternion) (a b : Point) :
  tf.length2 q <> 0 ->
  let d := tf.v_add
             (tf.m_mulv (tf.transpose (rotation_of q)) (kinematics.to_Vector3 a))
             (tf.m_mulv (tf.transpose (rotation_of q))
                (tf.v_neg (kinematics.to_Vector3 b))) in
  vx d * vx d + vy d * vy d + vz d * vz d =
  (px a - px b) * (px a - px b) + (py a - py b) * (py a - py b) +
  (pz a - pz b) * (pz a - pz b).
Proof.
rewrite /tf.length2 /tf.v_add /tf.m_mulv /tf.transpose /rotation_of /tf.v_dot /tf.el
        /tf.length2 /= => q0.
by field.
Qed.

Lemma Rabs_qw_normalized (r : Quaternion) :
  tf.length2 r <> 0 -> Rabs (qw (normalized r)) = Rabs (qw r) / sqrt (tf.length2 r).
Proof.
move=> r0; rewrite /= Rabs_mult Rabs_inv (Rabs_pos_eq _ (sqrt_pos _)).
by rewrite /Rdiv Rmult_comm.
Qed.

(** Lines 248-263 on two poses with non-zero quaternions. *)
Lemma dPose_geom_Ok (target ref : Pose) :
  tf.length2 (orientation target) <> 0 -> tf.length2 (orientation ref) <> 0 ->
  exists2 d_pose, kinematics.dPose_geom target ref = Ok d_pose
    & [/\ px (position d_pose) * px (position d_pose) +
          py (position d_pose) * py (position d_pose) +
          pz (position d_pose) * pz (position d_pose) =
          (px (position target) - px (position ref)) *
          (px (position target) - px (position ref)) +
          (py (position target) - py (position ref)) *
          (py (position target) - py (position ref)) +
          (pz (position target) - pz (position ref)) *
          (pz (position target) - pz (position ref)),
          tf.length2 (orientation d_pose) = 1 &
          tf.getAngleShortestPath (orientation d_pose) =
          geodesic_angle (orientation ref) (orientation target)].
Proof.
move=> t0 r0; rewrite /kinematics.dPose_geom d_tf_Ok //= /tf.poseTFToMsg /=.
have rel0 : tf.length2 (relative (orientation ref) (orientation target)) <> 0.
  by rewrite length2_relative; apply: Rmult_integral_contrapositive_currified.
have [q' -> /= q'E] := getRotation_rotation_of rel0.
have unit : tf.length2 q' = 1.
  by case: q'E => ->; rewrite ?length2_neg length2_normalized.
rewrite quaternionTFToMsg_unit //=; eexists; first by [].
split=> //=; first exact: rotated_displacement.
have -> : tf.getAngleShortestPath q' =
          tf.getAngleShortestPath (normalized (relative (orientation ref) (orientation target))).
  by case: q'E => -> //; rewrite getAngleShortestPath_neg.
rewrite getAngleShortestPath_abs Rabs_qw_normalized // /geodesic_angle.
by rewrite length2_relative qw_relative.
Qed.

End RelativePose.

Section Slerp.

Local Open Scope R_scope.

Lemma dot_neg_r (q1 q2 : Quaternion) : tf.dot q1 (tf.q_neg q2) = - tf.dot q1 q2.
Proof. by rewrite /tf.dot /=; ring. Qed.

Lemma sqrt_length2_mul_neq0 (q1 q2 : Quaternion) :
  tf.length2 q1 <> 0 -> tf.length2 q2 <> 0 -> sqrt (tf.length2 q1 * tf.length2 q2) <> 0.
Proof.
move=> n1 n2 s0; have := length2_ge0 q1; have := length2_ge0 q2 => p2 p1.
have : tf.length2 q1 * tf.length2 q2 = 0 by apply: sqrt_eq_0 => //; nra.
by case/Rmult_integral.
Qed.

Lemma angleShortestPath_Ok (q1 q2 : Quaternion) :
  tf.length2 q1 <> 0 -> tf.length2 q2 <> 0 ->
  tf.angleShortestPath q1 q2 = Ok (geodesic_angle q1 q2).
Proof.
move=> n1 n2; have s0 := sqrt_length2_mul_neq0 n1 n2.
rewrite /tf.angleShortestPath /geodesic_angle; case: Rlt_dec => d0 /=.
  rewrite (fdiv_Ok _ _ s0) /= tfAcos_acos dot_neg_r (Rabs_left _ d0).
  by congr Ok; ring.
have d0' : 0 <= tf.dot q1 q2 by lra.
rewrite (fdiv_Ok _ _ s0) /= tfAcos_acos (Rabs_pos_eq _ d0').
by congr Ok; ring.
Qed.

Lemma geodesic_half (q1 q2 : Quaternion) : geodesic_angle q1 q2 / 2 = half_angle q1 q2.
Proof. by rewrite /geodesic_angle /half_angle; field. Qed.

Lemma acos_lt_PI (c : R) : 0 <= c -> 0 <= acos c < PI.
Proof.
move=> c0; case: (Rlt_dec c 1) => c1.
  by have := @acos_bound_lt c; lra.
have := PI_RGT_0; rewrite /acos; case_decisions; lra.
Qed.

Lemma half_angle_bounds (q1 q2 : Quaternion) :
  tf.length2 q1 <> 0 -> tf.length2 q2 <> 0 -> 0 <= half_angle q1 q2 < PI.
Proof.
move=> n1 n2; apply: acos_lt_PI; apply: Rmult_le_pos; first exact: Rabs_pos.
by left; apply: Rinv_0_lt_compat; have := sqrt_pos (tf.length2 q1 * tf.length2 q2);
   have := sqrt_length2_mul_neq0 n1 n2; lra.
Qed.

Lemma sin_half_angle_pos (q1 q2 : Quaternion) :
  tf.length2 q1 <> 0 -> tf.length2 q2 <> 0 -> half_angle q1 q2 <> 0 ->
  0 < sin (half_angle q1 q2).
Proof.
move=> n1 n2 h0; have [lo hi] := half_angle_bounds n1 n2.
by apply: sin_gt_0 => //; lra.
Qed.

(** [tf2::slerp] on two non-zero quaternions, branch by branch. *)
Lemma slerp_Ok (q1 q2 : Quaternion) (t : R) :
  tf.length2 q1 <> 0 -> tf.length2 q2 <> 0 ->
  let theta := half_angle q1 q2 in
  tf.slerp q1 q2 t =
  Ok (if Req_dec_T theta 0 then q1
      else slerp_mix q1 (if Rlt_dec (tf.dot q1 q2) 0 then tf.q_neg q2 else q2)
             (sin ((1 - t) * theta)) (sin (t * theta)) (1 / sin theta)).
Proof.
move=> n1 n2 theta; rewrite /tf.slerp angleShortestPath_Ok //= geodesic_half -/theta.
case: Req_dec_T => th0 //=.
have sin0 : sin theta <> 0 by have := sin_half_angle_pos n1 n2 th0; rewrite -/theta; lra.
by rewrite fdiv_Ok //=; case: Rlt_dec.
Qed.

Lemma slerp_mix_end (q1 q2 : Quaternion) (theta : R) :
  sin theta <> 0 ->
  slerp_mix q1 q2 (sin ((1 - 1) * theta)) (sin (1 * theta)) (1 / sin theta) = q2.
Proof.
move=> s0; have -> : (1 - 1) * theta = 0 by ring.
rewrite Rmult_1_l sin_0 /slerp_mix; case: q2 => x y z w /=.
by congr mkQuaternion; field.
Qed.

Lemma slerp_mix_start (q1 q2 : Quaternion) (theta : R) :
  sin theta <> 0 ->
  slerp_mix q1 q2 (sin ((1 - 0) * theta)) (sin (0 * theta)) (1 / sin theta) = q1.
Proof.
move=> s0; have -> : (1 - 0) * theta = theta by ring.
rewrite Rmult_0_l sin_0 /slerp_mix; case: q1 => x y z w /=.
by congr mkQuaternion; field.
Qed.

Lemma four_squares_zero (a b c d : R) :
  a * a + b * b + c * c + d * d <= 0 -> [/\ a = 0, b = 0, c = 0 & d = 0].
Proof.
have := Rle_0_sqr a; have := Rle_0_sqr b; have := Rle_0_sqr c; have := Rle_0_sqr d.
rewrite /Rsqr => d2 c2 b2 a2 sum.
have a0 : a * a = 0 by lra.
have b0 : b * b = 0 by lra.
have c0 : c * c = 0 by lra.
have d0 : d * d = 0 by lra.
by split; [case: (Rmult_integral _ _ a0)|case: (Rmult_integral _ _ b0)|
           case: (Rmult_integral _ _ c0)|case: (Rmult_integral _ _ d0)].
Qed.

(** Two unit quaternions at half angle zero are equal up to sign. *)
Lemma half_angle_zero (q1 q2 : Quaternion) :
  tf.length2 q1 = 1 -> tf.length2 q2 = 1 -> half_angle q1 q2 = 0 ->
  q1 = (if Rlt_dec (tf.dot q1 q2) 0 then tf.q_neg q2 else q2).
Proof.
rewrite /half_angle => u1 u2; rewrite u1 u2 Rmult_1_l sqrt_1 Rdiv_1_r => a0.
have abs1 : 1 <= Rabs (tf.dot q1 q2).
  case: (Rle_dec 1 (Rabs (tf.dot q1 q2))) => // lt1.
  have := @acos_bound_lt (Rabs (tf.dot q1 q2)); have := Rabs_pos (tf.dot q1 q2); lra.
move: u1 u2 abs1 {a0}; rewrite /tf.length2 /tf.dot /tf.q_neg.
case: q1 => x1 y1 z1 w1; case: q2 => x2 y2 z2 w2 /= u1 u2.
case: Rlt_dec => d0 /=.
  rewrite Rabs_left // => abs1.
  have sq : (x1 + x2) * (x1 + x2) + (y1 + y2) * (y1 + y2) + (z1 + z2) * (z1 + z2) +
            (w1 + w2) * (w1 + w2) <= 0 by lra.
  by case: (four_squares_zero sq) => ? ? ? ?; congr mkQuaternion; lra.
have d0' : 0 <= x1 * x2 + y1 * y2 + z1 * z2 + w1 * w2 by lra.
rewrite (Rabs_pos_eq _ d0') => abs1.
have sq : (x1 - x2) * (x1 - x2) + (y1 - y2) * (y1 - y2) + (z1 - z2) * (z1 - z2) +
          (w1 - w2) * (w1 - w2) <= 0 by lra.
by case: (four_squares_zero sq) => ? ? ? ?; congr mkQuaternion; lra.
Qed.

(** At [t = 1] the interpolation is the destination, or its opposite
    when the two quaternions are in opposite hemispheres. *)
Lemma slerp_end (q1 q2 : Quaternion) :
  tf.length2 q1 = 1 -> tf.length2 q2 = 1 ->
  tf.slerp q1 q2 1 = Ok (if Rlt_dec (tf.dot q1 q2) 0 then tf.q_neg q2 else q2).
Proof.
move=> u1 u2.
have n1 : tf.length2 q1 <> 0 by rewrite u1; lra.
have n2 : tf.length2 q2 <> 0 by rewrite u2; lra.
rewrite slerp_Ok //; case: Req_dec_T => th0 /=; first by rewrite {1}(half_angle_zero u1 u2 th0).
rewrite slerp_mix_end //.
by have := sin_half_angle_pos n1 n2 th0; lra.
Qed.

End Slerp.

Section LocalTargetFacts.

Local Open Scope R_scope.

Lemma isClose_P (s : LocalTarget) :
  reflect (within_tolerance (pose_ s) (to_ s)) (LocalTargetM.isClose_ s).
Proof.
rewrite /LocalTargetM.isClose_ /within_tolerance.
apply: (iffP and5P) => [[/flessP ? /flessP ? /flessP ? /flessP ? /and3P
                          [/flessP ? /flessP ? /flessP ?]]|[? ? ? [? ? ? ?]]].
  by split=> //; split.
by split; try exact/flessP; apply/and3P; split; exact/flessP.
Qed.

Lemma reset_Ok (eef_target1 eef_target2 : Pose) (now : R) (s : LocalTarget) (id : Z) :
  tf.length2 (orientation (pose_ s)) <> 0 ->
  tf.length2 (orientation (selected eef_target1 eef_target2 id)) <> 0 ->
  linear_vel_ s <> 0 -> dquat_rot_vel_ s <> 0 ->
  LocalTargetM.reset_ eef_target1 eef_target2 now s id =
  Ok {| linear_vel_ := linear_vel_ s;
        dquat_rot_vel_ := dquat_rot_vel_ s;
        global_target_id_ := id;
        from_ := pose_ s;
        to_ := selected eef_target1 eef_target2 id;
        start_time_ := now;
        expected_duration_ :=
          leg_duration (pose_ s) (selected eef_target1 eef_target2 id)
            (linear_vel_ s) (dquat_rot_vel_ s);
        pose_ := pose_ s |}.
Proof.
move=> S0 D0 lin0 ang0.
rewrite /LocalTargetM.reset_ -/(selected eef_target1 eef_target2 id).
have [d -> [sq _ angle]] := dPose_geom_Ok D0 S0.
by rewrite /= sq (fdiv_Ok _ _ lin0) /= angle (fdiv_Ok _ _ ang0) /= std_maxE.
Qed.

Lemma capped_clamp01 (x : R) : 0 <= x -> capped x = clamp01 x.
Proof.
by rewrite /capped /clamp01 => x0; case_decisions; lra.
Qed.

Lemma clamp01_bounds (x : R) : 0 <= clamp01 x <= 1.
Proof. by rewrite /clamp01; case_decisions; lra. Qed.

Lemma lerp_end (a b : Point) : lerp a b 1 = b.
Proof. by rewrite /lerp; case: b => x y z /=; congr mkPoint; ring. Qed.

Lemma fquot_Number (a b : R) : b <> 0 -> fquot a b = Number (a / b).
Proof. by rewrite /fquot => b0; case: Req_dec_T. Qed.

Lemma fquot_zero (a : R) :
  fquot a 0 = if Rlt_dec 0 a then PlusInfinity
              else if Rlt_dec a 0 then MinusInfinity else NaN.
Proof. by rewrite /fquot; case: Req_dec_T. Qed.

(** Lines 435-436: the quotient and its cap. *)
Lemma capped_quotient (e d : R) :
  d <> 0 \/ 0 < e ->
  number at_expected_duration
    (if fgreater (fquot e d) 1.0 then Number 1.0 else fquot e d) =
  Ok (if Req_dec_T d 0 then 1 else capped (e / d)).
Proof.
case: (Req_dec_T d 0) => [d0 [//|e0]|d0 _] /=.
  by rewrite d0 fquot_zero; case: Rlt_dec => //= _; congr Ok; lra.
rewrite (fquot_Number _ d0) /= /capped.
by case: Rlt_dec => h1 /=; case: Rlt_dec => h2 //; congr Ok; lra.
Qed.

Lemma uncapped_quotient (e d : R) :
  d = 0 -> e <= 0 ->
  number at_expected_duration
    (if fgreater (fquot e d) 1.0 then Number 1.0 else fquot e d) =
  NonFinite at_expected_duration.
Proof. by move=> -> e0; rewrite fquot_zero; case_decisions => //; lra. Qed.

(** An update computes a pose but when it divides a time that has not
    elapsed by a zero duration. *)
Lemma interpolate_defined (now : R) (s : LocalTarget) :
  expected_duration_ s <> 0 \/ start_time_ s < now ->
  tf.length2 (orientation (from_ s)) <> 0 -> tf.length2 (orientation (to_ s)) <> 0 ->
  let t := if Req_dec_T (expected_duration_ s) 0 then 1
           else capped ((now - start_time_ s) / expected_duration_ s) in
  exists2 q, tf.slerp (orientation (from_ s)) (orientation (to_ s)) t = Ok q
           & LocalTargetM.interpolate_ now s =
             Ok (with_pose s (mkPose (lerp (position (from_ s)) (position (to_ s)) t) q)).
Proof.
move=> defined n1 n2 t; rewrite /LocalTargetM.interpolate_.
have defined' : expected_duration_ s <> 0 \/ 0 < now - start_time_ s.
  by case: defined => [?|?]; [left|right; lra].
rewrite [number _ _](capped_quotient defined') -/t /=.
by rewrite slerp_Ok //=; eexists.
Qed.

Lemma interpolate_Ok (now : R) (s : LocalTarget) :
  expected_duration_ s <> 0 ->
  tf.length2 (orientation (from_ s)) <> 0 -> tf.length2 (orientation (to_ s)) <> 0 ->
  let t := capped ((now - start_time_ s) / expected_duration_ s) in
  exists2 q, tf.slerp (orientation (from_ s)) (orientation (to_ s)) t = Ok q
           & LocalTargetM.interpolate_ now s =
             Ok (with_pose s (mkPose (lerp (position (from_ s)) (position (to_ s)) t) q)).
Proof.
move=> dur0 n1 n2.
have := @interpolate_defined now s (or_introl dur0) n1 n2.
by case: Req_dec_T.
Qed.

Lemma interpolate_zero_duration (now : R) (s : LocalTarget) :
  expected_duration_ s = 0 -> now <= start_time_ s ->
  LocalTargetM.interpolate_ now s = NonFinite at_expected_duration.
Proof.
move=> dur0 early; rewrite /LocalTargetM.interpolate_.
by rewrite [number _ _]uncapped_quotient //; lra.
Qed.

Lemma linear_distance_same (p : Point) : linear_distance p p = 0.
Proof.
rewrite /linear_distance.
have -> : (px p - px p) * (px p - px p) + (py p - py p) * (py p - py p) +
          (pz p - pz p) * (pz p - pz p) = 0 by ring.
exact: sqrt_0.
Qed.

Lemma geodesic_angle_same (q : Quaternion) : tf.length2 q <> 0 -> geodesic_angle q q = 0.
Proof.
move=> q0; rewrite /geodesic_angle.
have -> : tf.dot q q = tf.length2 q by [].
rewrite (sqrt_square _ (length2_ge0 q)) (Rabs_pos_eq _ (length2_ge0 q)).
by rewrite (Rdiv_diag _ q0) acos_1; ring.
Qed.

Lemma slerp_same (q : Quaternion) (t : R) : tf.length2 q <> 0 -> tf.slerp q q t = Ok q.
Proof.
move=> q0; rewrite slerp_Ok //.
have -> : half_angle q q = 0.
  have := geodesic_angle_same q0; rewrite /geodesic_angle -/(half_angle q q); lra.
by case: (Req_dec_T 0 0).
Qed.

Lemma leg_duration_same (S : Pose) (lin ang : R) :
  tf.length2 (orientation S) <> 0 -> leg_duration S S lin ang = 0.
Proof.
move=> S0; rewrite /leg_duration linear_distance_same geodesic_angle_same //.
by rewrite /Rdiv !Rmult_0_l /Rmax; case_decisions.
Qed.

End LocalTargetFacts.

Section Legs.

Local Open Scope R_scope.

Lemma within_tolerance_same (p : Pose) : within_tolerance p p.
Proof.
have zero (x : R) : Rabs (x - x) < 0.01.
  by rewrite Rminus_diag Rabs_R0; lra.
by split=> //; split.
Qed.

Lemma sqr_lt_tolerance (x : R) : Rabs x < 0.01 -> x * x < 0.0001.
Proof. by rewrite /Rabs; case: Rcase_abs => ? ?; nra. Qed.

(** A pose whose quaternion is in the hemisphere opposite to the
    destination's is not within the tolerance. *)
Lemma opposite_not_close (s : LocalTarget) :
  tf.length2 (orientation (to_ s)) = 1 ->
  tf.dot (orientation (pose_ s)) (orientation (to_ s)) < 0 ->
  LocalTargetM.isClose_ s = false.
Proof.
move=> unit opp; apply/negP => /isClose_P [_ _ _].
case=> /sqr_lt_tolerance cx /sqr_lt_tolerance cy /sqr_lt_tolerance cz
       /sqr_lt_tolerance cw.
move: unit opp cx cy cz cw; rewrite /tf.length2 /tf.dot.
case: (orientation (pose_ s)) => x y z w; case: (orientation (to_ s)) => x' y' z' w' /=.
by move=> unit opp cx cy cz cw; nra.
Qed.

Lemma dot_slerp_mix (q1 q2 q : Quaternion) (s0 s1 d : R) :
  tf.dot (slerp_mix q1 q2 s0 s1 d) q = d * (s0 * tf.dot q1 q + s1 * tf.dot q2 q).
Proof. by rewrite /tf.dot /slerp_mix /=; ring. Qed.

Lemma dot_neg_l (q1 q2 : Quaternion) : tf.dot (tf.q_neg q1) q2 = - tf.dot q1 q2.
Proof. by rewrite /tf.dot /=; ring. Qed.

Lemma capped_bounds (x : R) : 0 <= x -> 0 <= capped x <= 1.
Proof. by rewrite /capped => x0; case_decisions; lra. Qed.

(** Between two quaternions in opposite hemispheres, every interpolated
    quaternion stays in the hemisphere opposite to the destination. *)
Lemma slerp_stays_opposite (q1 q2 q : Quaternion) (t : R) :
  tf.length2 q1 = 1 -> tf.length2 q2 = 1 -> tf.dot q1 q2 < 0 -> 0 <= t <= 1 ->
  tf.slerp q1 q2 t = Ok q -> tf.dot q q2 < 0.
Proof.
move=> u1 u2 opp [t0 t1].
have n1 : tf.length2 q1 <> 0 by rewrite u1; lra.
have n2 : tf.length2 q2 <> 0 by rewrite u2; lra.
rewrite slerp_Ok //; case: Req_dec_T => th0 /= [<-] //.
case: Rlt_dec => h /=; last by lra.
rewrite dot_slerp_mix dot_neg_l.
have -> : tf.dot q2 q2 = 1 by rewrite -u2.
have [lo hi] := half_angle_bounds n1 n2.
have sin_pos := sin_half_angle_pos n1 n2 th0.
set theta := half_angle q1 q2 in th0 lo hi sin_pos *.
have d_pos : 0 < 1 / sin theta by apply: Rdiv_lt_0_compat; lra.
have s0_ge0 : 0 <= sin ((1 - t) * theta) by apply: sin_ge_0; nra.
have s1_ge0 : 0 <= sin (t * theta) by apply: sin_ge_0; nra.
have neg : sin ((1 - t) * theta) * tf.dot q1 q2 + sin (t * theta) * -1 < 0.
  case: (Req_dec_T t 0) => [->|tn0].
    by rewrite Rmult_0_l sin_0 Rminus_0_r Rmult_1_l; nra.
  have : 0 < sin (t * theta) by apply: sin_gt_0; nra.
  by nra.
by nra.
Qed.

(** On a leg between opposite hemispheres, an update never switches. *)
Lemma opposite_leg_step (S D : Pose) (id : Z) (start duration : R)
    (eef_target1 eef_target2 : Pose) (now_reset now : R) (s : LocalTarget) :
  tf.length2 (orientation S) = 1 -> tf.length2 (orientation D) = 1 ->
  tf.dot (orientation S) (orientation D) < 0 -> 0 < duration ->
  on_leg s id S D start duration ->
  tf.dot (orientation (pose_ s)) (orientation D) < 0 ->
  start <= now ->
  exists2 s', LocalTargetM.updatePose eef_target1 eef_target2 now_reset now s = Ok s'
    & [/\ on_leg s' id S D start duration,
          tf.dot (orientation (pose_ s')) (orientation D) < 0,
          LocalTargetM.isClose_ s' = false &
          duration <= now - start ->
          pose_ s' = mkPose (position D) (tf.q_neg (orientation D))].
Proof.
move=> uS uD opp dur0 [idE fromE toE startE durE] opp_s le_now.
have not_close : LocalTargetM.isClose_ s = false.
  by apply: opposite_not_close; rewrite toE.
rewrite /LocalTargetM.updatePose /LocalTargetM.switch_ not_close /=.
have dur_neq0 : expected_duration_ s <> 0 by rewrite durE; lra.
have nS : tf.length2 (orientation (from_ s)) <> 0 by rewrite fromE uS; lra.
have nD : tf.length2 (orientation (to_ s)) <> 0 by rewrite toE uD; lra.
have [q slerp_q ->] := interpolate_Ok now dur_neq0 nS nD.
move: slerp_q; rewrite fromE toE startE durE.
set r := (now - start) / duration => slerp_q.
have r0 : 0 <= r by apply: Rmult_le_pos; [lra|left; apply: Rinv_0_lt_compat].
have opp_q : tf.dot q (orientation D) < 0.
  exact: (slerp_stays_opposite uS uD opp (capped_bounds r0) slerp_q).
eexists; first by [].
split=> //=.
- by apply: opposite_not_close; rewrite /= toE.
- move=> arrived.
  have r1 : 1 <= r.
    have inv_pos := Rinv_0_lt_compat _ dur0.
    have inv_d : duration * / duration = 1 by apply: Rinv_r; lra.
    by rewrite /r /Rdiv; nra.
  have capped1 : capped r = 1 by rewrite /capped; case_decisions; lra.
  move: slerp_q; rewrite capped1 slerp_end //.
  case: Rlt_dec => h /=; last by lra.
  move=> [<-]; congr mkPose.
  by rewrite /lerp; case: (position D) => x y z /=; congr mkPoint; ring.
Qed.

Lemma run_rcons (ticks : seq LocalTargetM.tick) (tk : LocalTargetM.tick) (s : LocalTarget) :
  LocalTargetM.run (rcons ticks tk) s =
  (s' <- LocalTargetM.run ticks s ;;
   LocalTargetM.updatePose (LocalTargetM.tick_target1 tk) (LocalTargetM.tick_target2 tk)
     (LocalTargetM.tick_now_reset tk) (LocalTargetM.tick_now tk) s').
Proof.
elim: ticks s => [|t ticks IH] s /=; first by case: LocalTargetM.updatePose.
by case: LocalTargetM.updatePose => //= s'.
Qed.

Lemma opposite_leg_run (S D : Pose) (id : Z) (start duration : R)
    (ticks : seq LocalTargetM.tick) (s : LocalTarget) :
  tf.length2 (orientation S) = 1 -> tf.length2 (orientation D) = 1 ->
  tf.dot (orientation S) (orientation D) < 0 -> 0 < duration ->
  on_leg s id S D start duration ->
  tf.dot (orientation (pose_ s)) (orientation D) < 0 ->
  all (fun tk => ~~ fless (LocalTargetM.tick_now tk) start) ticks ->
  exists2 s', LocalTargetM.run ticks s = Ok s'
    & [/\ on_leg s' id S D start duration,
          tf.dot (orientation (pose_ s')) (orientation D) < 0 &
          LocalTargetM.isClose_ s' = false].
Proof.
move=> uS uD opp dur0.
elim: ticks s => [|tk ticks IH] s leg opp_s /=.
  move=> _; exists s => //; split=> //.
  by apply: opposite_not_close => //; case: leg => _ _ -> _ _.
case/andP => /flessP after_start later.
have le_now : start <= LocalTargetM.tick_now tk by lra.
have [s' -> /= [leg' opp' _ _]] :=
  opposite_leg_step (LocalTargetM.tick_target1 tk) (LocalTargetM.tick_target2 tk)
    (LocalTargetM.tick_now_reset tk) uS uD opp dur0 leg opp_s le_now.
exact: IH.
Qed.

End Legs.

Section Transitions.

Local Open Scope R_scope.

Lemma interpolate_preserves (now : R) (s s' : LocalTarget) :
  LocalTargetM.interpolate_ now s = Ok s' ->
  [/\ global_target_id_ s' = global_target_id_ s, from_ s' = from_ s, to_ s' = to_ s,
      start_time_ s' = start_time_ s & expected_duration_ s' = expected_duration_ s].
Proof.
rewrite /LocalTargetM.interpolate_ => h.
have [t _ {}h] := bind_inv h.
by have [q _ [<-]] := bind_inv h.
Qed.

Lemma rem_switch (id : Z) : (id = 0 \/ id = 1)%Z -> Z.rem (id + 1) 2 = (1 - id)%Z.
Proof. by case=> ->. Qed.

Lemma selected_neq0 (eef_target1 eef_target2 : Pose) (id : Z) :
  tf.length2 (orientation eef_target1) <> 0 -> tf.length2 (orientation eef_target2) <> 0 ->
  tf.length2 (orientation (selected eef_target1 eef_target2 id)) <> 0.
Proof. by rewrite /selected; case: Z.eqb. Qed.

(** The leg a tick interpolates on is the one its arrival check leaves:
    a new one, from the current output to the other waypoint, if the
    output is within the tolerance of the destination, and the former one
    if not. *)
Lemma switch_leg (eef_target1 eef_target2 : Pose) (now_reset : R) (s : LocalTarget) :
  (global_target_id_ s = 0 \/ global_target_id_ s = 1)%Z ->
  tf.length2 (orientation (pose_ s)) <> 0 ->
  tf.length2 (orientation eef_target1) <> 0 ->
  tf.length2 (orientation eef_target2) <> 0 ->
  linear_vel_ s <> 0 -> dquat_rot_vel_ s <> 0 ->
  let other := (1 - global_target_id_ s)%Z in
  let waypoint := selected eef_target1 eef_target2 other in
  LocalTargetM.switch_ eef_target1 eef_target2 now_reset s =
  if LocalTargetM.isClose_ s
  then Ok {| linear_vel_ := linear_vel_ s;
             dquat_rot_vel_ := dquat_rot_vel_ s;
             global_target_id_ := other;
             from_ := pose_ s;
             to_ := waypoint;
             start_time_ := now_reset;
             expected_duration_ :=
               leg_duration (pose_ s) waypoint (linear_vel_ s) (dquat_rot_vel_ s);
             pose_ := pose_ s |}
  else Ok s.
Proof.
move=> id01 pose0 T1_0 T2_0 lin0 ang0 other waypoint.
have way0 := @selected_neq0 _ _ other T1_0 T2_0.
rewrite /LocalTargetM.switch_; case: LocalTargetM.isClose_ => //.
by rewrite rem_switch // reset_Ok.
Qed.

(** C7. In a state with the active waypoint id in {0, 1}, non-zero
    quaternions and positive speeds: [isClose_] holds exactly when each
    of the three position components and each of the four quaternion
    components of the output pose is within 0.01 of the active
    destination; the arrival check of a tick (line 432) then resets the
    leg once, to the other waypoint [1 - id], starting from the current
    output pose, and leaves the state untouched otherwise; and the whole
    tick returns a state, heading for the other waypoint on the new leg
    if the pose was close and for the same waypoint on the same leg if
    not: the check runs once per tick, so one tick never switches twice.
    The tick returns whenever its quotient of line 435 is not that of a
    time that has not elapsed by a zero duration; this includes the legs
    of zero duration the program starts with, once the clock has moved
    on. *)
Theorem switch_on_arrival (eef_target1 eef_target2 : Pose) (now_reset now : R)
    (s : LocalTarget) :
  (global_target_id_ s = 0 \/ global_target_id_ s = 1)%Z ->
  tf.length2 (orientation (from_ s)) <> 0 -> tf.length2 (orientation (to_ s)) <> 0 ->
  tf.length2 (orientation (pose_ s)) <> 0 ->
  tf.length2 (orientation eef_target1) <> 0 ->
  tf.length2 (orientation eef_target2) <> 0 ->
  0 < linear_vel_ s -> 0 < dquat_rot_vel_ s ->
  let other := (1 - global_target_id_ s)%Z in
  let waypoint := selected eef_target1 eef_target2 other in
  let duration := leg_duration (pose_ s) waypoint (linear_vel_ s) (dquat_rot_vel_ s) in
  (if LocalTargetM.isClose_ s then duration <> 0 \/ now_reset < now
   else expected_duration_ s <> 0 \/ start_time_ s < now) ->
  [/\ LocalTargetM.isClose_ s <-> within_tolerance (pose_ s) (to_ s),
      exists2 s1, LocalTargetM.switch_ eef_target1 eef_target2 now_reset s = Ok s1
        & if LocalTargetM.isClose_ s
          then on_leg s1 other (pose_ s) waypoint now_reset duration
               /\ pose_ s1 = pose_ s
          else s1 = s
    & exists2 s', LocalTargetM.updatePose eef_target1 eef_target2 now_reset now s = Ok s'
        & [/\ global_target_id_ s' = other <-> within_tolerance (pose_ s) (to_ s),
              global_target_id_ s' = global_target_id_ s <->
              ~ within_tolerance (pose_ s) (to_ s)
            & if LocalTargetM.isClose_ s
              then on_leg s' other (pose_ s) waypoint now_reset duration
              else on_leg s' (global_target_id_ s) (from_ s) (to_ s) (start_time_ s)
                     (expected_duration_ s)]].
Proof.
move=> id01 from0 to0 pose0 T1_0 T2_0 lin0 ang0 other waypoint duration.
have other_id : other <> global_target_id_ s by rewrite /other; lia.
have lin_neq0 : linear_vel_ s <> 0 by lra.
have ang_neq0 : dquat_rot_vel_ s <> 0 by lra.
have way0 := @selected_neq0 _ _ other T1_0 T2_0.
have switchE :=
  @switch_leg eef_target1 eef_target2 now_reset s id01 pose0 T1_0 T2_0 lin_neq0 ang_neq0.
rewrite /LocalTargetM.updatePose switchE -/other -/waypoint -/duration.
case: LocalTargetM.isClose_ (isClose_P s) => closeP defined.
- split; first by split=> // _; apply/closeP.
    by eexists.
  rewrite /=; set s1 := {| pose_ := pose_ s |}.
  have [q _ ->] := @interpolate_defined now s1 defined pose0 way0.
  eexists; first by [].
  have close : within_tolerance (pose_ s) (to_ s) by apply/closeP.
  by split=> //=; split.
- split; first by split=> // /closeP.
    by exists s.
  rewrite /=.
  have [q _ ->] := @interpolate_defined now s defined from0 to0.
  eexists; first by [].
  have not_close : ~ within_tolerance (pose_ s) (to_ s) by move/closeP.
  by split=> //=; split=> // idE; case: other_id.
Qed.

(** C9. Whenever [reset_] selects a destination equal to the current
    output pose, it returns a state whose [expected_duration_] is 0, and
    the division [elapsed / expected_duration_] of line 435, which no test
    precedes, is a division by zero in the next update: its quotient is
    no number.  With positive speeds the quotient is a NaN or the negative
    infinity when no time has elapsed, and the output is then not finite;
    it is the positive infinity when time has elapsed, which line 436
    caps, and the output then stays where it is.  The state is reachable:
    a trajectory constructed as in main, with both waypoints equal to the
    initial end-effector pose, has duration 0, and its first [updatePose]
    switches to a leg of duration 0 again and divides by zero. *)
Theorem zero_duration_division (eef_pose : Pose) (linear_vel dquat_rot_vel : R) :
  tf.length2 (orientation eef_pose) <> 0 -> linear_vel <> 0 -> dquat_rot_vel <> 0 ->
  (forall (eef_target1 eef_target2 : Pose) (now_reset now : R) (s : LocalTarget) (id : Z),
     pose_ s = eef_pose -> linear_vel_ s = linear_vel -> dquat_rot_vel_ s = dquat_rot_vel ->
     selected eef_target1 eef_target2 id = eef_pose ->
     exists2 s', LocalTargetM.reset_ eef_target1 eef_target2 now_reset s id = Ok s'
       & [/\ expected_duration_ s' = 0,
             forall x, fquot (now - start_time_ s') (expected_duration_ s') <> Number x,
             0 < linear_vel -> 0 < dquat_rot_vel -> now <= now_reset ->
             LocalTargetM.interpolate_ now s' = NonFinite at_expected_duration
           & 0 < linear_vel -> 0 < dquat_rot_vel -> now_reset < now ->
             LocalTargetM.interpolate_ now s' = Ok s']) /\
  (forall (junk : LocalTarget) (t0 t1 t2 : R),
     exists2 s1, LocalTargetM.new eef_pose eef_pose t0 junk eef_pose
                   linear_vel dquat_rot_vel = Ok s1
       & [/\ expected_duration_ s1 = 0,
             exists2 s2, LocalTargetM.switch_ eef_pose eef_pose t1 s1 = Ok s2
               & expected_duration_ s2 = 0 /\
                 forall x, fquot (t2 - start_time_ s2) (expected_duration_ s2) <> Number x,
             0 < linear_vel -> 0 < dquat_rot_vel -> t2 <= t1 ->
             LocalTargetM.updatePose eef_pose eef_pose t1 t2 s1 =
             NonFinite at_expected_duration
           & 0 < linear_vel -> 0 < dquat_rot_vel -> t1 < t2 ->
             exists2 s2, LocalTargetM.updatePose eef_pose eef_pose t1 t2 s1 = Ok s2
               & [/\ pose_ s2 = eef_pose, global_target_id_ s2 = 0%Z
                   & expected_duration_ s2 = 0]]).
Proof.
move=> eef0 lin0 ang0.
have own_pose eef_target1 eef_target2 now_reset s id :
    pose_ s = eef_pose -> linear_vel_ s = linear_vel ->
    dquat_rot_vel_ s = dquat_rot_vel ->
    selected eef_target1 eef_target2 id = eef_pose ->
    exists2 s', LocalTargetM.reset_ eef_target1 eef_target2 now_reset s id = Ok s'
      & [/\ expected_duration_ s' = 0, start_time_ s' = now_reset,
            global_target_id_ s' = id,
            [/\ pose_ s' = eef_pose, from_ s' = eef_pose & to_ s' = eef_pose]
          & linear_vel_ s' = linear_vel /\ dquat_rot_vel_ s' = dquat_rot_vel].
  move=> poseE linE angE selE.
  rewrite reset_Ok ?selE ?poseE ?linE ?angE //.
  eexists; first by [].
  by split=> //=; exact: leg_duration_same.
have no_number (a : R) (x : R) : fquot a 0 <> Number x.
  by rewrite fquot_zero; case: Rlt_dec => ? //=; case: Rlt_dec => ?.
have stays now (s' : LocalTarget) :
    expected_duration_ s' = 0 ->
    [/\ pose_ s' = eef_pose, from_ s' = eef_pose & to_ s' = eef_pose] ->
    start_time_ s' < now -> LocalTargetM.interpolate_ now s' = Ok s'.
  move=> dur [poseE fromE toE] late.
  have from0 : tf.length2 (orientation (from_ s')) <> 0 by rewrite fromE.
  have to0 : tf.length2 (orientation (to_ s')) <> 0 by rewrite toE.
  have [q] := @interpolate_defined now s' (or_intror late) from0 to0.
  rewrite dur; case: (Req_dec_T 0 0) => [?|//]; rewrite /is_left.
  rewrite lerp_end fromE toE slerp_same // => -[<-] ->.
  have -> : mkPose (position eef_pose) (orientation eef_pose) = pose_ s'.
    by rewrite poseE; case: (eef_pose).
  by case: (s').
split.
  move=> eef_target1 eef_target2 now_reset now s id poseE linE angE selE.
  have [s' -> [dur startE _ poses _]] :=
    own_pose eef_target1 eef_target2 now_reset s id poseE linE angE selE.
  exists s' => //; split=> //.
  - by rewrite dur.
  - by move=> _ _ early; apply: interpolate_zero_duration => //; rewrite startE.
  - by move=> _ _ late; apply: stays => //; rewrite startE.
move=> junk t0 t1 t2; rewrite /LocalTargetM.new.
set s_init := {| pose_ := eef_pose |}.
have sel1 : selected eef_pose eef_pose 1 = eef_pose by [].
have [s1 -> [dur1 _ id1 [pose1 from1 to1] [lin1 ang1]]] :=
  own_pose eef_pose eef_pose t0 s_init 1%Z (erefl _) (erefl _) (erefl _) sel1.
exists s1 => //.
have close1 : LocalTargetM.isClose_ s1.
  by apply/isClose_P; rewrite pose1 to1; apply: within_tolerance_same.
rewrite /LocalTargetM.updatePose /LocalTargetM.switch_ close1.
have sel2 : selected eef_pose eef_pose (Z.rem (global_target_id_ s1 + 1) 2) = eef_pose.
  by rewrite /selected; case: Z.eqb.
have [s2 -> /= [dur2 start2 id2 poses2 _]] :=
  own_pose eef_pose eef_pose t1 s1 _ pose1 lin1 ang1 sel2.
split=> //.
- by exists s2 => //; split=> //; rewrite dur2.
- by move=> _ _ early; apply: interpolate_zero_duration => //; rewrite start2.
- move=> _ _ late; exists s2; first by apply: stays => //; rewrite start2.
  by case: poses2 => -> _ _; split=> //; rewrite id2 id1.
Qed.

End Transitions.

Section Trajectory.

Local Open Scope R_scope.

Lemma rotation_of_neg (q : Quaternion) : rotation_of (tf.q_neg q) = rotation_of q.
Proof.
rewrite /rotation_of length2_neg /=.
by congr (mkMatrix3x3 (mkVector3 _ _ _) (mkVector3 _ _ _) (mkVector3 _ _ _)); ring.
Qed.

Lemma leg_duration_ge0 (S D : Pose) (lin ang : R) :
  0 < lin -> 0 <= leg_duration S D lin ang.
Proof.
move=> lin0; rewrite /leg_duration.
apply: Rle_trans (Rmax_l _ _).
by apply: Rmult_le_pos; [exact: sqrt_pos|left; apply: Rinv_0_lt_compat].
Qed.

Lemma fraction_capped (e duration : R) :
  0 <= e -> 0 <= duration ->
  (if Req_dec_T duration 0 then 1 else capped (e / duration)) = fraction e duration.
Proof.
move=> e0 dur0; rewrite /fraction; case: (Req_dec_T duration 0) => //= dur_neq0.
apply: capped_clamp01; apply: Rmult_le_pos => //.
by left; apply: Rinv_0_lt_compat; lra.
Qed.

(** The interpolation of a tick, on a leg between unit quaternions. *)
Lemma interpolate_fraction (now : R) (s : LocalTarget) :
  tf.length2 (orientation (from_ s)) = 1 -> tf.length2 (orientation (to_ s)) = 1 ->
  0 <= expected_duration_ s -> 0 <= now - start_time_ s ->
  0 < expected_duration_ s \/ 0 < now - start_time_ s ->
  let t := fraction (now - start_time_ s) (expected_duration_ s) in
  exists2 q, LocalTargetM.interpolate_ now s =
             Ok (with_pose s (mkPose (lerp (position (from_ s)) (position (to_ s)) t) q))
    & tf.slerp (orientation (from_ s)) (orientation (to_ s)) t = Ok q /\
      (t = 1 ->
       mkPose (lerp (position (from_ s)) (position (to_ s)) t) q =
       mkPose (position (to_ s))
         (if Rlt_dec (tf.dot (orientation (from_ s)) (orientation (to_ s))) 0
          then tf.q_neg (orientation (to_ s)) else orientation (to_ s))).
Proof.
move=> uS uD dur0 e0 defined t.
have nS : tf.length2 (orientation (from_ s)) <> 0 by rewrite uS; lra.
have nD : tf.length2 (orientation (to_ s)) <> 0 by rewrite uD; lra.
have defined' : expected_duration_ s <> 0 \/ start_time_ s < now.
  by case: defined => [?|?]; [left|right]; lra.
have [q slerp_q ->] := @interpolate_defined now s defined' nS nD.
move: slerp_q; rewrite (fraction_capped e0 dur0) -/t => slerp_q.
exists q => //; split=> // t1.
by move: slerp_q; rewrite t1 slerp_end // lerp_end => -[<-].
Qed.

(** C6. A state with unit quaternions and positive speeds, whose
    duration is the one [reset_] computes for its leg,
    [max (linear_distance / linear_vel_) (geodesic_angle / dquat_rot_vel_)]
    (and [reset_] does return a state on the leg it is asked for, with
    that duration).  A tick interpolates on the leg that its arrival check
    leaves: the leg of the state, from [from_] to [to_], if the output is
    not within the tolerance of the destination, and if it is, a new leg
    from the current output to the other waypoint, which starts at the
    time of the reset.  With [S], [D], the start and the duration of that
    leg, and at an elapsed time [e = now - start >= 0], positive if the
    duration is zero, the tick returns a state on that leg, whose position
    is the linear interpolation of the positions of [S] and [D] at
    [t = clamp (e / duration) 0 1] ([t = 1] if the duration is zero) and
    whose orientation is the spherical interpolation of their
    orientations at [t].  At [t = 1] the position is that of [D] and the
    orientation is the quaternion of [D] if the quaternions of [S] and [D]
    have a non-negative dot product, and its opposite if not: the same
    rotation in both cases, but the same pose only in the first. *)
Theorem updatePose_interpolates (eef_target1 eef_target2 : Pose) (now_reset now : R)
    (s : LocalTarget) :
  let lin := linear_vel_ s in
  let ang := dquat_rot_vel_ s in
  let id := global_target_id_ s in
  (id = 0 \/ id = 1)%Z ->
  tf.length2 (orientation (from_ s)) = 1 -> tf.length2 (orientation (to_ s)) = 1 ->
  tf.length2 (orientation (pose_ s)) = 1 ->
  tf.length2 (orientation eef_target1) = 1 -> tf.length2 (orientation eef_target2) = 1 ->
  0 < lin -> 0 < ang ->
  expected_duration_ s = leg_duration (from_ s) (to_ s) lin ang ->
  let arrived := LocalTargetM.isClose_ s in
  let id' := if arrived then (1 - id)%Z else id in
  let S := if arrived then pose_ s else from_ s in
  let D := if arrived then selected eef_target1 eef_target2 (1 - id) else to_ s in
  let start := if arrived then now_reset else start_time_ s in
  let duration := leg_duration S D lin ang in
  let e := now - start in
  0 <= e -> 0 < duration \/ 0 < e ->
  let t := fraction e duration in
  (forall (id0 : Z) (start0 : R),
     let D0 := selected eef_target1 eef_target2 id0 in
     exists2 s0, LocalTargetM.reset_ eef_target1 eef_target2 start0 s id0 = Ok s0
       & on_leg s0 id0 (pose_ s) D0 start0 (leg_duration (pose_ s) D0 lin ang)) /\
  exists2 s', LocalTargetM.updatePose eef_target1 eef_target2 now_reset now s = Ok s'
    & [/\ on_leg s' id' S D start duration,
          linear_vel_ s' = lin /\ dquat_rot_vel_ s' = ang,
          position (pose_ s') = lerp (position S) (position D) t,
          tf.slerp (orientation S) (orientation D) t = Ok (orientation (pose_ s'))
        & t = 1 ->
          pose_ s' =
          mkPose (position D)
            (if Rlt_dec (tf.dot (orientation S) (orientation D)) 0
             then tf.q_neg (orientation D) else orientation D)].
Proof.
move=> lin ang id id01 uF uT uP u1 u2 lin0 ang0 durE arrived id' S D start duration e.
have nP : tf.length2 (orientation (pose_ s)) <> 0 by rewrite uP; lra.
have n1 : tf.length2 (orientation eef_target1) <> 0 by rewrite u1; lra.
have n2 : tf.length2 (orientation eef_target2) <> 0 by rewrite u2; lra.
have lin_neq0 : linear_vel_ s <> 0 by rewrite -/lin; lra.
have ang_neq0 : dquat_rot_vel_ s <> 0 by rewrite -/ang; lra.
have uW id0 : tf.length2 (orientation (selected eef_target1 eef_target2 id0)) = 1.
  by rewrite /selected; case: Z.eqb.
move=> e0 defined t; split.
  move=> id0 start0 D0.
  rewrite (@reset_Ok eef_target1 eef_target2 start0 s id0 nP
             (@selected_neq0 _ _ id0 n1 n2) lin_neq0 ang_neq0).
  by eexists.
rewrite /LocalTargetM.updatePose.
rewrite (@switch_leg eef_target1 eef_target2 now_reset s id01 nP n1 n2 lin_neq0 ang_neq0).
move: e0 defined; rewrite /t /e /duration /start /D /S /id' /arrived {t e duration start D S id'}.
case: LocalTargetM.isClose_ => e0 defined /=.
- set s1 := {| pose_ := pose_ s |}.
  have dur0 : 0 <= expected_duration_ s1 by apply: leg_duration_ge0.
  have [q -> [slerp_q at_end]] :=
    @interpolate_fraction now s1 uP (uW _) dur0 e0 defined.
  by eexists; first by []; split.
- have dur0 : 0 <= expected_duration_ s by rewrite durE; apply: leg_duration_ge0.
  move: e0 defined; rewrite -durE => e0 defined.
  have [q -> [slerp_q at_end]] := @interpolate_fraction now s uF uT dur0 e0 defined.
  by eexists; first by []; split.
Qed.

(** C10. A leg of positive duration from [S] to [D], with unit
    quaternions of negative dot product (for instance [D] at the rotation
    of [S] with the opposite quaternion): any run of ticks that ends at or
    after the expected duration returns a state that is still heading for
    [D], whose pose has the position of [D] and the opposite of the
    quaternion of [D], hence the rotation of [D], and for which [isClose_]
    is false; and after any further ticks the waypoint is still the same
    and [isClose_] still false: the switch never fires. *)
Theorem opposite_quaternion_never_switches (S D : Pose) (id : Z) (start duration : R)
    (ticks : seq LocalTargetM.tick) (arrival : LocalTargetM.tick) (s : LocalTarget) :
  tf.length2 (orientation S) = 1 -> tf.length2 (orientation D) = 1 ->
  tf.dot (orientation S) (orientation D) < 0 -> 0 < duration ->
  on_leg s id S D start duration -> pose_ s = S ->
  all (fun tk => ~~ fless (LocalTargetM.tick_now tk) start) ticks ->
  duration <= LocalTargetM.tick_now arrival - start ->
  exists2 s', LocalTargetM.run (rcons ticks arrival) s = Ok s'
    & [/\ global_target_id_ s' = id /\ to_ s' = D,
          pose_ s' = mkPose (position D) (tf.q_neg (orientation D)),
          rotation_of (orientation (pose_ s')) = rotation_of (orientation D),
          LocalTargetM.isClose_ s' = false
        & forall later : seq LocalTargetM.tick,
          all (fun tk => ~~ fless (LocalTargetM.tick_now tk) start) later ->
          exists2 s'', LocalTargetM.run later s' = Ok s''
            & global_target_id_ s'' = id /\ LocalTargetM.isClose_ s'' = false].
Proof.
move=> uS uD opp dur0 leg poseE after_start arrived.
have opp_s : tf.dot (orientation (pose_ s)) (orientation D) < 0 by rewrite poseE.
have [s1 run1 [leg1 opp1 _]] := opposite_leg_run uS uD opp dur0 leg opp_s after_start.
have le_now : start <= LocalTargetM.tick_now arrival by lra.
have [s' upd [leg' opp' not_close at_end]] :=
  opposite_leg_step (LocalTargetM.tick_target1 arrival)
    (LocalTargetM.tick_target2 arrival) (LocalTargetM.tick_now_reset arrival)
    uS uD opp dur0 leg1 opp1 le_now.
exists s'; first by rewrite run_rcons run1.
have poseE' := at_end arrived.
split=> //.
- by case: leg'.
- by rewrite poseE' /= rotation_of_neg.
- move=> later after_later.
  have [s'' -> [[idE _ _ _ _] _ not_close'']] :=
    opposite_leg_run uS uD opp dur0 leg' opp' after_later.
  by exists s''.
Qed.

(** C5. Whatever the solver output [d_theta], the loop of lines 658-665
    leaves in each component of the joint step the clamp of the solver's
    component, [dmax] above [dmax], [- dmax] below [- dmax] and the
    component itself in between, so that its absolute value is at most
    [dmax]; and each joint position is the former one plus that clamped
    step.  Neither vector changes its size. *)
Theorem clamp_integrate_bounded (d_theta position : seq R) (i : nat) :
  size d_theta = size position ->
  let stepped := main.clamp_integrate main.dmax (size position) 0 d_theta position in
  [/\ size stepped.1 = size d_theta /\ size stepped.2 = size position,
      nth 0 stepped.1 i = clamped main.dmax (nth 0 d_theta i),
      Rabs (nth 0 stepped.1 i) <= main.dmax
    & nth 0 stepped.2 i = nth 0 position i + clamped main.dmax (nth 0 d_theta i)].
Proof.
move=> same_size stepped.
have dmax0 := dmax_pos.
have [|size1 step_i position_i] :=
  @clamp_integrate_nth main.dmax (size position) 0 d_theta position i.
  by rewrite add0n same_size.
have size2 : size stepped.2 = size position.
  by apply: clamp_integrate_size2; rewrite add0n.
have clamped0 : clamped main.dmax 0 = 0 by rewrite /clamped; case_decisions; lra.
have stepE : nth 0 stepped.1 i = clamped main.dmax (nth 0 d_theta i).
  rewrite step_i add0n /=; case: ltnP => // i_size.
  by rewrite nth_default ?same_size.
split=> //.
- by rewrite stepE; apply: clamped_bound; lra.
- rewrite position_i add0n /=; case: ltnP => // i_size.
  by rewrite !nth_default ?same_size // clamped0 Rplus_0_r.
Qed.

End Trajectory.

Section Logarithm.

Local Open Scope ring_scope.

Variables log_half_turn log_general :
  'M[R]_3 -> 'cV[R]_3 -> R -> result 'cV[R]_(3 + 3).

Lemma norm_neq0 (p : 'cV[R]_3) : p != 0 -> SE3.norm p <> 0%Real.
Proof.
move=> p0 n0; case/eqP: p0; apply/colP => i; rewrite mxE.
have sum0 : \sum_(j < 3) p j ord0 * p j ord0 = 0.
  apply: sqrt_eq_0 => //; exact: sum_squares_ge0.
exact: (sum_squares_eq0 sum0 (mem_index_enum i)).
Qed.

Lemma norm_scale (c : R) (p : 'cV[R]_3) :
  (0 <= c)%Real -> SE3.norm (c *: p) = (c * SE3.norm p)%Real.
Proof.
move=> c0; rewrite /SE3.norm.
have -> : \sum_(i < 3) (c *: p) i ord0 * (c *: p) i ord0 =
          (c * c)%Real * \sum_(i < 3) p i ord0 * p i ord0.
  rewrite GRing.mulr_sumr; apply: eq_bigr => i _; rewrite !mxE !RopsE.
  by over_R; ring.
have cc : (0 <= c * c)%Real by nra.
by rewrite RmultE (sqrt_mult _ _ cc (sum_squares_ge0 _ _)) (sqrt_square _ c0).
Qed.

(** C8. For a transform whose rotation angle
    [acos (clamp ((trace R - 1) / 2) (-1) 1)] is almost equal to 0, the
    logarithm returns a twist whose angular part is zero and whose linear
    part is zero if the translation [p] is zero and [p / ‖p‖] otherwise:
    a unit vector, the direction of [p] without its magnitude. *)
Theorem log_small_angle (T : 'M[R]_(3 + 1)) :
  SE3.almost_equal (SE3.rotation_angle (ulsubmx T)) 0%Real ->
  exists2 twist, SE3.log log_half_turn log_general T = Ok twist
    & [/\ usubmx twist = 0,
          ursubmx T = 0 -> dsubmx twist = 0,
          ursubmx T <> 0 -> dsubmx twist = (/ SE3.norm (ursubmx T))%Real *: ursubmx T
        & ursubmx T <> 0 -> SE3.norm (dsubmx twist) = 1%Real].
Proof.
move=> small; rewrite /SE3.log small.
case: eqP => [p0|/eqP p0].
  exists (col_mx 0 0) => //; rewrite col_mxKu col_mxKd.
  by split=> // /(_ p0).
exists (col_mx 0 ((/ SE3.norm (ursubmx T))%Real *: ursubmx T)) => //.
rewrite col_mxKu col_mxKd; split=> //.
  by move=> p_eq; rewrite p_eq eqxx in p0.
move=> _; have n0 := norm_neq0 p0.
have n_pos : (0 < SE3.norm (ursubmx T))%Real.
  by have := sqrt_pos (\sum_(i < 3) ursubmx T i ord0 * ursubmx T i ord0);
     rewrite -/(SE3.norm _); lra.
rewrite (norm_scale _ (Rlt_le _ _ (Rinv_0_lt_compat _ n_pos))).
by field.
Qed.

End Logarithm.

Section Instances.

Local Open Scope R_scope.

Lemma length2_pose_at (x w : R) : w = 1 \/ w = -1 -> tf.length2 (orientation (pose_at x w)) = 1.
Proof. by rewrite /tf.length2 /=; case=> ->; ring. Qed.

Lemma leg_duration_pose_at (w w' : R) :
  w = 1 \/ w = -1 -> w' = 1 \/ w' = -1 ->
  leg_duration (pose_at 0 w) (pose_at 1 w') 1 1 = 1.
Proof.
move=> w1 w'1; rewrite /leg_duration.
have -> : linear_distance (position (pose_at 1 w')) (position (pose_at 0 w)) = 1.
  rewrite /linear_distance /=.
  have -> : (1 - 0) * (1 - 0) + (0 - 0) * (0 - 0) + (0 - 0) * (0 - 0) = 1 by ring.
  exact: sqrt_1.
have -> : geodesic_angle (orientation (pose_at 0 w)) (orientation (pose_at 1 w')) = 0.
  rewrite /geodesic_angle !length2_pose_at // Rmult_1_l sqrt_1 Rdiv_1_r /tf.dot /=.
  have -> : Rabs (0 * 0 + 0 * 0 + 0 * 0 + w * w') = 1.
    by case: w1 => ->; case: w'1 => ->; rewrite /Rabs; case: Rcase_abs => ?; lra.
  by rewrite acos_1; ring.
by rewrite /Rdiv Rmult_0_l Rinv_1 Rmult_1_l /Rmax; case_decisions; lra.
Qed.

Lemma leg_not_close (duration : R) :
  LocalTargetM.isClose_ (leg_state (pose_at 0 1) (pose_at 1 1) 1 0 duration) = false.
Proof.
apply/negP => /isClose_P [/= close _ _ _]; move: close.
by rewrite /Rabs; case: Rcase_abs => ?; lra.
Qed.

(** C5 on three joints, with steps above, below and within the limit. *)
Lemma clamp_integrate_bounded_witness :
  size [:: 1; -1; 0.001] = size [:: 0; 0; 0] /\
  nth 0 (main.clamp_integrate main.dmax 3 0 [:: 1; -1; 0.001] [:: 0; 0; 0]).1 0 =
    clamped main.dmax 1 /\
  nth 0 (main.clamp_integrate main.dmax 3 0 [:: 1; -1; 0.001] [:: 0; 0; 0]).2 0 =
    0 + clamped main.dmax 1.
Proof.
split; first by [].
have [_ step _ position] :=
  @clamp_integrate_bounded [:: 1; -1; 0.001] [:: 0; 0; 0] 0 (erefl _).
by split.
Defined.

(** C6 on the leg from the origin to the point (1,0,0), both at the
    identity rotation, half a second after its start. *)
Lemma updatePose_interpolates_witness :
  (tf.length2 (orientation (pose_at 0 1)) = 1 /\
   tf.length2 (orientation (pose_at 1 1)) = 1 /\ 0 < 1 /\ 0 <= 1 / 2 - 0) /\
  exists2 s', LocalTargetM.updatePose (pose_at 1 1) (pose_at 1 1) 0 (1 / 2)
                (leg_state (pose_at 0 1) (pose_at 1 1) 1 0
                   (leg_duration (pose_at 0 1) (pose_at 1 1) 1 1)) = Ok s'
    & position (pose_ s') =
      lerp (position (pose_at 0 1)) (position (pose_at 1 1))
        (fraction (1 / 2 - 0) (leg_duration (pose_at 0 1) (pose_at 1 1) 1 1)).
Proof.
have uS : tf.length2 (orientation (pose_at 0 1)) = 1 by apply: length2_pose_at; left.
have uD : tf.length2 (orientation (pose_at 1 1)) = 1 by apply: length2_pose_at; left.
have pos1 : 0 < 1 by lra.
have half : 0 <= 1 / 2 - 0 by lra.
split; first by [].
set s := leg_state _ _ _ _ _.
have id01 : (global_target_id_ s = 0 \/ global_target_id_ s = 1)%Z by right.
have not_close : LocalTargetM.isClose_ s = false by apply: leg_not_close.
have e0 : 0 <= 1 / 2 - (if LocalTargetM.isClose_ s then 0 else start_time_ s).
  by rewrite not_close.
have defined :
    0 < leg_duration (if LocalTargetM.isClose_ s then pose_ s else from_ s)
          (if LocalTargetM.isClose_ s
           then selected (pose_at 1 1) (pose_at 1 1) (1 - global_target_id_ s)
           else to_ s) (linear_vel_ s) (dquat_rot_vel_ s) \/
    0 < 1 / 2 - (if LocalTargetM.isClose_ s then 0 else start_time_ s).
  by right; rewrite not_close /=; lra.
have [_ [s' updated [_ _ positionE _ _]]] :=
  @updatePose_interpolates (pose_at 1 1) (pose_at 1 1) 0 (1 / 2) s
    id01 uS uD uS uD uD pos1 pos1 (erefl _) e0 defined.
by exists s' => //; move: positionE; rewrite not_close.
Defined.

(** A leg of duration 1 whose destination has the opposite quaternion
    of the source: the update at the end of the leg, [t = 1], returns a
    pose that differs from the destination in the sign of the quaternion. *)
Lemma slerp_lands_on_opposite_quaternion :
  exists2 s, LocalTargetM.reset_ (pose_at 1 (-1)) (pose_at 1 (-1)) 0
               (state_at (pose_at 0 1) 1 1) 1 = Ok s
    & [/\ from_ s = pose_at 0 1, to_ s = pose_at 1 (-1), expected_duration_ s = 1
        & exists2 s', LocalTargetM.updatePose (pose_at 1 (-1)) (pose_at 1 (-1)) 0 1 s = Ok s'
            & [/\ to_ s' = pose_at 1 (-1), pose_ s' = pose_at 1 1
                & pose_ s' <> pose_at 1 (-1)]].
Proof.
have uS : tf.length2 (orientation (pose_at 0 1)) = 1 by apply: length2_pose_at; left.
have uD : tf.length2 (orientation (pose_at 1 (-1))) = 1 by apply: length2_pose_at; right.
have opp : tf.dot (orientation (pose_at 0 1)) (orientation (pose_at 1 (-1))) < 0.
  by rewrite /tf.dot /=; lra.
have nS : tf.length2 (orientation (pose_at 0 1)) <> 0 by rewrite uS; lra.
have nD : tf.length2 (orientation (pose_at 1 (-1))) <> 0 by rewrite uD; lra.
have one : 1 <> 0 by lra.
have resetE : LocalTargetM.reset_ (pose_at 1 (-1)) (pose_at 1 (-1)) 0
                (state_at (pose_at 0 1) 1 1) 1 =
              Ok (leg_state (pose_at 0 1) (pose_at 1 (-1)) 1 0 1).
  rewrite (@reset_Ok (pose_at 1 (-1)) (pose_at 1 (-1)) 0 (state_at (pose_at 0 1) 1 1) 1
             nS nD one one) /= /leg_state.
  by rewrite (leg_duration_pose_at (or_introl (erefl 1)) (or_intror (erefl (-1)))).
exists (leg_state (pose_at 0 1) (pose_at 1 (-1)) 1 0 1) => //.
split=> //.
have leg : on_leg (leg_state (pose_at 0 1) (pose_at 1 (-1)) 1 0 1) 1
             (pose_at 0 1) (pose_at 1 (-1)) 0 1 by split.
have dur : 0 < 1 by lra.
have le_now : 0 <= 1 by lra.
have [s' -> [[_ _ toE _ _] _ _ arrived]] :=
  opposite_leg_step (pose_at 1 (-1)) (pose_at 1 (-1)) 0 uS uD opp dur leg opp le_now.
exists s' => //.
have poseE : pose_ s' = pose_at 1 1.
  have le_dur : 1 <= 1 - 0 by lra.
  rewrite (arrived le_dur) /pose_at /tf.q_neg /=.
  by congr (mkPose _ (mkQuaternion _ _ _ _)); lra.
by split=> //; rewrite poseE => -[]; lra.
Qed.

(** C7 in the state the program starts in, with both waypoints at the
    pose of the trajectory: the tick switches, on a leg of zero duration. *)
Lemma switch_on_arrival_witness :
  ((global_target_id_ (state_at (pose_at 0 1) 1 1) = 0 \/
    global_target_id_ (state_at (pose_at 0 1) 1 1) = 1)%Z /\
   tf.length2 (orientation (pose_at 0 1)) <> 0 /\ 0 < 1 /\ 5 < 6) /\
  exists2 s', LocalTargetM.updatePose (pose_at 0 1) (pose_at 0 1) 5 6
                (state_at (pose_at 0 1) 1 1) = Ok s'
    & global_target_id_ s' = 1%Z /\ start_time_ s' = 5.
Proof.
set s := state_at _ _ _.
have id01 : (global_target_id_ s = 0 \/ global_target_id_ s = 1)%Z by left.
have nS : tf.length2 (orientation (pose_at 0 1)) <> 0.
  by rewrite (length2_pose_at _ (or_introl (erefl 1))); lra.
have pos1 : 0 < 1 by lra.
have later : 5 < 6 by lra.
split; first by [].
have close : LocalTargetM.isClose_ s.
  by apply/isClose_P; apply: within_tolerance_same.
have defined :
    if LocalTargetM.isClose_ s
    then leg_duration (pose_ s)
           (selected (pose_at 0 1) (pose_at 0 1) (1 - global_target_id_ s))
           (linear_vel_ s) (dquat_rot_vel_ s) <> 0 \/ 5 < 6
    else expected_duration_ s <> 0 \/ start_time_ s < 6.
  by rewrite close; right.
have [_ _ [s' updated [_ _]]] :=
  @switch_on_arrival (pose_at 0 1) (pose_at 0 1) 5 6 s
    id01 nS nS nS nS nS pos1 pos1 defined.
by rewrite close => -[idE _ _ startE _]; exists s'.
Defined.

(** C9 with both waypoints at the origin, where the trajectory starts. *)
Lemma zero_duration_division_witness :
  (tf.length2 (orientation (pose_at 0 1)) <> 0 /\ 1 <> 0) /\
  exists2 s1, LocalTargetM.new (pose_at 0 1) (pose_at 0 1) 0 (state_at (pose_at 0 1) 1 1)
                (pose_at 0 1) 1 1 = Ok s1
    & expected_duration_ s1 = 0 /\
      LocalTargetM.updatePose (pose_at 0 1) (pose_at 0 1) 0 0 s1 =
      NonFinite at_expected_duration.
Proof.
have nS : tf.length2 (orientation (pose_at 0 1)) <> 0.
  by rewrite (length2_pose_at _ (or_introl (erefl 1))); lra.
have one : 1 <> 0 by lra.
have pos1 : 0 < 1 by lra.
have same : 0 <= 0 by lra.
split; first by [].
have [s1 built [duration _ not_finite _]] :=
  proj2 (@zero_duration_division (pose_at 0 1) 1 1 nS one one)
    (state_at (pose_at 0 1) 1 1) 0 0 0.
by exists s1 => //; split=> //; apply: not_finite.
Defined.

(** C10 on a leg to the point (1,0,0) with the quaternion (0,0,0,-1),
    ticked at half of the duration and at twice the duration. *)
Lemma opposite_quaternion_never_switches_witness :
  (tf.dot (orientation (pose_at 0 1)) (orientation (pose_at 1 (-1))) < 0 /\
   on_leg (leg_state (pose_at 0 1) (pose_at 1 (-1)) 1 0 1) 1
     (pose_at 0 1) (pose_at 1 (-1)) 0 1) /\
  exists2 s', LocalTargetM.run
                (rcons [:: LocalTargetM.mkTick (pose_at 0 1) (pose_at 1 (-1)) 0 (1 / 2)]
                   (LocalTargetM.mkTick (pose_at 0 1) (pose_at 1 (-1)) 0 2))
                (leg_state (pose_at 0 1) (pose_at 1 (-1)) 1 0 1) = Ok s'
    & pose_ s' = mkPose (position (pose_at 1 (-1)))
                   (tf.q_neg (orientation (pose_at 1 (-1)))) /\
      LocalTargetM.isClose_ s' = false.
Proof.
have uS : tf.length2 (orientation (pose_at 0 1)) = 1 by apply: length2_pose_at; left.
have uD : tf.length2 (orientation (pose_at 1 (-1))) = 1 by apply: length2_pose_at; right.
have opp : tf.dot (orientation (pose_at 0 1)) (orientation (pose_at 1 (-1))) < 0.
  by rewrite /tf.dot /=; lra.
have dur : 0 < 1 by lra.
have leg : on_leg (leg_state (pose_at 0 1) (pose_at 1 (-1)) 1 0 1) 1
             (pose_at 0 1) (pose_at 1 (-1)) 0 1 by split.
have after : all (fun tk => ~~ fless (LocalTargetM.tick_now tk) 0)
               [:: LocalTargetM.mkTick (pose_at 0 1) (pose_at 1 (-1)) 0 (1 / 2)].
  by rewrite /= /fless; case_decisions => //; lra.
have arrived : 1 <= LocalTargetM.tick_now
                      (LocalTargetM.mkTick (pose_at 0 1) (pose_at 1 (-1)) 0 2) - 0.
  by rewrite /=; lra.
split; first by [].
have [s' ran [_ poseE _ not_close _]] :=
  @opposite_quaternion_never_switches _ _ _ _ _ _ _ _ uS uD opp dur leg (erefl _)
    after arrived.
by exists s'.
Defined.

End Instances.

Section LogarithmInstance.

Local Open Scope ring_scope.

Lemma rotation_angle_identity : SE3.rotation_angle (ulsubmx (1%:M : 'M[R]_(3 + 1))) = 0%Real.
Proof.
rewrite (scalar_mx_block 3 1) block_mxKul /SE3.rotation_angle mxtrace1.
have -> : (3%:R : R) = 3%Real.
  by rewrite !GRing.mulrS GRing.mulr0n !RopsE; over_R; lra.
have -> : ((3 - 1) / 2 = 1)%Real by lra.
by case_decisions; rewrite ?acos_1 //; lra.
Qed.

Lemma almost_equal_refl (x : R) : SE3.almost_equal x x.
Proof.
rewrite /SE3.almost_equal Rminus_diag Rabs_R0; apply/orP; left; apply/negP.
move/flessP; have := Rabs_pos (x + x)%Real.
have : (0 < / 2 ^ 52)%Real by apply: Rinv_0_lt_compat; apply: pow_lt; lra.
by nra.
Qed.

(** C8 at the identity transform. *)
Lemma log_small_angle_witness :
  SE3.almost_equal (SE3.rotation_angle (ulsubmx (1%:M : 'M[R]_(3 + 1)))) 0%Real /\
  exists twist, SE3.log (fun _ _ _ => Ok 0) (fun _ _ _ => Ok 0) (1%:M : 'M[R]_(3 + 1))
                = Ok twist.
Proof.
have small : SE3.almost_equal
               (SE3.rotation_angle (ulsubmx (1%:M : 'M[R]_(3 + 1)))) 0%Real.
  by rewrite rotation_angle_identity; apply: almost_equal_refl.
split; first by [].
have [twist logE _] :=
  @log_small_angle (fun _ _ _ => Ok 0) (fun _ _ _ => Ok 0) (1%:M : 'M[R]_(3 + 1)) small.
by exists twist.
Defined.

End LogarithmInstance.

(** ** Further properties of the pseudo-inverses *)

Section DampedLeastSquares.

Local Open Scope ring_scope.

Lemma push_through (m n : nat) (J : 'M[R]_(m, n)) (c : R) :
  J^T *m (J *m J^T + c *: 1%:M) = (J^T *m J + c *: 1%:M) *m J^T.
Proof.
by rewrite mulmxDr mulmxDl !mulmxA -scalemxAr -scalemxAl mulmx1 mul1mx.
Qed.

Lemma damped_cogram_unit (m n : nat) (J : 'M[R]_(m, n)) (c : R) :
  Rlt R0 c -> J *m J^T + c *: 1%:M \in unitmx.
Proof. by move=> c0; rewrite -{1}(trmxK J); exact: damped_gram_unit. Qed.

Lemma damped_forms_agree (m n : nat) (J : 'M[R]_(m, n)) (c : R) :
  Rlt R0 c ->
  invmx (J^T *m J + c *: 1%:M) *m J^T = J^T *m invmx (J *m J^T + c *: 1%:M).
Proof.
move=> c0.
have uA := damped_gram_unit J c0.
have uB := damped_cogram_unit J c0.
have h := push_through J c; move: uA uB h.
set A := J^T *m J + _; set B := J *m J^T + _ => uA uB h.
by rewrite -[LHS](mulmxK uB) -(mulmxA (invmx A)) h (mulKmx uA).
Qed.

Lemma without_SVD_damped (m n : nat) (J : 'M[R]_(m, n)) (eps lambda : R) :
  lambda <> 0%Real ->
  kinematics.calculateDampedPseudoInverse_without_SVD J eps lambda =
  Ok (invmx (J^T *m J + (lambda * lambda) *: 1%:M) *m J^T).
Proof.
move=> /lambda2_pos c0.
case: (leqP n m) => nm.
  by rewrite without_SVD_tall // (inverse_NonFinite _ (damped_gram_unit J c0)).
rewrite without_SVD_fat // (inverse_NonFinite _ (damped_cogram_unit J c0)) /=.
by rewrite damped_forms_agree.
Qed.

(** X1. With a non-zero damping the two branches of the
    normal-equations strategy compute the same matrix: both damped Gram
    matrices are invertible and [(JᵗJ + λ²I)⁻¹Jᵗ = Jᵗ(JJᵗ + λ²I)⁻¹], so the
    result does not depend on which of the two the shape of the Jacobian
    selects. *)
Theorem without_SVD_forms_agree (m n : nat) (J : 'M[R]_(m, n)) (eps lambda : R) :
  lambda <> 0%Real ->
  exists X Y,
    [/\ inverse_of (J^T *m J + (lambda * lambda) *: 1%:M) X,
        inverse_of (J *m J^T + (lambda * lambda) *: 1%:M) Y,
        kinematics.calculateDampedPseudoInverse_without_SVD J eps lambda = Ok (X *m J^T)
      & X *m J^T = J^T *m Y].
Proof.
move=> l0; have c0 := lambda2_pos l0.
exists (invmx (J^T *m J + (lambda * lambda) *: 1%:M)).
exists (invmx (J *m J^T + (lambda * lambda) *: 1%:M)).
have uA := damped_gram_unit J c0.
have uB := damped_cogram_unit J c0.
split.
- by split; rewrite ?mulmxV ?mulVmx.
- by split; rewrite ?mulmxV ?mulVmx.
- exact: without_SVD_damped.
- exact: damped_forms_agree.
Qed.

End DampedLeastSquares.

Section Optimality.

Local Open Scope ring_scope.
Import GRing.Theory.

Lemma sqnorm_ge0 (k : nat) (v : 'cV[R]_k) : Rle R0 (sqnorm v).
Proof. exact: sum_squares_ge0. Qed.

Lemma sqnorm_eq0 (k : nat) (v : 'cV[R]_k) : sqnorm v = 0 -> v = 0.
Proof.
move=> v0; apply/colP => i; rewrite mxE.
exact: (sum_squares_eq0 v0 (mem_index_enum i)).
Qed.

Lemma sqnormD (k : nat) (u v : 'cV[R]_k) :
  sqnorm (u + v) = sqnorm u + sqnorm v + ((u^T *m v) ord0 ord0 *+ 2).
Proof.
rewrite /sqnorm [in RHS]mxE -sumrMnl -!big_split /=.
apply: eq_bigr => i _; rewrite !mxE !RopsE mulr2n !RopsE.
by over_R; ring.
Qed.

Lemma damped_cost_shift (m n : nat) (J : 'M[R]_(m, n)) (lambda : R)
    (b : 'cV[R]_m) (xs d : 'cV[R]_n) :
  (J^T *m J + (lambda * lambda) *: 1%:M) *m xs = J^T *m b ->
  damped_cost J lambda b (xs + d) =
  damped_cost J lambda b xs + (sqnorm (J *m d) + (lambda * lambda) * sqnorm d).
Proof.
set c := lambda * lambda => normal.
have cross : ((J *m xs - b)^T *m (J *m d)) ord0 ord0 + c * (xs^T *m d) ord0 ord0 = 0.
  have -> : ((J *m xs - b)^T *m (J *m d)) ord0 ord0 + c * (xs^T *m d) ord0 ord0 =
            ((J^T *m (J *m xs - b) + c *: xs)^T *m d) ord0 ord0.
    set r := J *m xs - b.
    rewrite [(_ + _)^T]linearD /= trmx_mul trmxK [(c *: _)^T]linearZ /=.
    by rewrite mulmxDl mulmxA -scalemxAl !mxE.
  have -> : J^T *m (J *m xs - b) + c *: xs = 0.
    rewrite mulmxBr mulmxA -normal mulmxDl -scalemxAl mul1mx.
    by rewrite opprD addrA subrr sub0r addNr.
  by rewrite trmx0 mul0mx mxE.
rewrite /damped_cost -/c.
have -> : J *m (xs + d) - b = (J *m xs - b) + J *m d.
  by rewrite mulmxDr addrAC.
rewrite (sqnormD (J *m xs - b)) (sqnormD xs) !mulr2n.
move: cross.
move: (sqnorm (J *m xs - b)) (sqnorm (J *m d)) (sqnorm xs) (sqnorm d) => s1 s2 s3 s4.
move: (((J *m xs - b)^T *m (J *m d)) ord0 ord0) ((xs^T *m d) ord0 ord0) => X Y.
rewrite /c !RopsE => cross.
have cross' : (X + lambda * lambda * Y = 0)%Real := cross.
have -> : X = (- (lambda * lambda * Y))%Real by over_R; lra.
by over_R; ring.
Qed.

(** X2. With a non-zero damping, the step [P b] that the
    normal-equations strategy gives for a twist [b] is the one and only
    minimizer of the damped least-squares cost [‖J x - b‖² + λ²‖x‖²]. *)
Theorem without_SVD_minimizes_damped_cost (m n : nat) (J : 'M[R]_(m, n))
    (eps lambda : R) (b : 'cV[R]_m) :
  lambda <> 0%Real ->
  exists2 P, kinematics.calculateDampedPseudoInverse_without_SVD J eps lambda = Ok P
    & forall x : 'cV[R]_n,
        Rle (damped_cost J lambda b (P *m b)) (damped_cost J lambda b x) /\
        (damped_cost J lambda b x = damped_cost J lambda b (P *m b) -> x = P *m b).
Proof.
move=> l0; have c0 := lambda2_pos l0.
rewrite (without_SVD_damped J eps l0); eexists; first by [].
move=> x; set xs := _ *m b.
have normal : (J^T *m J + (lambda * lambda) *: 1%:M) *m xs = J^T *m b.
  by rewrite /xs !mulmxA (mulmxV (damped_gram_unit J c0)) mul1mx.
have shift := @damped_cost_shift _ _ J lambda b xs (x - xs) normal.
rewrite [xs + _]addrC subrK in shift; rewrite shift.
have s1_ge0 := sqnorm_ge0 (J *m (x - xs)); have s2_ge0 := sqnorm_ge0 (x - xs).
have zero := @sqnorm_eq0 _ (x - xs).
move: zero s1_ge0 s2_ge0 c0.
move: (sqnorm (J *m (x - xs))) (sqnorm (x - xs)) (damped_cost J lambda b xs).
move=> s1 s2 k zero s1_ge0 s2_ge0 c0; rewrite !RopsE.
have k_le : (k <= k + (s1 + lambda * lambda * s2))%Real by nra.
split=> // same; apply/subr0_eq/zero.
have same' : (k + (s1 + lambda * lambda * s2) = k)%Real := same.
by rewrite R0E; over_R; nra.
Qed.

End Optimality.

Section Undamped.

Local Open Scope ring_scope.
Import GRing.Theory.

(** The Gram matrix of [J] is invertible exactly when the columns of
    [J] are independent. *)
Lemma gram_unit_rank (m n : nat) (J : 'M[R]_(m, n)) :
  (J^T *m J \in unitmx) = (\rank J == n).
Proof.
apply/idP/eqP => [unitG|full].
  apply/eqP; rewrite eqn_leq rank_leq_col /=.
  by rewrite -{1}(mxrank_unit unitG) mxrankM_maxr.
rewrite -row_free_unit -kermx_eq0; apply/rowV0P => v /sub_kermxP vK.
have : (v *m (J^T *m J) *m v^T) ord0 ord0 = 0 by rewrite vK mul0mx mxE.
rewrite mulmxA -(mulmxA (v *m J^T)) -{2}(trmxK J) -trmx_mul mulmx_tr_row.
set w := v *m J^T => w0.
have vJ : w = 0.
  apply/rowP => j; rewrite [RHS]mxE.
  exact: (@sum_squares_eq0 _ (index_enum 'I_m) (fun j => w ord0 j) w0 j
            (mem_index_enum j)).
have free : row_free J^T by rewrite /row_free mxrank_tr full.
by move: free; rewrite -kermx_eq0 => /eqP ker0; move/sub_kermxP: vJ; rewrite ker0 => /submx0null.
Qed.

Lemma scale0_identity (n : nat) (A : 'M[R]_n) : A + (0 * 0) *: 1%:M = A.
Proof. by rewrite mul0r scale0r addr0. Qed.

(** X3. Without damping ([λ = 0]) the normal-equations strategy
    inverts the plain Gram matrix: on a Jacobian of full rank it returns
    an exact left inverse ([P J = I], rows >= columns) or right inverse
    ([J P = I], rows < columns), and on a rank-deficient Jacobian the
    inverse of line 300 or 310 is that of a singular matrix. *)
Theorem without_SVD_undamped (m n : nat) (J : 'M[R]_(m, n)) (eps : R) :
  if (n <= m)%N then
    if \rank J == n
    then exists2 P, kinematics.calculateDampedPseudoInverse_without_SVD J eps 0 = Ok P
                  & P *m J = 1%:M
    else kinematics.calculateDampedPseudoInverse_without_SVD J eps 0 =
         NonFinite at_lhs_inverse
  else
    if \rank J == m
    then exists2 P, kinematics.calculateDampedPseudoInverse_without_SVD J eps 0 = Ok P
                  & J *m P = 1%:M
    else kinematics.calculateDampedPseudoInverse_without_SVD J eps 0 =
         NonFinite at_rhs_inverse.
Proof.
case: (leqP n m) => nm.
  rewrite without_SVD_tall // scale0_identity /kinematics.inverse -gram_unit_rank.
  case unitG: (J^T *m J \in unitmx) => //=.
  by exists (invmx (J^T *m J) *m J^T) => //; rewrite -mulmxA mulVmx.
rewrite without_SVD_fat // scale0_identity /kinematics.inverse.
have <- : (J *m J^T \in unitmx) = (\rank J == m).
  by rewrite -{1}(trmxK J) gram_unit_rank mxrank_tr.
case unitG: (J *m J^T \in unitmx) => //=.
by exists (J^T *m invmx (J *m J^T)) => //; rewrite mulmxA mulmxV.
Qed.

End Undamped.

Section StrategiesAgree.

Local Open Scope ring_scope.
Import GRing.Theory.

Variable svd_of : forall m n : nat, 'M[R]_(m, n) -> kinematics.JacobiSVD m n.

(** The damped normal equations determine the pseudo-inverse. *)
Lemma damped_solution_unique (m n : nat) (J : 'M[R]_(m, n)) (c : R) (P : 'M[R]_(n, m)) :
  Rlt R0 c -> (J^T *m J + c *: 1%:M) *m P = J^T ->
  P = invmx (J^T *m J + c *: 1%:M) *m J^T.
Proof. by move=> c0 eqP; apply: (canRL (mulKmx (damped_gram_unit J c0))). Qed.

Lemma svd_transpose (m n : nat) (J : 'M[R]_(m, n)) :
  is_svd J (svd_of J) ->
  J^T = kinematics.matrixV (svd_of J)
        *m diag_mx (kinematics.singularValues (svd_of J))^T
        *m (kinematics.matrixU (svd_of J))^T.
Proof. by case=> eqJ _ _ _; rewrite {1}eqJ !trmx_mul trmxK tr_diag_mx mulmxA. Qed.

Lemma diag_mx_sandwich (k m n p : nat) (U : 'M[R]_(m, k)) (V : 'M[R]_(n, k))
    (a b : 'rV[R]_k) (W : 'M[R]_(p, k)) :
  W^T *m W = 1%:M ->
  (V *m diag_mx a *m W^T) *m (W *m diag_mx b *m U^T) =
  V *m diag_mx (\row_j (a ord0 j * b ord0 j)) *m U^T.
Proof.
move=> WW; rewrite !mulmxA -(mulmxA (V *m diag_mx a)) WW mulmx1.
by rewrite -(mulmxA V) mulmx_diag.
Qed.

Lemma svd_gram (m n : nat) (J : 'M[R]_(m, n)) :
  is_svd J (svd_of J) ->
  J^T *m J =
  kinematics.matrixV (svd_of J)
  *m diag_mx (\row_j (kinematics.singularValues (svd_of J) j ord0 *
                      kinematics.singularValues (svd_of J) j ord0))
  *m (kinematics.matrixV (svd_of J))^T.
Proof.
move=> svd; have JtE := svd_transpose svd; case: svd => JE UU _ _.
set U := kinematics.matrixU _ in JE JtE UU *.
set V := kinematics.matrixV _ in JE JtE *.
set Sv := kinematics.singularValues _ in JE JtE *.
have -> : J^T *m J = (V *m diag_mx Sv^T *m U^T) *m (U *m diag_mx Sv^T *m V^T).
  by rewrite -JE -JtE.
rewrite (diag_mx_sandwich _ _ _ _ UU); congr (_ *m diag_mx _ *m _).
by apply/rowP => j; rewrite !mxE.
Qed.

(** X4. When no singular value of [J = U Σ Vᵗ] exceeds the threshold
    [ε] in absolute value and the damping is not zero, the SVD strategy
    returns the very matrix of the normal-equations strategy. *)
Theorem strategies_agree_below_threshold (m n : nat) (J : 'M[R]_(m, n))
    (eps lambda : R) :
  is_svd J (svd_of J) -> lambda <> 0%Real ->
  (forall i, Rle (Rabs (kinematics.singularValues (svd_of J) i ord0)) eps) ->
  exists2 P, kinematics.calculateDampedPseudoInverse_with_SVD svd_of J eps lambda = Ok P
           & kinematics.calculateDampedPseudoInverse_without_SVD J eps lambda = Ok P.
Proof.
move=> svd l0 small; have c0 := lambda2_pos l0.
have JtE := svd_transpose svd; have gram := svd_gram svd; case: svd => _ _ VV _.
move: small JtE gram VV.
set U := kinematics.matrixU _; set V := kinematics.matrixV _.
set Sv := kinematics.singularValues _ => small JtE gram VV.
pose r := \row_i filtered_reciprocal eps lambda (Sv i ord0).
have rE i : filtered_reciprocal eps lambda (Sv i ord0) =
              Rdiv (Sv i ord0) (Rplus (Rmult (Sv i ord0) (Sv i ord0))
                                      (Rmult lambda lambda)).
  rewrite /filtered_reciprocal; case: Rlt_dec => big //=.
  by have := small i; lra.
exists (V *m diag_mx r *m U^T).
  apply/with_SVD_Ok; split=> // i; rewrite -/Sv /filter_divisor.
  case: Rlt_dec => big /=; first by have := small i; lra.
  by move: c0; rewrite ?RopsE; nra.
rewrite (without_SVD_damped J eps l0); congr Ok.
apply/esym; apply: damped_solution_unique => //.
rewrite mulmxDl -scalemxAl mul1mx gram (diag_mx_sandwich _ _ _ _ VV).
rewrite scalemxAl scalemxAr -mulmxDl -mulmxDr -linearZ /= -linearD /= JtE.
congr (_ *m diag_mx _ *m _); apply/rowP => j; rewrite !mxE rE.
move: (Sv j ord0) => s; rewrite !RopsE.
have d0 : (s * s + lambda * lambda)%Real <> 0%Real.
  by move: c0; rewrite ?RopsE; nra.
by over_R; field.
Qed.

End StrategiesAgree.

Section ReciprocalBound.

Local Open Scope R_scope.

Lemma Rabs_sqr (x : R) : Rabs x * Rabs x = x * x.
Proof. by rewrite /Rabs; case: Rcase_abs => _; ring. Qed.

(** The reciprocal of a singular value is bounded whatever the
    singular value: by [1/ε] on the exact branch, by [1/(2|λ|)] on the
    damped one. *)
Lemma filtered_reciprocal_bound (eps lambda s : R) :
  0 < eps -> lambda <> 0 ->
  Rabs (filtered_reciprocal eps lambda s) <= Rmax (/ eps) (/ (2 * Rabs lambda)).
Proof.
move=> eps0 l0; rewrite /filtered_reciprocal; case: Rlt_dec => big /=.
  apply: Rle_trans (Rmax_l _ _).
  rewrite /Rdiv Rmult_1_l Rabs_inv; left; apply: Rinv_lt_contravar => //.
  by apply: Rmult_lt_0_compat; lra.
apply: Rle_trans (Rmax_r _ _).
have b0 : 0 < Rabs lambda by apply: Rabs_pos_lt.
have a0 := Rabs_pos s.
have d0 : 0 < s * s + lambda * lambda by have := lambda2_pos l0; nra.
have amgm : 2 * Rabs lambda * Rabs s <= s * s + lambda * lambda.
  rewrite -(Rabs_sqr s) -(Rabs_sqr lambda).
  by have := Rle_0_sqr (Rabs s - Rabs lambda); rewrite /Rsqr; lra.
rewrite /Rdiv Rabs_mult Rabs_inv (Rabs_pos_eq _ (Rlt_le _ _ d0)).
apply: (Rmult_le_reg_r (2 * Rabs lambda * (s * s + lambda * lambda))).
  by apply: Rmult_lt_0_compat; lra.
have -> : Rabs s * / (s * s + lambda * lambda) *
          (2 * Rabs lambda * (s * s + lambda * lambda)) = 2 * Rabs lambda * Rabs s.
  by field; lra.
have -> : / (2 * Rabs lambda) * (2 * Rabs lambda * (s * s + lambda * lambda)) =
          s * s + lambda * lambda.
  by field; lra.
exact: amgm.
Qed.

Lemma filter_divisor_nonzero (eps lambda s : R) :
  0 <= eps -> lambda <> 0 -> filter_divisor eps lambda s <> 0.
Proof.
move=> eps0 l0; rewrite /filter_divisor; case: Rlt_dec => big /=.
  by move=> s0; rewrite s0 Rabs_R0 in big; lra.
by have := lambda2_pos l0; nra.
Qed.

(** On a singular value that is zero or above the threshold, the
    filtered reciprocal is the reciprocal of the pseudo-inverse. *)
Lemma filtered_reciprocal_exact (eps lambda s : R) :
  0 <= eps -> lambda <> 0 -> eps < Rabs s \/ s = 0 ->
  s * filtered_reciprocal eps lambda s * s = s /\
  filtered_reciprocal eps lambda s * s * filtered_reciprocal eps lambda s =
  filtered_reciprocal eps lambda s.
Proof.
move=> eps0 l0 exact; rewrite /filtered_reciprocal; case: Rlt_dec => big /=.
  have s0 : s <> 0 by move=> s0; rewrite s0 Rabs_R0 in big; lra.
  by split; field.
have s0 : s = 0 by case: exact.
have d0 := lambda2_pos l0.
by rewrite s0; split; field; lra.
Qed.

End ReciprocalBound.

Section PseudoInverseOfSVD.

Local Open Scope ring_scope.
Import GRing.Theory.

Variable svd_of : forall m n : nat, 'M[R]_(m, n) -> kinematics.JacobiSVD m n.

(** X6. With a positive threshold and a non-zero damping the SVD
    strategy returns [V diag(r) Uᵗ] where every reciprocal [r_i] is at
    most [max (1/ε) (1/(2|λ|))] in absolute value, however small the
    singular values are. *)
Theorem with_SVD_gain_bounded (m n : nat) (J : 'M[R]_(m, n)) (eps lambda : R) :
  Rlt R0 eps -> lambda <> 0%Real ->
  exists2 r : 'rV[R]_(minn m n),
    kinematics.calculateDampedPseudoInverse_with_SVD svd_of J eps lambda =
    Ok (kinematics.matrixV (svd_of J) *m diag_mx r *m (kinematics.matrixU (svd_of J))^T)
    & forall i, Rle (Rabs (r ord0 i)) (Rmax (/ eps) (/ (2 * Rabs lambda)))%Real.
Proof.
move=> eps0 l0.
exists (\row_i filtered_reciprocal eps lambda
                 (kinematics.singularValues (svd_of J) i ord0)).
  by apply/with_SVD_Ok; split=> // i; apply: filter_divisor_nonzero => //; lra.
by move=> i; rewrite mxE; apply: filtered_reciprocal_bound.
Qed.

Lemma diag_mx_conjugate_sym (k m : nat) (U : 'M[R]_(m, k)) (a : 'rV[R]_k) :
  (U *m diag_mx a *m U^T)^T = U *m diag_mx a *m U^T.
Proof. by rewrite !trmx_mul trmxK tr_diag_mx mulmxA. Qed.

(** X5. When every singular value of [J = U Σ Vᵗ] is either zero or
    above a threshold [ε >= 0], and the damping is not zero, the SVD
    strategy returns the Moore-Penrose pseudo-inverse of [J]:
    [J P J = J], [P J P = P], and [J P] and [P J] are symmetric. *)
Theorem with_SVD_moore_penrose (m n : nat) (J : 'M[R]_(m, n)) (eps lambda : R) :
  is_svd J (svd_of J) -> Rle R0 eps -> lambda <> 0%Real ->
  (forall i, Rlt eps (Rabs (kinematics.singularValues (svd_of J) i ord0)) \/
             kinematics.singularValues (svd_of J) i ord0 = 0%Real) ->
  exists2 P, kinematics.calculateDampedPseudoInverse_with_SVD svd_of J eps lambda = Ok P
    & [/\ J *m P *m J = J, P *m J *m P = P, (J *m P)^T = J *m P & (P *m J)^T = P *m J].
Proof.
move=> svd eps0 l0 exact; have JtE := svd_transpose svd; case: svd => JE UU VV _.
move: exact JE JtE UU VV.
set U := kinematics.matrixU _; set V := kinematics.matrixV _.
set Sv := kinematics.singularValues _ => exact JE JtE UU VV.
pose r := \row_i filtered_reciprocal eps lambda (Sv i ord0).
exists (V *m diag_mx r *m U^T).
  by apply/with_SVD_Ok; split=> // i; apply: filter_divisor_nonzero.
have JP : J *m (V *m diag_mx r *m U^T) =
          U *m diag_mx (\row_j (Sv^T ord0 j * r ord0 j)) *m U^T.
  by rewrite [X in X *m _]JE (diag_mx_sandwich _ _ _ _ VV).
have PJ : (V *m diag_mx r *m U^T) *m J =
          V *m diag_mx (\row_j (r ord0 j * Sv^T ord0 j)) *m V^T.
  by rewrite [X in _ *m X]JE (diag_mx_sandwich _ _ _ _ UU).
split.
- rewrite JP [X in _ *m X = _]JE (diag_mx_sandwich _ _ _ _ UU) [RHS]JE.
  congr (_ *m diag_mx _ *m _); apply/rowP => j; rewrite !mxE.
  by have [eq1 _] := filtered_reciprocal_exact eps0 l0 (exact j).
- rewrite PJ (diag_mx_sandwich _ _ _ _ VV).
  congr (_ *m diag_mx _ *m _); apply/rowP => j; rewrite !mxE.
  by have [_ eq2] := filtered_reciprocal_exact eps0 l0 (exact j).
- by rewrite JP diag_mx_conjugate_sym.
- by rewrite PJ diag_mx_conjugate_sym.
Qed.

End PseudoInverseOfSVD.

Section MatrixInstances.

Local Open Scope ring_scope.
Import GRing.Theory.

(** X1 on the zero Jacobian of a seven-joint arm. *)
Lemma without_SVD_forms_agree_witness :
  (1 <> 0)%Real /\
  exists X : 'M[R]_7,
    kinematics.calculateDampedPseudoInverse_without_SVD (0 : 'M[R]_(6, 7)) 1%Real 1%Real =
    Ok (X *m (0 : 'M[R]_(6, 7))^T).
Proof.
have one : (1 <> 0)%Real by lra.
split; first by [].
have [X [Y [_ _ computed _]]] := without_SVD_forms_agree (0 : 'M[R]_(6, 7)) 1%Real one.
by exists X.
Defined.

(** X2 on the zero Jacobian of a seven-joint arm. *)
Lemma without_SVD_minimizes_damped_cost_witness :
  (1 <> 0)%Real /\
  exists P : 'M[R]_(7, 6),
    kinematics.calculateDampedPseudoInverse_without_SVD (0 : 'M[R]_(6, 7)) 1%Real 1%Real =
    Ok P.
Proof.
have one : (1 <> 0)%Real by lra.
split; first by [].
have [P computed _] :=
  without_SVD_minimizes_damped_cost (0 : 'M[R]_(6, 7)) 1%Real (0 : 'cV[R]_6) one.
by exists P.
Defined.

Lemma scalar_svd_values (sigma : R) (m n : nat) (J : 'M[R]_(m, n)) i :
  kinematics.singularValues (scalar_svd sigma J) i ord0 = sigma.
Proof. by rewrite /scalar_svd /= mxE. Qed.

(** X4 on the 1 x 1 Jacobian [0], below the threshold 1. *)
Lemma strategies_agree_below_threshold_witness :
  (is_svd (0%Real%:M : 'M[R]_1) (scalar_svd 0%Real (0%Real%:M : 'M[R]_1)) /\
   (1 <> 0)%Real) /\
  exists2 P, kinematics.calculateDampedPseudoInverse_with_SVD (scalar_svd 0%Real)
               (0%Real%:M : 'M[R]_1) 1%Real 1%Real = Ok P
           & kinematics.calculateDampedPseudoInverse_without_SVD
               (0%Real%:M : 'M[R]_1) 1%Real 1%Real = Ok P.
Proof.
have svd0 : is_svd (0%Real%:M : 'M[R]_1) (scalar_svd 0%Real (0%Real%:M : 'M[R]_1)).
  by apply: scalar_svd_is_svd; lra.
have one : (1 <> 0)%Real by lra.
split; first by [].
apply: (strategies_agree_below_threshold svd0 one) => i.
by rewrite scalar_svd_values Rabs_R0; lra.
Defined.

(** X5 on the 1 x 1 Jacobian [2], above the threshold 1. *)
Lemma with_SVD_moore_penrose_witness :
  (is_svd (2%Real%:M : 'M[R]_1) (scalar_svd 2%Real (2%Real%:M : 'M[R]_1)) /\
   (0 <= 1)%Real /\ (1 <> 0)%Real) /\
  exists2 P, kinematics.calculateDampedPseudoInverse_with_SVD (scalar_svd 2%Real)
               (2%Real%:M : 'M[R]_1) 1%Real 1%Real = Ok P
           & (2%Real%:M : 'M[R]_1) *m P *m 2%Real%:M = 2%Real%:M.
Proof.
have svd2 : is_svd (2%Real%:M : 'M[R]_1) (scalar_svd 2%Real (2%Real%:M : 'M[R]_1)).
  by apply: scalar_svd_is_svd; lra.
have eps0 : (0 <= 1)%Real by lra.
have one : (1 <> 0)%Real by lra.
split; first by [].
have above i : Rlt 1 (Rabs (kinematics.singularValues
                             (scalar_svd 2%Real (2%Real%:M : 'M[R]_1)) i ord0)) \/
               kinematics.singularValues
                 (scalar_svd 2%Real (2%Real%:M : 'M[R]_1)) i ord0 = 0%Real.
  by left; rewrite scalar_svd_values Rabs_pos_eq; lra.
have [P computed [JPJ _ _ _]] := with_SVD_moore_penrose svd2 eps0 one above.
by exists P.
Defined.

(** X6 on the zero Jacobian of a seven-joint arm. *)
Lemma with_SVD_gain_bounded_witness :
  ((0 < 1)%Real /\ (1 <> 0)%Real) /\
  exists P : 'M[R]_(7, 6),
    kinematics.calculateDampedPseudoInverse_with_SVD (scalar_svd 0%Real)
      (0 : 'M[R]_(6, 7)) 1%Real 1%Real = Ok P.
Proof.
have eps0 : (0 < 1)%Real by lra.
have one : (1 <> 0)%Real by lra.
split; first by [].
have [r computed _] :=
  with_SVD_gain_bounded (scalar_svd 0%Real) (0 : 'M[R]_(6, 7)) eps0 one.
by eexists; exact: computed.
Defined.

End MatrixInstances.

(** ** Further properties of the relative poses *)

Section Homogeneous.

Local Open Scope ring_scope.
Import GRing.Theory.

Lemma sum3 (f : 'I_3 -> R) :
  \sum_(k < 3) f k = f ord0 + f (lift ord0 ord0) + f (lift ord0 (lift ord0 ord0)).
Proof. by rewrite !big_ord_recl big_ord0 addr0 addrA. Qed.

Lemma ord3_cases (P : 'I_3 -> Prop) :
  P ord0 -> P (lift ord0 ord0) -> P (lift ord0 (lift ord0 ord0)) -> forall i, P i.
Proof.
move=> P0 P1 P2 [[|[|[|i]]] hi] //.
- by rewrite (_ : Ordinal hi = ord0) //; apply: val_inj.
- by rewrite (_ : Ordinal hi = lift ord0 ord0) //; apply: val_inj.
- by rewrite (_ : Ordinal hi = lift ord0 (lift ord0 ord0)) //; apply: val_inj.
Qed.

Lemma mx_of_mul (A B : Matrix3x3) : mx_of (tf.m_mul A B) = mx_of A *m mx_of B.
Proof.
apply/matrixP => i j; rewrite !mxE sum3 !mxE.
by elim/ord3_cases: i; elim/ord3_cases: j;
   rewrite /tf.el /= /tf.tdot /tf.el /= !RopsE; over_R; ring.
Qed.

Lemma mx_of_transpose (A : Matrix3x3) : mx_of (tf.transpose A) = (mx_of A)^T.
Proof.
apply/matrixP => i j; rewrite !mxE.
by elim/ord3_cases: i; elim/ord3_cases: j.
Qed.

Lemma col_of_mulv (A : Matrix3x3) (v : Vector3) :
  col_of (tf.m_mulv A v) = mx_of A *m col_of v.
Proof.
apply/colP => i; rewrite !mxE sum3 !mxE.
by elim/ord3_cases: i; rewrite /tf.el /= /tf.v_dot /= !RopsE.
Qed.

Lemma col_of_add (a b : Vector3) : col_of (tf.v_add a b) = col_of a + col_of b.
Proof. by apply/colP => i; rewrite !mxE; elim/ord3_cases: i. Qed.

Lemma col_of_neg (a : Vector3) : col_of (tf.v_neg a) = - col_of a.
Proof. by apply/colP => i; rewrite !mxE; elim/ord3_cases: i. Qed.

Lemma dPose_homogeneous (target ref : Pose) :
  kinematics.dPose target ref = (d <- kinematics.d_tf target ref ;; Ok (homogeneous d)).
Proof.
rewrite /kinematics.dPose; case: kinematics.d_tf => //= d; congr Ok.
rewrite -[LHS](@submxK _ 3 1 3 1) /homogeneous.
set M := \matrix_(i, j) _.
have -> : @ulsubmx _ 3 1 3 1 M = mx_of (m_basis d).
  by apply/matrixP => i j; rewrite !mxE /= !ltn_ord.
have -> : @ursubmx _ 3 1 3 1 M = col_of (m_origin d).
  by apply/matrixP => i j; rewrite !mxE /= ?ltn_ord.
have -> : @dlsubmx _ 3 1 3 1 M = 0.
  by apply/matrixP => i j; rewrite !mxE /= ?ltn_ord.
have -> // : @drsubmx _ 3 1 3 1 M = 1%:M.
by apply/matrixP => i j; rewrite !mxE /= !ord1.
Qed.

Lemma rotation_of_real (w : R) :
  w <> 0%Real ->
  rotation_of (mkQuaternion 0 0 0 w) =
  mkMatrix3x3 (mkVector3 1 0 0) (mkVector3 0 1 0) (mkVector3 0 0 1).
Proof.
move=> w0; rewrite /rotation_of /tf.length2 /=.
by congr (mkMatrix3x3 (mkVector3 _ _ _) (mkVector3 _ _ _) (mkVector3 _ _ _));
   rewrite ?RopsE; over_R; field.
Qed.

Lemma relative_self (q : Quaternion) :
  relative q q = mkQuaternion 0 0 0 (tf.length2 q).
Proof.
by rewrite /relative /tf.length2; congr mkQuaternion; rewrite ?RopsE; over_R; ring.
Qed.

Lemma mx_of_identity :
  mx_of (mkMatrix3x3 (mkVector3 1 0 0) (mkVector3 0 1 0) (mkVector3 0 0 1)) = 1%:M.
Proof.
by apply/matrixP => i j; rewrite !mxE; elim/ord3_cases: i; elim/ord3_cases: j.
Qed.

(** The matrix [setRotation] builds from a non-zero quaternion is
    orthogonal. *)
Lemma rotation_orthogonal (q : Quaternion) :
  tf.length2 q <> 0%Real ->
  (mx_of (rotation_of q))^T *m mx_of (rotation_of q) = 1%:M /\
  mx_of (rotation_of q) *m (mx_of (rotation_of q))^T = 1%:M.
Proof.
move=> q0.
have left_inverse : (mx_of (rotation_of q))^T *m mx_of (rotation_of q) = 1%:M.
  rewrite -mx_of_transpose -mx_of_mul relative_rotation // relative_self.
  by rewrite rotation_of_real // mx_of_identity.
by split=> //; apply: mulmx1C.
Qed.

Lemma dPose_Ok (target ref : Pose) :
  tf.length2 (orientation target) <> 0%Real -> tf.length2 (orientation ref) <> 0%Real ->
  kinematics.dPose target ref = Ok (relative_mx target ref).
Proof.
move=> t0 r0; rewrite dPose_homogeneous d_tf_Ok //= /homogeneous /relative_mx /=.
rewrite -relative_rotation // mx_of_mul mx_of_transpose.
by rewrite col_of_add !col_of_mulv col_of_neg mx_of_transpose -mulmxDr.
Qed.

Lemma dPose_zero (target ref : Pose) :
  tf.length2 (orientation target) = 0%Real \/ tf.length2 (orientation ref) = 0%Real ->
  kinematics.dPose target ref = NonFinite at_setRotation.
Proof.
rewrite dPose_homogeneous /kinematics.d_tf /tf.mkTransformQ.
case: (Req_dec_T (tf.length2 (orientation target)) 0) => [t0 _|t0 [//|r0]].
  by rewrite setRotation_zero.
by rewrite (setRotation_Ok t0) /= setRotation_zero.
Qed.

End Homogeneous.

Section RelativePoses.

Local Open Scope ring_scope.
Import GRing.Theory.

Lemma relative_mx_self (p : Pose) :
  tf.length2 (orientation p) <> 0%Real -> relative_mx p p = 1%:M.
Proof.
move=> p0; have [RtR _] := rotation_orthogonal p0.
by rewrite /relative_mx /rotation_mx RtR subrr mulmx0 -scalar_mx_block.
Qed.

Lemma relative_mx_mul (a b c : Pose) :
  tf.length2 (orientation b) <> 0%Real ->
  relative_mx b a *m relative_mx c b = relative_mx c a.
Proof.
move=> b0; have [_ RRt] := rotation_orthogonal b0.
rewrite /relative_mx /rotation_mx (mulmx_block _ _ 0 1%:M).
rewrite ?mulmx0 ?mul0mx ?mulmx1 ?mul1mx ?addr0 ?add0r.
have cancel k (X : 'M[R]_3) (Y : 'M[R]_(3, k)) :
    X *m mx_of (rotation_of (orientation b))
      *m ((mx_of (rotation_of (orientation b)))^T *m Y) = X *m Y.
  by rewrite mulmxA -(mulmxA X) RRt mulmx1.
rewrite !cancel -mulmxDr; congr (block_mx _ (_ *m _) _ _).
by rewrite addrA subrK.
Qed.

(** X7. The error pose of line 630 is the identity matrix when the
    local target is at the pose of the end effector (a pose with a
    non-zero quaternion). *)
Theorem error_pose_at_target (eef_pose : Pose) :
  tf.length2 (orientation eef_pose) <> 0%Real ->
  main.error_pose eef_pose eef_pose = Ok 1%:M.
Proof. by move=> p0; rewrite /main.error_pose dPose_Ok // relative_mx_self. Qed.

(** X8. [dPose] composes: for poses with non-zero quaternions, the
    matrix of [c] seen from [a] is the matrix of [b] seen from [a] times
    the matrix of [c] seen from [b]. *)
Theorem dPose_chain (a b c : Pose) :
  tf.length2 (orientation a) <> 0%Real -> tf.length2 (orientation b) <> 0%Real ->
  tf.length2 (orientation c) <> 0%Real ->
  exists Tab Tbc Tac : 'M[R]_4,
    [/\ kinematics.dPose b a = Ok Tab, kinematics.dPose c b = Ok Tbc,
        kinematics.dPose c a = Ok Tac & Tac = Tab *m Tbc].
Proof.
move=> a0 b0 c0; exists (relative_mx b a), (relative_mx c b), (relative_mx c a).
by rewrite !dPose_Ok // relative_mx_mul.
Qed.

(** X9. Swapping the arguments of [dPose] inverts the matrix: for poses
    with non-zero quaternions the two results are inverse to each other. *)
Theorem dPose_swap_inverse (target ref : Pose) :
  tf.length2 (orientation target) <> 0%Real -> tf.length2 (orientation ref) <> 0%Real ->
  exists T T' : 'M[R]_4,
    [/\ kinematics.dPose target ref = Ok T, kinematics.dPose ref target = Ok T',
        T *m T' = 1%:M & T' *m T = 1%:M].
Proof.
move=> t0 r0; exists (relative_mx target ref), (relative_mx ref target).
by rewrite !dPose_Ok // !relative_mx_mul // !relative_mx_self.
Qed.

End RelativePoses.

Section PoseMatrices.

Local Open Scope ring_scope.
Import GRing.Theory.

Lemma col_of_zero : col_of (mkVector3 0 0 0) = 0.
Proof. by apply/colP => i; rewrite !mxE; elim/ord3_cases: i. Qed.

Lemma rotation_mx_origin : rotation_mx main.origin = 1%:M.
Proof.
rewrite /rotation_mx /main.origin /= rotation_of_real ?mx_of_identity //.
by lra.
Qed.

Lemma position_col_origin : position_col main.origin = 0.
Proof. exact: col_of_zero. Qed.

(** X10. The matrix [eef_trans] of line 637, the pose of the end
    effector seen from the origin pose, is the homogeneous matrix of the
    end-effector pose: its rotation matrix, its position, and the row
    (0, 0, 0, 1). *)
Theorem eef_trans_homogeneous (eef_pose : Pose) :
  tf.length2 (orientation eef_pose) <> 0%Real ->
  main.eef_trans eef_pose =
  Ok (block_mx (rotation_mx eef_pose) (position_col eef_pose) 0 1%:M).
Proof.
move=> p0.
have o0 : tf.length2 (orientation main.origin) <> 0%Real.
  by rewrite /main.origin /tf.length2 /=; lra.
rewrite /main.eef_trans (dPose_Ok p0 o0).
by rewrite /relative_mx rotation_mx_origin position_col_origin trmx1 !mul1mx subr0.
Qed.

(** X11. [dPose] fails if one of the two quaternions is zero (the
    matrix of [setRotation] divides by the squared norm), and otherwise
    returns a rigid transform: a rotation block [R] with [Rᵗ R = R Rᵗ = I]
    and the bottom row (0, 0, 0, 1). *)
Theorem dPose_rigid (target ref : Pose) :
  (tf.length2 (orientation target) = 0%Real \/ tf.length2 (orientation ref) = 0%Real ->
   kinematics.dPose target ref = NonFinite at_setRotation) /\
  (tf.length2 (orientation target) <> 0%Real ->
   tf.length2 (orientation ref) <> 0%Real ->
   exists2 T : 'M[R]_(3 + 1), kinematics.dPose target ref = Ok T
     & [/\ (ulsubmx T)^T *m ulsubmx T = 1%:M, ulsubmx T *m (ulsubmx T)^T = 1%:M,
           dlsubmx T = 0 & drsubmx T = 1%:M]).
Proof.
split; first exact: dPose_zero.
move=> t0 r0; exists (relative_mx target ref); first exact: dPose_Ok.
rewrite /relative_mx block_mxKul block_mxKdl block_mxKdr.
have [RtR_t RRt_t] := rotation_orthogonal t0.
have [RtR_r RRt_r] := rotation_orthogonal r0.
split=> //; rewrite /rotation_mx trmx_mul trmxK.
  by rewrite mulmxA -(mulmxA _ (mx_of _)) RRt_r mulmx1.
by rewrite mulmxA -(mulmxA _ (mx_of _)) RRt_t mulmx1.
Qed.

Lemma setRotation_scaled (c : R) (q : Quaternion) :
  c <> 0%Real -> tf.setRotation (scaled c q) = tf.setRotation q.
Proof.
move=> c0; case: (Req_dec_T (tf.length2 q) 0) => [q0|q0].
  by rewrite !setRotation_zero // length2_scaled q0 Rmult_0_r.
rewrite !setRotation_Ok ?rotation_of_scaled // length2_scaled.
by apply: Rmult_integral_contrapositive_currified => //; nra.
Qed.

(** X12. [dPose] does not depend on the norms of the quaternions:
    multiplying the quaternion of either pose by a non-zero number leaves
    the result unchanged (failure included), so callers need not
    normalize. *)
Theorem dPose_scale_invariant (c c' : R) (target ref : Pose) :
  c <> 0%Real -> c' <> 0%Real ->
  kinematics.dPose (rescaled c target) (rescaled c' ref) = kinematics.dPose target ref.
Proof.
move=> c0 c'0; rewrite !dPose_homogeneous /kinematics.d_tf /tf.mkTransformQ /=.
by rewrite !setRotation_scaled.
Qed.

End PoseMatrices.

Section GeometryMessages.

Local Open Scope ring_scope.
Import GRing.Theory.

Lemma to_Vector3_pointTFToMsg (v : Vector3) :
  kinematics.to_Vector3 (tf.pointTFToMsg v) = v.
Proof. by case: v. Qed.

(** X13. [dPose_geom] and [dPose] agree: for poses with non-zero
    quaternions [dPose_geom] returns a pose, and the matrix [dPose]
    returns is the homogeneous matrix of that pose. *)
Theorem dPose_geom_consistent (target ref : Pose) :
  tf.length2 (orientation target) <> 0%Real -> tf.length2 (orientation ref) <> 0%Real ->
  exists2 d_pose, kinematics.dPose_geom target ref = Ok d_pose
    & kinematics.dPose target ref =
      Ok (block_mx (rotation_mx d_pose) (position_col d_pose) 0 1%:M).
Proof.
move=> t0 r0; rewrite dPose_homogeneous /kinematics.dPose_geom d_tf_Ok //=.
rewrite /tf.poseTFToMsg /=.
have rel0 : tf.length2 (relative (orientation ref) (orientation target)) <> 0%Real.
  by rewrite length2_relative; apply: Rmult_integral_contrapositive_currified.
have [q' -> /= q'E] := getRotation_rotation_of rel0.
have unit : tf.length2 q' = 1%Real.
  by case: q'E => ->; rewrite ?length2_neg length2_normalized.
rewrite quaternionTFToMsg_unit //=; eexists; first by [].
rewrite /homogeneous /rotation_mx /position_col /= to_Vector3_pointTFToMsg.
have -> // : rotation_of q' = rotation_of (relative (orientation ref) (orientation target)).
by case: q'E => ->; rewrite ?rotation_of_neg rotation_of_normalized.
Qed.

End GeometryMessages.

Section GeometryMessagesReal.

Local Open Scope R_scope.

Lemma sqrt_4 : sqrt (1 + 1 + 1 + 1) = 2.
Proof.
have two_ge0 : 0 <= 2 by lra.
by rewrite -[RHS](sqrt_square _ two_ge0); congr sqrt; ring.
Qed.

Lemma getRotation_identity :
  tf.getRotation (mkMatrix3x3 (mkVector3 1 0 0) (mkVector3 0 1 0) (mkVector3 0 0 1)) =
  Ok (mkQuaternion 0 0 0 1).
Proof.
rewrite /tf.getRotation /tf.el /=; case: Rlt_dec => h /=; last by lra.
have two_neq0 : 2 <> 0 by lra.
rewrite sqrt_4 (fdiv_Ok _ _ two_neq0) /=.
by rewrite /tf.temp_set /=; congr (Ok (mkQuaternion _ _ _ _)); lra.
Qed.

(** X14. The pose of a pose seen from itself, as [dPose_geom] returns
    it, is exactly the identity pose: position (0, 0, 0) and quaternion
    (0, 0, 0, 1), whatever the norm of the quaternion given. *)
Theorem dPose_geom_self (p : Pose) :
  tf.length2 (orientation p) <> 0 ->
  kinematics.dPose_geom p p = Ok (mkPose (mkPoint 0 0 0) (mkQuaternion 0 0 0 1)).
Proof.
move=> p0; rewrite /kinematics.dPose_geom d_tf_Ok //= /tf.poseTFToMsg /=.
rewrite relative_self rotation_of_real // getRotation_identity /=.
have unit : tf.length2 (mkQuaternion 0 0 0 1) = 1 by rewrite /tf.length2 /=; ring.
rewrite (quaternionTFToMsg_unit unit) /=.
congr (Ok (mkPose _ _)); rewrite /tf.pointTFToMsg /tf.v_add /tf.m_mulv /tf.v_dot /=.
by congr mkPoint; ring.
Qed.

End GeometryMessagesReal.

Section EigenRotation.

Local Open Scope ring_scope.
Import GRing.Theory.

(** X15. On a unit quaternion [getRotationMatrix] returns the matrix
    that tf builds for the same quaternion (the rotation block of
    [dPose]), and that matrix is orthogonal. *)
Theorem getRotationMatrix_unit (q : Quaternion) :
  tf.length2 q = 1%Real ->
  [/\ kinematics.getRotationMatrix q = mx_of (rotation_of q),
      (kinematics.getRotationMatrix q)^T *m kinematics.getRotationMatrix q = 1%:M
    & kinematics.getRotationMatrix q *m (kinematics.getRotationMatrix q)^T = 1%:M].
Proof.
move=> unit.
have q0 : tf.length2 q <> 0%Real by rewrite unit; lra.
have same : kinematics.getRotationMatrix q = mx_of (rotation_of q).
  apply/matrixP => i j; rewrite !mxE /rotation_of unit.
  by elim/ord3_cases: i; elim/ord3_cases: j; rewrite /tf.el /=; over_R; field.
by rewrite same; have [? ?] := rotation_orthogonal q0.
Qed.

End EigenRotation.

Section PoseInstances.

Local Open Scope ring_scope.

Lemma pose_at_neq0 (x w : R) :
  w = 1%Real \/ w = (-1)%Real -> tf.length2 (orientation (pose_at x w)) <> 0%Real.
Proof. by move=> w1; rewrite (length2_pose_at x w1); lra. Qed.

(** X7 at a pose on the x axis. *)
Lemma error_pose_at_target_witness :
  tf.length2 (orientation (pose_at 1 1)) <> 0%Real /\
  main.error_pose (pose_at 1 1) (pose_at 1 1) = Ok 1%:M.
Proof.
have p0 := @pose_at_neq0 1 _ (or_introl (erefl 1%Real)).
by split; [|apply: (error_pose_at_target p0)].
Defined.

(** X8 on three poses of the x axis. *)
Lemma dPose_chain_witness :
  (tf.length2 (orientation (pose_at 0 1)) <> 0%Real /\
   tf.length2 (orientation (pose_at 1 1)) <> 0%Real /\
   tf.length2 (orientation (pose_at 2 (-1))) <> 0%Real) /\
  exists Tac : 'M[R]_4, kinematics.dPose (pose_at 2 (-1)) (pose_at 0 1) = Ok Tac.
Proof.
have a0 := @pose_at_neq0 0 _ (or_introl (erefl 1%Real)).
have b0 := @pose_at_neq0 1 _ (or_introl (erefl 1%Real)).
have c0 := @pose_at_neq0 2 _ (or_intror (erefl (-1)%Real)).
split; first by [].
have [Tab [Tbc [Tac [_ _ computed _]]]] := dPose_chain a0 b0 c0.
by exists Tac.
Defined.

(** X9 on two poses of the x axis. *)
Lemma dPose_swap_inverse_witness :
  (tf.length2 (orientation (pose_at 1 1)) <> 0%Real /\
   tf.length2 (orientation (pose_at 0 1)) <> 0%Real) /\
  exists T T' : 'M[R]_4,
    kinematics.dPose (pose_at 1 1) (pose_at 0 1) = Ok T /\ T *m T' = 1%:M.
Proof.
have t0 := @pose_at_neq0 1 _ (or_introl (erefl 1%Real)).
have r0 := @pose_at_neq0 0 _ (or_introl (erefl 1%Real)).
split; first by [].
have [T [T' [computed _ inverse _]]] := dPose_swap_inverse t0 r0.
by exists T, T'.
Defined.

(** X10 at a pose on the x axis. *)
Lemma eef_trans_homogeneous_witness :
  tf.length2 (orientation (pose_at 1 1)) <> 0%Real /\
  main.eef_trans (pose_at 1 1) =
  Ok (block_mx (rotation_mx (pose_at 1 1)) (position_col (pose_at 1 1)) 0 1%:M).
Proof.
have p0 := @pose_at_neq0 1 _ (or_introl (erefl 1%Real)).
by split; [|apply: (eef_trans_homogeneous p0)].
Defined.

(** X12 with the quaternions doubled and tripled. *)
Lemma dPose_scale_invariant_witness :
  ((2 <> 0)%Real /\ (3 <> 0)%Real) /\
  kinematics.dPose (rescaled 2 (pose_at 1 1)) (rescaled 3 (pose_at 0 1)) =
  kinematics.dPose (pose_at 1 1) (pose_at 0 1).
Proof.
have two : (2 <> 0)%Real by lra.
have three : (3 <> 0)%Real by lra.
by split; [|apply: (dPose_scale_invariant _ _ two three)].
Defined.

(** X13 on two poses of the x axis. *)
Lemma dPose_geom_consistent_witness :
  (tf.length2 (orientation (pose_at 1 1)) <> 0%Real /\
   tf.length2 (orientation (pose_at 0 1)) <> 0%Real) /\
  exists d_pose, kinematics.dPose_geom (pose_at 1 1) (pose_at 0 1) = Ok d_pose.
Proof.
have t0 := @pose_at_neq0 1 _ (or_introl (erefl 1%Real)).
have r0 := @pose_at_neq0 0 _ (or_introl (erefl 1%Real)).
split; first by [].
have [d_pose computed _] := dPose_geom_consistent t0 r0.
by exists d_pose.
Defined.

(** X14 at a pose on the x axis. *)
Lemma dPose_geom_self_witness :
  tf.length2 (orientation (pose_at 1 1)) <> 0%Real /\
  kinematics.dPose_geom (pose_at 1 1) (pose_at 1 1) =
  Ok (mkPose (mkPoint 0 0 0) (mkQuaternion 0 0 0 1)).
Proof.
have p0 := @pose_at_neq0 1 _ (or_introl (erefl 1%Real)).
by split; [|apply: (dPose_geom_self p0)].
Defined.

(** X15 at the identity rotation. *)
Lemma getRotationMatrix_unit_witness :
  tf.length2 (mkQuaternion 0 0 0 1) = 1%Real /\
  kinematics.getRotationMatrix (mkQuaternion 0 0 0 1) =
  mx_of (rotation_of (mkQuaternion 0 0 0 1)).
Proof.
have unit : tf.length2 (mkQuaternion 0 0 0 1) = 1%Real.
  by rewrite /tf.length2 /=; lra.
split; first by [].
by have [same _ _] := getRotationMatrix_unit unit.
Defined.

End PoseInstances.

(** ** Further properties of the local target *)

Section SlerpNorm.

Local Open Scope R_scope.

Lemma cauchy_schwarz (q1 q2 : Quaternion) :
  tf.dot q1 q2 * tf.dot q1 q2 <= tf.length2 q1 * tf.length2 q2.
Proof.
case: q1 => a1 b1 c1 d1; case: q2 => a2 b2 c2 d2; rewrite /tf.dot /tf.length2 /=.
have -> : (a1 * a1 + b1 * b1 + c1 * c1 + d1 * d1) * (a2 * a2 + b2 * b2 + c2 * c2 + d2 * d2) =
          (a1 * a2 + b1 * b2 + c1 * c2 + d1 * d2) * (a1 * a2 + b1 * b2 + c1 * c2 + d1 * d2) +
          ((a1 * b2 - b1 * a2) * (a1 * b2 - b1 * a2) +
           (a1 * c2 - c1 * a2) * (a1 * c2 - c1 * a2) +
           (a1 * d2 - d1 * a2) * (a1 * d2 - d1 * a2) +
           (b1 * c2 - c1 * b2) * (b1 * c2 - c1 * b2) +
           (b1 * d2 - d1 * b2) * (b1 * d2 - d1 * b2) +
           (c1 * d2 - d1 * c2) * (c1 * d2 - d1 * c2)) by ring.
have := Rle_0_sqr (a1 * b2 - b1 * a2); have := Rle_0_sqr (a1 * c2 - c1 * a2).
have := Rle_0_sqr (a1 * d2 - d1 * a2); have := Rle_0_sqr (b1 * c2 - c1 * b2).
have := Rle_0_sqr (b1 * d2 - d1 * b2); have := Rle_0_sqr (c1 * d2 - d1 * c2).
by rewrite /Rsqr; lra.
Qed.

Lemma Rabs_dot_unit (q1 q2 : Quaternion) :
  tf.length2 q1 = 1 -> tf.length2 q2 = 1 -> Rabs (tf.dot q1 q2) <= 1.
Proof.
move=> u1 u2; have := cauchy_schwarz q1 q2; rewrite u1 u2 Rmult_1_l => cs.
by rewrite /Rabs; case: Rcase_abs => ?; nra.
Qed.

Lemma cos_half_angle (q1 q2 : Quaternion) :
  tf.length2 q1 = 1 -> tf.length2 q2 = 1 ->
  cos (half_angle q1 q2) = Rabs (tf.dot q1 q2).
Proof.
move=> u1 u2; rewrite /half_angle u1 u2 Rmult_1_l sqrt_1 Rdiv_1_r.
by apply: cos_acos; have := Rabs_pos (tf.dot q1 q2); have := Rabs_dot_unit u1 u2; lra.
Qed.

Lemma length2_slerp_mix (q1 q2 : Quaternion) (s0 s1 d : R) :
  tf.length2 (slerp_mix q1 q2 s0 s1 d) =
  d * d * (s0 * s0 * tf.length2 q1 + 2 * (s0 * s1) * tf.dot q1 q2 + s1 * s1 * tf.length2 q2).
Proof. by rewrite /slerp_mix /tf.length2 /tf.dot /=; ring. Qed.

Lemma sin_sum_squares (a b : R) :
  sin a * sin a + 2 * (sin a * sin b) * cos (a + b) + sin b * sin b =
  sin (a + b) * sin (a + b).
Proof.
rewrite sin_plus cos_plus.
have ha := sin2_cos2 a; have hb := sin2_cos2 b; move: ha hb; rewrite /Rsqr.
move: (sin a) (cos a) (sin b) (cos b) => sa ca sb cb ha hb.
have : (sa * cb + ca * sb) * (sa * cb + ca * sb) -
       (sa * sa + 2 * (sa * sb) * (ca * cb - sa * sb) + sb * sb) =
       sa * sa * (cb * cb + sb * sb - 1) + sb * sb * (ca * ca + sa * sa - 1) by ring.
have -> : cb * cb + sb * sb - 1 = 0 by lra.
have -> : ca * ca + sa * sa - 1 = 0 by lra.
by lra.
Qed.

(** [slerp] of two unit quaternions is a unit quaternion, at every
    fraction. *)
Lemma slerp_unit (q1 q2 q : Quaternion) (t : R) :
  tf.length2 q1 = 1 -> tf.length2 q2 = 1 -> tf.slerp q1 q2 t = Ok q -> tf.length2 q = 1.
Proof.
move=> u1 u2.
have n1 : tf.length2 q1 <> 0 by rewrite u1; lra.
have n2 : tf.length2 q2 <> 0 by rewrite u2; lra.
rewrite slerp_Ok //; case: Req_dec_T => th0 /= [<-] //.
have sin_pos := sin_half_angle_pos n1 n2 th0.
have cosE := cos_half_angle u1 u2.
set theta := half_angle q1 q2 in th0 sin_pos cosE *.
set q2' := if Rlt_dec _ _ then _ else _.
have u2' : tf.length2 q2' = 1 by rewrite /q2'; case: Rlt_dec => ?; rewrite ?length2_neg.
have dotE : tf.dot q1 q2' = cos theta.
  rewrite cosE /q2' /Rabs; case: Rlt_dec => h /=; case: Rcase_abs => ?; rewrite ?dot_neg_r; lra.
rewrite length2_slerp_mix u1 u2' dotE !Rmult_1_r.
have -> : cos theta = cos ((1 - t) * theta + t * theta) by congr cos; ring.
rewrite sin_sum_squares.
have -> : (1 - t) * theta + t * theta = theta by ring.
by field; lra.
Qed.

End SlerpNorm.

Section LocalTargetInvariants.

Local Open Scope R_scope.

Lemma reset_inv (eef_target1 eef_target2 : Pose) (now : R) (s s' : LocalTarget) (id : Z) :
  LocalTargetM.reset_ eef_target1 eef_target2 now s id = Ok s' ->
  [/\ linear_vel_ s' = linear_vel_ s, dquat_rot_vel_ s' = dquat_rot_vel_ s,
      global_target_id_ s' = id, from_ s' = pose_ s &
      to_ s' = selected eef_target1 eef_target2 id /\ pose_ s' = pose_ s].
Proof.
rewrite /LocalTargetM.reset_ => h.
have [d_pose _ {}h] := bind_inv h.
have [position_time _ {}h] := bind_inv h.
by have [quat_time _ [<-]] := bind_inv h.
Qed.

Lemma interpolate_inv (now : R) (s s' : LocalTarget) :
  LocalTargetM.interpolate_ now s = Ok s' ->
  [/\ linear_vel_ s' = linear_vel_ s, dquat_rot_vel_ s' = dquat_rot_vel_ s &
      exists2 t, tf.slerp (orientation (from_ s)) (orientation (to_ s)) t =
                 Ok (orientation (pose_ s'))
               & position (pose_ s') = lerp (position (from_ s)) (position (to_ s)) t].
Proof.
rewrite /LocalTargetM.interpolate_ => h.
have [t _ {}h] := bind_inv h.
have [q slerp_q [<-]] := bind_inv h.
by split=> //; eexists; first exact: slerp_q.
Qed.

Lemma rem_binary (id : Z) : (id = 0 \/ id = 1)%Z ->
  (Z.rem (id + 1) 2 = 0 \/ Z.rem (id + 1) 2 = 1)%Z.
Proof. by case=> ->; [right|left]. Qed.

(** What one tick keeps: the configured speeds, a waypoint id that is 0
    or 1, and unit quaternions. *)
Lemma updatePose_inv (eef_target1 eef_target2 : Pose) (now_reset now : R)
    (s s' : LocalTarget) :
  LocalTargetM.updatePose eef_target1 eef_target2 now_reset now s = Ok s' ->
  [/\ linear_vel_ s' = linear_vel_ s, dquat_rot_vel_ s' = dquat_rot_vel_ s,
      (global_target_id_ s = 0 \/ global_target_id_ s = 1)%Z ->
      (global_target_id_ s' = 0 \/ global_target_id_ s' = 1)%Z
    & tf.length2 (orientation eef_target1) = 1 ->
      tf.length2 (orientation eef_target2) = 1 ->
      [/\ tf.length2 (orientation (from_ s)) = 1, tf.length2 (orientation (to_ s)) = 1
        & tf.length2 (orientation (pose_ s)) = 1] ->
      [/\ tf.length2 (orientation (from_ s')) = 1, tf.length2 (orientation (to_ s')) = 1
        & tf.length2 (orientation (pose_ s')) = 1]].
Proof.
rewrite /LocalTargetM.updatePose => h.
have [s1 switched interpolated] := bind_inv h.
have [lin ang [t slerp_t _]] := interpolate_inv interpolated.
have [idE fromE toE _ _] := interpolate_preserves interpolated.
move: switched; rewrite /LocalTargetM.switch_.
case: LocalTargetM.isClose_ => [/reset_inv [lin1 ang1 id1 from1 [to1 _]]|[s1E]].
  split; rewrite ?lin ?ang ?lin1 ?ang1 // ?idE ?id1; first exact: rem_binary.
  move=> u1 u2 [_ _ uP].
  have uF : tf.length2 (orientation (from_ s1)) = 1 by rewrite from1.
  have uT : tf.length2 (orientation (to_ s1)) = 1.
    by rewrite to1 /selected; case: Z.eqb.
  by rewrite fromE toE; split=> //; apply: (slerp_unit uF uT slerp_t).
rewrite -s1E in lin ang idE fromE toE slerp_t.
split; rewrite ?lin ?ang ?idE // => u1 u2 [uF uT uP].
by rewrite fromE toE; split=> //; apply: (slerp_unit uF uT slerp_t).
Qed.

(** X16. Over any sequence of ticks that the trajectory gets through,
    the two configured speeds keep their values and the waypoint id,
    once 0 or 1, stays 0 or 1. *)
Theorem run_keeps_configuration (ticks : seq LocalTargetM.tick) (s s' : LocalTarget) :
  (global_target_id_ s = 0 \/ global_target_id_ s = 1)%Z ->
  LocalTargetM.run ticks s = Ok s' ->
  [/\ linear_vel_ s' = linear_vel_ s, dquat_rot_vel_ s' = dquat_rot_vel_ s
    & (global_target_id_ s' = 0 \/ global_target_id_ s' = 1)%Z].
Proof.
elim: ticks s => [|tk ticks IH] s id01 /=; first by move=> [<-].
move=> h; have [s1 /updatePose_inv [lin ang id _] ran] := bind_inv h.
by have [-> -> ?] := IH _ (id id01) ran; rewrite lin ang.
Qed.

(** X17. Unit quaternions are kept: if the waypoints have unit
    quaternions at every tick and the state starts with unit quaternions
    in its source, destination and output poses, then after any sequence
    of ticks it gets through they are still unit quaternions. *)
Theorem run_keeps_unit_quaternions (ticks : seq LocalTargetM.tick) (s s' : LocalTarget) :
  (forall tk, List.In tk ticks ->
     tf.length2 (orientation (LocalTargetM.tick_target1 tk)) = 1 /\
     tf.length2 (orientation (LocalTargetM.tick_target2 tk)) = 1) ->
  tf.length2 (orientation (from_ s)) = 1 -> tf.length2 (orientation (to_ s)) = 1 ->
  tf.length2 (orientation (pose_ s)) = 1 ->
  LocalTargetM.run ticks s = Ok s' ->
  [/\ tf.length2 (orientation (from_ s')) = 1, tf.length2 (orientation (to_ s')) = 1
    & tf.length2 (orientation (pose_ s')) = 1].
Proof.
elim: ticks s => [|tk ticks IH] s /=; first by move=> _ uF uT uP [<-].
move=> units uF uT uP h.
have [s1 /updatePose_inv [_ _ _ unit1] ran] := bind_inv h.
have [u1 u2] := units tk (or_introl (erefl tk)).
have [uF1 uT1 uP1] := unit1 u1 u2 (And3 uF uT uP).
apply: (IH s1 _ uF1 uT1 uP1 ran) => tk' in_ticks.
by apply: units; right.
Qed.

End LocalTargetInvariants.

Section LocalTargetMotion.

Local Open Scope R_scope.

Lemma capped_lipschitz (x y : R) : x <= y -> 0 <= capped y - capped x <= y - x.
Proof. by rewrite /capped => xy; case_decisions; lra. Qed.

Lemma three_squares_ge0 (x y z : R) : 0 <= x * x + y * y + z * z.
Proof.
by have := Rle_0_sqr x; have := Rle_0_sqr y; have := Rle_0_sqr z; rewrite /Rsqr; lra.
Qed.

Lemma linear_distance_lerp (a b : Point) (t1 t2 : R) :
  t1 <= t2 ->
  linear_distance (lerp a b t2) (lerp a b t1) = (t2 - t1) * linear_distance b a.
Proof.
move=> t12; rewrite /linear_distance /lerp /=.
have d0 : 0 <= t2 - t1 by lra.
have sq0 : 0 <= (t2 - t1) * (t2 - t1) by nra.
have dist0 := three_squares_ge0 (px b - px a) (py b - py a) (pz b - pz a).
rewrite -[RHS]/(_ * sqrt _) -{1}(sqrt_square _ d0) -(sqrt_mult _ _ sq0 dist0).
by congr sqrt; ring.
Qed.

Lemma leg_duration_distance (S D : Pose) (lin ang : R) :
  0 < lin ->
  linear_distance (position D) (position S) <= lin * leg_duration S D lin ang.
Proof.
move=> lin0; rewrite /leg_duration.
set dist := linear_distance _ _; set angle := _ / ang.
have le_max := Rmax_l (dist / lin) angle; set M := Rmax _ _ in le_max *.
have e : lin * (dist / lin) = dist by field; lra.
by rewrite -e; apply: Rmult_le_compat_l => //; lra.
Qed.

(** X18. The local target respects its linear speed: on a leg of
    positive duration, the outputs at two times [now1 <= now2] after the
    start of the leg lie at most [linear_vel_ * (now2 - now1)] apart. *)
Theorem linear_speed_limit (S D : Pose) (id : Z) (start lin ang now1 now2 : R)
    (s1 s2 : LocalTarget) :
  tf.length2 (orientation S) <> 0 -> tf.length2 (orientation D) <> 0 ->
  0 < lin -> 0 < leg_duration S D lin ang ->
  on_leg s1 id S D start (leg_duration S D lin ang) ->
  on_leg s2 id S D start (leg_duration S D lin ang) ->
  start <= now1 <= now2 ->
  exists s1' s2',
    [/\ LocalTargetM.interpolate_ now1 s1 = Ok s1',
        LocalTargetM.interpolate_ now2 s2 = Ok s2' &
        linear_distance (position (pose_ s2')) (position (pose_ s1'))
        <= lin * (now2 - now1)].
Proof.
move=> nS nD lin0 dur0 [_ from1 to1 start1 dur1] [_ from2 to2 start2 dur2] [le1 le12].
set duration := leg_duration S D lin ang in dur0 dur1 dur2.
have dur1_neq0 : expected_duration_ s1 <> 0 by rewrite dur1; lra.
have dur2_neq0 : expected_duration_ s2 <> 0 by rewrite dur2; lra.
have nS1 : tf.length2 (orientation (from_ s1)) <> 0 by rewrite from1.
have nD1 : tf.length2 (orientation (to_ s1)) <> 0 by rewrite to1.
have nS2 : tf.length2 (orientation (from_ s2)) <> 0 by rewrite from2.
have nD2 : tf.length2 (orientation (to_ s2)) <> 0 by rewrite to2.
have [q1 _ ->] := interpolate_Ok now1 dur1_neq0 nS1 nD1.
have [q2 _ ->] := interpolate_Ok now2 dur2_neq0 nS2 nD2.
do 2!eexists; split=> //=.
rewrite from1 to1 start1 dur1 from2 to2 start2 dur2.
have inv_pos := Rinv_0_lt_compat _ dur0.
have ratio : (now1 - start) / duration <= (now2 - start) / duration.
  by rewrite /Rdiv; nra.
have [t_ge0 t_le] := capped_lipschitz ratio.
set t1 := capped ((now1 - start) / duration) in t_ge0 t_le *.
set t2 := capped ((now2 - start) / duration) in t_ge0 t_le *.
have t12 : t1 <= t2 by lra.
rewrite (linear_distance_lerp _ _ t12).
have dist_le := leg_duration_distance S D ang lin0; rewrite -/duration in dist_le.
have dist_ge0 : 0 <= linear_distance (position D) (position S) by apply: sqrt_pos.
move: dist_le dist_ge0; move: (linear_distance _ _) => dist dist_le dist_ge0.
have step : t2 - t1 <= (now2 - now1) / duration.
  by apply: Rle_trans t_le _; right; field; lra.
have -> : lin * (now2 - now1) = (now2 - now1) / duration * (lin * duration).
  by field; lra.
by apply: Rmult_le_compat => //; lra.
Qed.

End LocalTargetMotion.

Section LocalTargetEndpoints.

Local Open Scope R_scope.

Lemma lerp_start (a b : Point) : lerp a b 0 = a.
Proof. by rewrite /lerp; case: a => x y z /=; congr mkPoint; ring. Qed.

Lemma slerp_start (q1 q2 : Quaternion) :
  tf.length2 q1 <> 0 -> tf.length2 q2 <> 0 -> tf.slerp q1 q2 0 = Ok q1.
Proof.
move=> n1 n2; rewrite slerp_Ok //; case: Req_dec_T => th0 //=.
have sin_pos := sin_half_angle_pos n1 n2 th0.
by rewrite slerp_mix_start //; lra.
Qed.

Lemma with_pose_own (s : LocalTarget) : with_pose s (pose_ s) = s.
Proof. by case: s. Qed.

(** X20. At elapsed time zero the output is the source pose of the
    leg, exactly: an update at the time of the reset leaves the state as
    it was but for the output pose, which is [from_]. *)
Theorem interpolate_at_start (s : LocalTarget) :
  expected_duration_ s <> 0 ->
  tf.length2 (orientation (from_ s)) <> 0 -> tf.length2 (orientation (to_ s)) <> 0 ->
  LocalTargetM.interpolate_ (start_time_ s) s = Ok (with_pose s (from_ s)).
Proof.
move=> dur0 n1 n2; have [q] := interpolate_Ok (start_time_ s) dur0 n1 n2.
have -> : capped ((start_time_ s - start_time_ s) / expected_duration_ s) = 0.
  by rewrite Rminus_diag /Rdiv Rmult_0_l /capped; case_decisions; lra.
rewrite slerp_start // lerp_start => -[<-] ->.
by case: (from_ s).
Qed.

(** X21. A leg between unit quaternions whose dot product is not
    negative completes.  While the output is not yet within the tolerance
    of the destination, a tick at or after the expected duration returns
    a state whose output is the destination exactly, still on the same
    leg, and for which [isClose_] holds; and the next tick then switches:
    it returns a state on a new leg, from that destination to the other
    waypoint as it is then, which starts at the time of its reset and has
    the duration computed for it. *)
Theorem leg_completes (S D : Pose) (id : Z) (start duration : R)
    (eef_target1 eef_target2 : Pose) (now_reset now : R) (s : LocalTarget) :
  tf.length2 (orientation S) = 1 -> tf.length2 (orientation D) = 1 ->
  0 <= tf.dot (orientation S) (orientation D) ->
  on_leg s id S D start duration -> (id = 0 \/ id = 1)%Z ->
  0 < linear_vel_ s -> 0 < dquat_rot_vel_ s ->
  LocalTargetM.isClose_ s = false ->
  0 <= duration <= now - start -> 0 < duration \/ start < now ->
  exists2 s', LocalTargetM.updatePose eef_target1 eef_target2 now_reset now s = Ok s'
    & [/\ pose_ s' = D, on_leg s' id S D start duration, LocalTargetM.isClose_ s' = true
        & forall (next_target1 next_target2 : Pose) (next_reset next : R),
            tf.length2 (orientation next_target1) <> 0 ->
            tf.length2 (orientation next_target2) <> 0 ->
            let waypoint := selected next_target1 next_target2 (1 - id) in
            let next_duration :=
              leg_duration D waypoint (linear_vel_ s) (dquat_rot_vel_ s) in
            next_duration <> 0 \/ next_reset < next ->
            exists2 s'', LocalTargetM.updatePose next_target1 next_target2
                           next_reset next s' = Ok s''
              & on_leg s'' (1 - id) D waypoint next_reset next_duration].
Proof.
move=> uS uD same [idE fromE toE startE durE] id01 lin0 ang0 not_close [dur0 arrived] defined.
have tick : LocalTargetM.updatePose eef_target1 eef_target2 now_reset now s =
            LocalTargetM.interpolate_ now s.
  by rewrite /LocalTargetM.updatePose /LocalTargetM.switch_ not_close.
have uF : tf.length2 (orientation (from_ s)) = 1 by rewrite fromE.
have uT : tf.length2 (orientation (to_ s)) = 1 by rewrite toE.
have dur0' : 0 <= expected_duration_ s by rewrite durE.
have e0 : 0 <= now - start_time_ s by rewrite startE; lra.
have defined' : 0 < expected_duration_ s \/ 0 < now - start_time_ s.
  by rewrite durE startE; case: defined => [?|?]; [left|right; lra].
have [q interpolated [_ at_end]] := @interpolate_fraction now s uF uT dur0' e0 defined'.
have t1 : fraction (now - start_time_ s) (expected_duration_ s) = 1.
  rewrite /fraction startE durE; case: (Req_dec_T duration 0) => //= dur_neq0.
  have pos : 0 < duration by lra.
  have inv_pos := Rinv_0_lt_compat _ pos.
  have inv_d : duration * / duration = 1 by apply: Rinv_r.
  have : 1 <= (now - start) / duration by rewrite /Rdiv; nra.
  by rewrite /clamp01; case_decisions; lra.
have poseE : mkPose (lerp (position (from_ s)) (position (to_ s))
                       (fraction (now - start_time_ s) (expected_duration_ s))) q = D.
  rewrite (at_end t1) fromE toE; case: Rlt_dec => h /=; first by lra.
  by case: (D).
rewrite tick interpolated poseE.
set s' := with_pose s D; exists s' => //.
have close : LocalTargetM.isClose_ s'.
  by apply/isClose_P; rewrite /s' /= toE; apply: within_tolerance_same.
split=> // next_target1 next_target2 next_reset next T1_0 T2_0 waypoint next_duration next_defined.
have id01' : (global_target_id_ s' = 0 \/ global_target_id_ s' = 1)%Z by rewrite /= idE.
have nP : tf.length2 (orientation (pose_ s')) <> 0 by rewrite /= uD; lra.
have lin_neq0 : linear_vel_ s' <> 0 by rewrite /=; lra.
have ang_neq0 : dquat_rot_vel_ s' <> 0 by rewrite /=; lra.
rewrite /LocalTargetM.updatePose.
rewrite (@switch_leg next_target1 next_target2 next_reset s' id01' nP T1_0 T2_0
           lin_neq0 ang_neq0) close.
rewrite [bind _ _]/= idE -/waypoint -/next_duration.
set s1 := {| pose_ := D |}.
have way0 : tf.length2 (orientation (to_ s1)) <> 0 by apply: selected_neq0.
have from0 : tf.length2 (orientation (from_ s1)) <> 0 by rewrite /= uD; lra.
have [q1 _ ->] := @interpolate_defined next s1 next_defined from0 way0.
by eexists.
Qed.

End LocalTargetEndpoints.

Section AngularSpeed.

Local Open Scope R_scope.

Lemma half_angle_quarter (q1 q2 : Quaternion) :
  tf.length2 q1 = 1 -> tf.length2 q2 = 1 -> 0 <= half_angle q1 q2 <= PI / 2.
Proof.
move=> u1 u2.
have n1 : tf.length2 q1 <> 0 by rewrite u1; lra.
have n2 : tf.length2 q2 <> 0 by rewrite u2; lra.
have [lo hi] := half_angle_bounds n1 n2; split=> //.
case: (Rle_dec (half_angle q1 q2) (PI / 2)) => // /Rnot_le_lt above.
have : cos (half_angle q1 q2) < 0 by apply: cos_lt_0; lra.
by rewrite cos_half_angle //; have := Rabs_pos (tf.dot q1 q2); lra.
Qed.

Lemma dot_slerp_mixes (q1 q2 : Quaternion) (s0 s1 s0' s1' d : R) :
  tf.dot (slerp_mix q1 q2 s0 s1 d) (slerp_mix q1 q2 s0' s1' d) =
  d * d * (s0 * s0' * tf.length2 q1 + (s0 * s1' + s1 * s0') * tf.dot q1 q2 +
           s1 * s1' * tf.length2 q2).
Proof. by rewrite /slerp_mix /tf.dot /tf.length2 /=; ring. Qed.

Lemma sin_products (theta b1 b2 : R) :
  sin (theta - b1) * sin (theta - b2) +
  (sin (theta - b1) * sin b2 + sin b1 * sin (theta - b2)) * cos theta +
  sin b1 * sin b2 =
  sin theta * sin theta * cos (b2 - b1).
Proof.
rewrite !sin_minus cos_minus.
have := sin2_cos2 theta; rewrite /Rsqr.
move: (sin theta) (cos theta) (sin b1) (cos b1) (sin b2) (cos b2) => s c x1 y1 x2 y2 sc.
have -> : (s * y1 - c * x1) * (s * y2 - c * x2) +
          ((s * y1 - c * x1) * x2 + x1 * (s * y2 - c * x2)) * c + x1 * x2 =
          s * s * (y2 * y1 + x2 * x1) + x1 * x2 * (1 - (s * s + c * c)) by ring.
by rewrite sc; ring.
Qed.

(** The angle between two quaternions that [slerp] returns on one arc
    is the difference of the fractions times the angle of the arc. *)
Lemma geodesic_angle_slerp (q1 q2 qa qb : Quaternion) (ta tb : R) :
  tf.length2 q1 = 1 -> tf.length2 q2 = 1 -> 0 <= ta <= tb -> tb <= 1 ->
  tf.slerp q1 q2 ta = Ok qa -> tf.slerp q1 q2 tb = Ok qb ->
  geodesic_angle qa qb = (tb - ta) * geodesic_angle q1 q2.
Proof.
move=> u1 u2 [ta0 tab] tb1 slerp_a slerp_b.
have ua := slerp_unit u1 u2 slerp_a; have ub := slerp_unit u1 u2 slerp_b.
have n1 : tf.length2 q1 <> 0 by rewrite u1; lra.
have n2 : tf.length2 q2 <> 0 by rewrite u2; lra.
have [lo hi] := half_angle_quarter u1 u2.
have cosE := cos_half_angle u1 u2.
have -> : geodesic_angle q1 q2 = 2 * half_angle q1 q2 by [].
move: slerp_a slerp_b; rewrite !slerp_Ok //.
set theta := half_angle q1 q2 in lo hi cosE *.
case: Req_dec_T => th0 /= [qaE] [qbE].
  by rewrite -qaE -qbE geodesic_angle_same // th0; ring.
have sin_pos : 0 < sin theta by apply: sin_half_angle_pos.
have dotE : tf.dot qa qb = cos ((tb - ta) * theta).
  rewrite -qaE -qbE dot_slerp_mixes u1.
  set q2' := if Rlt_dec _ _ then _ else _.
  have -> : tf.length2 q2' = 1 by rewrite /q2'; case: Rlt_dec => ?; rewrite ?length2_neg.
  have -> : tf.dot q1 q2' = cos theta.
    rewrite cosE /q2' /Rabs; case: Rlt_dec => h /=; case: Rcase_abs => ?;
      rewrite ?dot_neg_r; lra.
  have -> : (1 - ta) * theta = theta - ta * theta by ring.
  have -> : (1 - tb) * theta = theta - tb * theta by ring.
  rewrite !Rmult_1_r sin_products.
  have -> : tb * theta - ta * theta = (tb - ta) * theta by ring.
  by field; lra.
have angle_lo : 0 <= (tb - ta) * theta by apply: Rmult_le_pos; lra.
have angle_hi : (tb - ta) * theta <= PI / 2 by nra.
have cos_ge0 : 0 <= cos ((tb - ta) * theta).
  by apply: cos_ge_0; have := PI_RGT_0; lra.
rewrite /geodesic_angle ua ub Rmult_1_l sqrt_1 Rdiv_1_r dotE (Rabs_pos_eq _ cos_ge0).
have range : 0 <= (tb - ta) * theta <= PI by have := PI_RGT_0; lra.
by rewrite (acos_cos _ range); ring.
Qed.

Lemma leg_duration_angle (S D : Pose) (lin ang : R) :
  0 < ang ->
  geodesic_angle (orientation S) (orientation D) <= ang * leg_duration S D lin ang.
Proof.
move=> ang0; rewrite /leg_duration.
set angle := geodesic_angle _ _; set time := _ / lin.
have le_max := Rmax_r time (angle / ang); set M := Rmax _ _ in le_max *.
have e : ang * (angle / ang) = angle by field; lra.
by rewrite -e; apply: Rmult_le_compat_l => //; lra.
Qed.

(** X19. The local target respects its angular speed: on a leg of
    positive duration between unit quaternions, the geodesic angle
    between the output orientations at two times [now1 <= now2] after the
    start of the leg is at most [dquat_rot_vel_ * (now2 - now1)]. *)
Theorem angular_speed_limit (S D : Pose) (id : Z) (start lin ang now1 now2 : R)
    (s1 s2 : LocalTarget) :
  tf.length2 (orientation S) = 1 -> tf.length2 (orientation D) = 1 ->
  0 < ang -> 0 < leg_duration S D lin ang ->
  on_leg s1 id S D start (leg_duration S D lin ang) ->
  on_leg s2 id S D start (leg_duration S D lin ang) ->
  start <= now1 <= now2 ->
  exists s1' s2',
    [/\ LocalTargetM.interpolate_ now1 s1 = Ok s1',
        LocalTargetM.interpolate_ now2 s2 = Ok s2' &
        geodesic_angle (orientation (pose_ s1')) (orientation (pose_ s2'))
        <= ang * (now2 - now1)].
Proof.
move=> uS uD ang0 dur0 [_ from1 to1 start1 dur1] [_ from2 to2 start2 dur2] [le1 le12].
set duration := leg_duration S D lin ang in dur0 dur1 dur2.
have nS : tf.length2 (orientation S) <> 0 by rewrite uS; lra.
have nD : tf.length2 (orientation D) <> 0 by rewrite uD; lra.
have dur1_neq0 : expected_duration_ s1 <> 0 by rewrite dur1; lra.
have dur2_neq0 : expected_duration_ s2 <> 0 by rewrite dur2; lra.
have nS1 : tf.length2 (orientation (from_ s1)) <> 0 by rewrite from1.
have nD1 : tf.length2 (orientation (to_ s1)) <> 0 by rewrite to1.
have nS2 : tf.length2 (orientation (from_ s2)) <> 0 by rewrite from2.
have nD2 : tf.length2 (orientation (to_ s2)) <> 0 by rewrite to2.
have [q1 slerp1 ->] := interpolate_Ok now1 dur1_neq0 nS1 nD1.
have [q2 slerp2 ->] := interpolate_Ok now2 dur2_neq0 nS2 nD2.
do 2!eexists; split=> //=.
move: slerp1 slerp2; rewrite from1 to1 start1 dur1 from2 to2 start2 dur2.
have inv_pos := Rinv_0_lt_compat _ dur0.
have ratio1 : 0 <= (now1 - start) / duration by rewrite /Rdiv; nra.
have ratio : (now1 - start) / duration <= (now2 - start) / duration.
  by rewrite /Rdiv; nra.
have [t_ge0 t_le] := capped_lipschitz ratio.
have [t1_ge0 _] := capped_bounds ratio1.
have [_ t2_le1] := capped_bounds (Rle_trans _ _ _ ratio1 ratio).
set t1 := capped ((now1 - start) / duration) in t_ge0 t_le t1_ge0 *.
set t2 := capped ((now2 - start) / duration) in t_ge0 t_le t2_le1 *.
have t12 : 0 <= t1 <= t2 by lra.
move=> slerp1 slerp2; rewrite (geodesic_angle_slerp uS uD t12 t2_le1 slerp1 slerp2).
have angle_le := leg_duration_angle S D lin ang0; rewrite -/duration in angle_le.
have angle_ge0 : 0 <= geodesic_angle (orientation S) (orientation D).
  by rewrite /geodesic_angle; have [] := acos_bound
       (Rabs (tf.dot (orientation S) (orientation D)) /
        sqrt (tf.length2 (orientation S) * tf.length2 (orientation D))); lra.
move: angle_le angle_ge0; move: (geodesic_angle _ _) => angle angle_le angle_ge0.
have step : t2 - t1 <= (now2 - now1) / duration.
  by apply: Rle_trans t_le _; right; field; lra.
have -> : ang * (now2 - now1) = (now2 - now1) / duration * (ang * duration).
  by field; lra.
by apply: Rmult_le_compat => //; lra.
Qed.

End AngularSpeed.

(** ** Further properties of the loop of main, and the feedback callback *)

Section ClampLoop.

Local Open Scope R_scope.

(** X22. A solver output whose components are all within the step
    limit passes the loop of lines 658-665 unchanged, and every joint
    advances by exactly its component: the clamp only acts on components
    beyond the limit, and the number of joints is kept. *)
Theorem clamp_integrate_within_limit (d_theta position : seq R) :
  size d_theta = size position ->
  (forall i, Rabs (nth 0 d_theta i) <= main.dmax) ->
  [/\ (main.clamp_integrate main.dmax (size position) 0 d_theta position).1 = d_theta,
      size (main.clamp_integrate main.dmax (size position) 0 d_theta position).2 =
      size position
    & forall i,
      nth 0 (main.clamp_integrate main.dmax (size position) 0 d_theta position).2 i =
      nth 0 position i + nth 0 d_theta i].
Proof.
move=> same_size small.
have nth_both i := @clamp_integrate_nth main.dmax (size position) 0 d_theta position i.
split.
- apply: (@eq_from_nth _ 0) => [|i _].
    by have [|-> _ _] := nth_both 0%N; rewrite ?add0n ?same_size.
  have [|_ -> _] := nth_both i; first by rewrite add0n same_size.
  by case: ifP => // _; apply: clamped_id.
- by apply: clamp_integrate_size2; rewrite add0n.
- move=> i; have [|_ _ ->] := nth_both i; first by rewrite add0n same_size.
  rewrite add0n /=; case: ltnP => [_|out]; first by rewrite clamped_id.
  have out_d : (size d_theta <= i)%N by rewrite same_size.
  by rewrite (nth_default _ out) (nth_default _ out_d) Rplus_0_r.
Qed.

Lemma integrate_steps_size (steps : seq (seq R)) (position : seq R) :
  size (integrate_steps steps position) = size position.
Proof.
elim: steps position => [|d steps IH] position //=.
by rewrite /integrate_steps /= -/(integrate_steps _ _) IH clamp_integrate_size2 ?add0n.
Qed.

Lemma clamp_integrate_step_bound (d_theta position : seq R) (i : nat) :
  size d_theta = size position ->
  Rabs (nth 0 (main.clamp_integrate main.dmax (size position) 0 d_theta position).2 i -
        nth 0 position i) <= main.dmax.
Proof.
move=> same_size; have dmax0 := dmax_pos.
have [|_ _ ->] := @clamp_integrate_nth main.dmax (size position) 0 d_theta position i.
  by rewrite add0n same_size.
case: ifP => _.
  have -> : nth 0 position i + clamped main.dmax (nth 0 d_theta i) - nth 0 position i =
            clamped main.dmax (nth 0 d_theta i) by ring.
  by apply: clamped_bound; lra.
by rewrite Rminus_diag Rabs_R0; lra.
Qed.

(** X23. Over any number of iterations of the loop of main, whatever the
    solver returns in each of them, a joint moves by at most the number
    of iterations times the step limit of one degree. *)
Theorem joint_drift_bounded (steps : seq (seq R)) (position : seq R) (i : nat) :
  (forall d_theta, List.In d_theta steps -> size d_theta = size position) ->
  Rabs (nth 0 (integrate_steps steps position) i - nth 0 position i)
  <= INR (size steps) * main.dmax.
Proof.
elim: steps position => [|d steps IH] position sizes.
  by rewrite /= Rminus_diag Rabs_R0; lra.
rewrite /integrate_steps [foldl _ _ _]/= -/(integrate_steps _ _).
set p1 := (main.clamp_integrate _ _ _ _ _).2.
have size_d : size d = size position by apply: sizes; left.
have size1 : size p1 = size position by apply: clamp_integrate_size2; rewrite add0n.
have tail : Rabs (nth 0 (integrate_steps steps p1) i - nth 0 p1 i)
            <= INR (size steps) * main.dmax.
  by apply: IH => d' in_steps; rewrite size1; apply: sizes; right.
have head := clamp_integrate_step_bound i size_d; rewrite -/p1 in head.
have -> : nth 0 (integrate_steps steps p1) i - nth 0 position i =
          (nth 0 (integrate_steps steps p1) i - nth 0 p1 i) +
          (nth 0 p1 i - nth 0 position i) by ring.
apply: Rle_trans (Rabs_triang _ _) _.
by rewrite [size _]/= S_INR; lra.
Qed.

End ClampLoop.

Section FixedPoint.

Local Open Scope ring_scope.
Import GRing.Theory.

Lemma coefficients_zero (k : nat) : kinematics.coefficients (0 : 'cV[R]_k) = nseq k 0.
Proof.
apply: (@eq_from_nth _ 0) => [|i]; first by rewrite size_coefficients size_nseq.
rewrite size_coefficients => ik.
by rewrite (nth_coefficients _ (Ordinal ik)) mxE nth_nseq ik.
Qed.

Lemma clamp_integrate_zero (position : seq R) :
  main.clamp_integrate main.dmax (size position) 0 (nseq (size position) 0) position =
  (nseq (size position) 0, position).
Proof.
have zero : clamped main.dmax 0 = 0.
  by apply: clamped_id; rewrite Rabs_R0; have := dmax_pos; lra.
have nth_both i :=
  @clamp_integrate_nth main.dmax (size position) 0 (nseq (size position) 0) position i.
rewrite [LHS]surjective_pairing; congr (_, _).
  apply: (@eq_from_nth _ 0) => [|i _].
    by have [|-> _ _] := nth_both 0%N; rewrite ?add0n ?size_nseq.
  have [|_ -> _] := nth_both i; first by rewrite add0n size_nseq.
  by rewrite nth_nseq if_same zero if_same.
apply: (@eq_from_nth _ 0) => [|i _].
  by apply: clamp_integrate_size2; rewrite add0n.
have [|_ _ ->] := nth_both i; first by rewrite add0n size_nseq.
by rewrite nth_nseq if_same zero ?RplusE Rplus_0_r if_same.
Qed.

(** X24. With a non-zero damping, a zero twist error leaves the joints
    where they are, whatever the Jacobian: the solver returns a matrix,
    the step [d_theta] is zero and the loop adds nothing. *)
Theorem zero_twist_keeps_joints (n : nat) (jacobian : 'M[R]_(6, n))
    (dls_eps dls_lambda : R) (position : seq R) :
  dls_lambda <> 0%Real -> size position = n ->
  main.joint_update jacobian dls_eps dls_lambda 0 position = Ok (nseq n 0, position).
Proof.
move=> l0 size_n; rewrite /main.joint_update (without_SVD_damped jacobian dls_eps l0) /=.
by rewrite mulmx0 coefficients_zero -size_n clamp_integrate_zero.
Qed.

End FixedPoint.

Section TrajectoryInstances.

Local Open Scope R_scope.

(** One tick, half way along the leg from the origin to (1,0,0). *)
Lemma run_half_way :
  exists s', LocalTargetM.run [:: LocalTargetM.mkTick (pose_at 0 1) (pose_at 1 1) 0 (1 / 2)]
               (leg_state (pose_at 0 1) (pose_at 1 1) 1 0 1) = Ok s'.
Proof.
rewrite /= /LocalTargetM.updatePose /LocalTargetM.switch_ leg_not_close /=.
have dur0 : expected_duration_ (leg_state (pose_at 0 1) (pose_at 1 1) 1 0 1) <> 0.
  by rewrite /=; lra.
have nS : tf.length2 (orientation (from_ (leg_state (pose_at 0 1) (pose_at 1 1) 1 0 1))) <> 0.
  by rewrite /tf.length2 /=; lra.
have nD : tf.length2 (orientation (to_ (leg_state (pose_at 0 1) (pose_at 1 1) 1 0 1))) <> 0.
  by rewrite /tf.length2 /=; lra.
have [q _ ->] := interpolate_Ok (1 / 2) dur0 nS nD.
by eexists.
Qed.

(** X16 on that tick. *)
Lemma run_keeps_configuration_witness :
  (global_target_id_ (leg_state (pose_at 0 1) (pose_at 1 1) 1 0 1) = 0 \/
   global_target_id_ (leg_state (pose_at 0 1) (pose_at 1 1) 1 0 1) = 1)%Z /\
  exists2 s', LocalTargetM.run
                [:: LocalTargetM.mkTick (pose_at 0 1) (pose_at 1 1) 0 (1 / 2)]
                (leg_state (pose_at 0 1) (pose_at 1 1) 1 0 1) = Ok s'
            & linear_vel_ s' = 1 /\ dquat_rot_vel_ s' = 1.
Proof.
have id01 : (global_target_id_ (leg_state (pose_at 0 1) (pose_at 1 1) 1 0 1) = 0 \/
             global_target_id_ (leg_state (pose_at 0 1) (pose_at 1 1) 1 0 1) = 1)%Z.
  by right.
split; first by [].
have [s' ran] := run_half_way; exists s' => //.
by have [-> -> _] := run_keeps_configuration id01 ran.
Defined.

(** X17 on that tick. *)
Lemma run_keeps_unit_quaternions_witness :
  tf.length2 (orientation (pose_at 0 1)) = 1 /\
  exists2 s', LocalTargetM.run
                [:: LocalTargetM.mkTick (pose_at 0 1) (pose_at 1 1) 0 (1 / 2)]
                (leg_state (pose_at 0 1) (pose_at 1 1) 1 0 1) = Ok s'
            & tf.length2 (orientation (pose_ s')) = 1.
Proof.
have u0 : tf.length2 (orientation (pose_at 0 1)) = 1 by apply: length2_pose_at; left.
have u1 : tf.length2 (orientation (pose_at 1 1)) = 1 by apply: length2_pose_at; left.
split; first by [].
have [s' ran] := run_half_way; exists s' => //.
have units tk :
    List.In tk [:: LocalTargetM.mkTick (pose_at 0 1) (pose_at 1 1) 0 (1 / 2)] ->
    tf.length2 (orientation (LocalTargetM.tick_target1 tk)) = 1 /\
    tf.length2 (orientation (LocalTargetM.tick_target2 tk)) = 1.
  by case=> [<-|[]].
by have [_ _ unit] :=
  @run_keeps_unit_quaternions _ (leg_state (pose_at 0 1) (pose_at 1 1) 1 0 1) s'
    units u0 u1 u0 ran.
Defined.

Lemma leg_duration_x_axis : leg_duration (pose_at 0 1) (pose_at 1 1) 1 1 = 1.
Proof. by apply: leg_duration_pose_at; left. Qed.

(** X18 on the leg from the origin to (1,0,0), at a quarter and at a
    half of its duration. *)
Lemma linear_speed_limit_witness :
  (0 < 1 /\ 0 < leg_duration (pose_at 0 1) (pose_at 1 1) 1 1 /\ 0 <= 1 / 4 <= 1 / 2) /\
  exists s1' s2',
    [/\ LocalTargetM.interpolate_ (1 / 4)
          (leg_state (pose_at 0 1) (pose_at 1 1) 1 0
             (leg_duration (pose_at 0 1) (pose_at 1 1) 1 1)) = Ok s1',
        LocalTargetM.interpolate_ (1 / 2)
          (leg_state (pose_at 0 1) (pose_at 1 1) 1 0
             (leg_duration (pose_at 0 1) (pose_at 1 1) 1 1)) = Ok s2' &
        linear_distance (position (pose_ s2')) (position (pose_ s1'))
        <= 1 * (1 / 2 - 1 / 4)].
Proof.
have nS : tf.length2 (orientation (pose_at 0 1)) <> 0.
  by rewrite (@length2_pose_at 0 1 (or_introl (erefl 1))); lra.
have nD : tf.length2 (orientation (pose_at 1 1)) <> 0.
  by rewrite (@length2_pose_at 1 1 (or_introl (erefl 1))); lra.
have lin0 : 0 < 1 by lra.
have dur0 : 0 < leg_duration (pose_at 0 1) (pose_at 1 1) 1 1.
  by rewrite leg_duration_x_axis; lra.
have times : 0 <= 1 / 4 <= 1 / 2 by lra.
split; first by [].
have leg : on_leg (leg_state (pose_at 0 1) (pose_at 1 1) 1 0
                     (leg_duration (pose_at 0 1) (pose_at 1 1) 1 1)) 1
             (pose_at 0 1) (pose_at 1 1) 0 (leg_duration (pose_at 0 1) (pose_at 1 1) 1 1).
  by split.
exact: (linear_speed_limit nS nD lin0 dur0 leg leg times).
Defined.

(** X19 on the same leg. *)
Lemma angular_speed_limit_witness :
  (tf.length2 (orientation (pose_at 0 1)) = 1 /\
   0 < leg_duration (pose_at 0 1) (pose_at 1 1) 1 1 /\ 0 <= 1 / 4 <= 1 / 2) /\
  exists s1' s2',
    [/\ LocalTargetM.interpolate_ (1 / 4)
          (leg_state (pose_at 0 1) (pose_at 1 1) 1 0
             (leg_duration (pose_at 0 1) (pose_at 1 1) 1 1)) = Ok s1',
        LocalTargetM.interpolate_ (1 / 2)
          (leg_state (pose_at 0 1) (pose_at 1 1) 1 0
             (leg_duration (pose_at 0 1) (pose_at 1 1) 1 1)) = Ok s2' &
        geodesic_angle (orientation (pose_ s1')) (orientation (pose_ s2'))
        <= 1 * (1 / 2 - 1 / 4)].
Proof.
have uS : tf.length2 (orientation (pose_at 0 1)) = 1 by apply: length2_pose_at; left.
have uD : tf.length2 (orientation (pose_at 1 1)) = 1 by apply: length2_pose_at; left.
have ang0 : 0 < 1 by lra.
have dur0 : 0 < leg_duration (pose_at 0 1) (pose_at 1 1) 1 1.
  by rewrite leg_duration_x_axis; lra.
have times : 0 <= 1 / 4 <= 1 / 2 by lra.
split; first by [].
have leg : on_leg (leg_state (pose_at 0 1) (pose_at 1 1) 1 0
                     (leg_duration (pose_at 0 1) (pose_at 1 1) 1 1)) 1
             (pose_at 0 1) (pose_at 1 1) 0 (leg_duration (pose_at 0 1) (pose_at 1 1) 1 1).
  by split.
exact: (angular_speed_limit uS uD ang0 dur0 leg leg times).
Defined.

(** X20 on the same leg. *)
Lemma interpolate_at_start_witness :
  expected_duration_ (leg_state (pose_at 0 1) (pose_at 1 1) 1 0 1) <> 0 /\
  LocalTargetM.interpolate_ 0 (leg_state (pose_at 0 1) (pose_at 1 1) 1 0 1) =
  Ok (leg_state (pose_at 0 1) (pose_at 1 1) 1 0 1).
Proof.
have dur0 : expected_duration_ (leg_state (pose_at 0 1) (pose_at 1 1) 1 0 1) <> 0.
  by rewrite /=; lra.
have nS : tf.length2 (orientation (from_ (leg_state (pose_at 0 1) (pose_at 1 1) 1 0 1))) <> 0.
  by rewrite /tf.length2 /=; lra.
have nD : tf.length2 (orientation (to_ (leg_state (pose_at 0 1) (pose_at 1 1) 1 0 1))) <> 0.
  by rewrite /tf.length2 /=; lra.
split; first by [].
exact: (interpolate_at_start dur0 nS nD).
Defined.

(** X21 on the same leg, at twice its duration. *)
Lemma leg_completes_witness :
  (0 <= tf.dot (orientation (pose_at 0 1)) (orientation (pose_at 1 1)) /\
   0 <= 1 <= 2 - 0) /\
  exists2 s', LocalTargetM.updatePose (pose_at 0 1) (pose_at 1 1) 0 2
                (leg_state (pose_at 0 1) (pose_at 1 1) 1 0 1) = Ok s'
            & [/\ pose_ s' = pose_at 1 1, LocalTargetM.isClose_ s' = true
                & exists2 s'', LocalTargetM.updatePose (pose_at 0 1) (pose_at 0 1) 3 3 s'
                                 = Ok s''
                    & global_target_id_ s'' = 0%Z /\ from_ s'' = pose_at 1 1].
Proof.
have uS : tf.length2 (orientation (pose_at 0 1)) = 1 by apply: length2_pose_at; left.
have uD : tf.length2 (orientation (pose_at 1 1)) = 1 by apply: length2_pose_at; left.
have same : 0 <= tf.dot (orientation (pose_at 0 1)) (orientation (pose_at 1 1)).
  by rewrite /tf.dot /=; lra.
have pos1 : 0 < 1 by lra.
have arrived : 0 <= 1 <= 2 - 0 by lra.
have id01 : (1 = 0 \/ 1 = 1)%Z by right.
have way0 : tf.length2 (orientation (pose_at 0 1)) <> 0 by rewrite uS; lra.
have leg : on_leg (leg_state (pose_at 0 1) (pose_at 1 1) 1 0 1) 1
             (pose_at 0 1) (pose_at 1 1) 0 1 by split.
have back : leg_duration (pose_at 1 1) (selected (pose_at 0 1) (pose_at 0 1) (1 - 1))
              1 1 <> 0 \/ 3 < 3.
  left; rewrite /selected /= /leg_duration.
  have dist : linear_distance (position (pose_at 0 1)) (position (pose_at 1 1)) = 1.
    rewrite /linear_distance /=.
    have -> : (0 - 1) * (0 - 1) + (0 - 0) * (0 - 0) + (0 - 0) * (0 - 0) = 1 by ring.
    exact: sqrt_1.
  have := Rmax_l (linear_distance (position (pose_at 0 1)) (position (pose_at 1 1)) / 1)
            (geodesic_angle (orientation (pose_at 1 1)) (orientation (pose_at 0 1)) / 1).
  by rewrite dist; lra.
split; first by [].
have [s' updated [poseE _ close next]] :=
  @leg_completes (pose_at 0 1) (pose_at 1 1) 1 0 1 (pose_at 0 1) (pose_at 1 1) 0 2
    (leg_state (pose_at 0 1) (pose_at 1 1) 1 0 1)
    uS uD same leg id01 pos1 pos1 (leg_not_close 1) arrived (or_introl pos1).
exists s' => //; split=> //.
have [s'' switched [idE fromE _ _ _]] := next (pose_at 0 1) (pose_at 0 1) 3 3 way0 way0 back.
by exists s''.
Defined.

(** X22 on three joints. *)
Lemma clamp_integrate_within_limit_witness :
  size [:: 0.001; 0; 0] = size [:: 0; 0; 0] /\
  (main.clamp_integrate main.dmax 3 0 [:: 0.001; 0; 0] [:: 0; 0; 0]).1 = [:: 0.001; 0; 0].
Proof.
split; first by [].
have small i : Rabs (nth 0 [:: 0.001; 0; 0] i) <= main.dmax.
  have dmax1 := dmax_gt_1cm.
  have pos : 0 <= 0.001 by lra.
  by case: i => [|[|[|i]]] /=; rewrite ?nth_nil ?Rabs_R0 ?(Rabs_pos_eq _ pos); lra.
by have [-> _ _] :=
  @clamp_integrate_within_limit [:: 0.001; 0; 0] [:: 0; 0; 0] (erefl _) small.
Defined.

(** X23 on one iteration with two joints. *)
Lemma joint_drift_bounded_witness :
  size [:: 1; -1] = size [:: 0; 0] /\
  Rabs (nth 0 (integrate_steps [:: [:: 1; -1]] [:: 0; 0]) 0 - nth 0 [:: 0; 0] 0)
  <= INR 1 * main.dmax.
Proof.
split; first by [].
apply: (@joint_drift_bounded [:: [:: 1; -1]] [:: 0; 0] 0) => d_theta.
by case=> [<-|[]].
Defined.

End TrajectoryInstances.

Section LoopInstances.

Local Open Scope ring_scope.

(** X24 on a six-joint arm at rest. *)
Lemma zero_twist_keeps_joints_witness :
  ((1 <> 0)%Real /\ size (nseq 6 (0 : R)) = 6) /\
  main.joint_update (0 : 'M[R]_(6, 6)) 1%Real 1%Real 0 (nseq 6 0) =
  Ok (nseq 6 0, nseq 6 0).
Proof.
have one : (1 <> 0)%Real by lra.
have six : size (nseq 6 (0 : R)) = 6 by rewrite size_nseq.
by split; [|apply: (zero_twist_keeps_joints (0 : 'M[R]_(6, 6)) 1%Real one six)].
Defined.

End LoopInstances.

Section Feedback.

Lemma marker_names_differ (name : String.string) :
  String.eqb visualization.t1_name name -> String.eqb visualization.t2_name name = false.
Proof. by case: (String.eqb_spec visualization.t1_name name) => // <-. Qed.

Lemma process_all_cons (feedback : visualization.InteractiveMarkerFeedback)
    (feedbacks : seq visualization.InteractiveMarkerFeedback) (g : visualization.Globals) :
  process_all (feedback :: feedbacks) g =
  process_all feedbacks (visualization.processFeedback feedback g).
Proof. by []. Qed.

Lemma poses_of_cons (name : String.string)
    (feedback : visualization.InteractiveMarkerFeedback)
    (feedbacks : seq visualization.InteractiveMarkerFeedback) :
  poses_of name (feedback :: feedbacks) =
  if String.eqb name (visualization.marker_name feedback)
  then visualization.pose feedback :: poses_of name feedbacks
  else poses_of name feedbacks.
Proof. by rewrite /poses_of; cbn [filter map]; case: String.eqb. Qed.

(** X25. After any sequence of feedback callbacks each waypoint holds
    the pose of the last feedback that named its marker, or its former
    value if none did; feedbacks of other markers change nothing. *)
Theorem processFeedback_last_wins
    (feedbacks : seq visualization.InteractiveMarkerFeedback) (g : visualization.Globals) :
  visualization.eef_target1 (process_all feedbacks g) =
    last (visualization.eef_target1 g) (poses_of visualization.t1_name feedbacks) /\
  visualization.eef_target2 (process_all feedbacks g) =
    last (visualization.eef_target2 g) (poses_of visualization.t2_name feedbacks).
Proof.
elim: feedbacks g => [|feedback feedbacks IH] g //.
rewrite process_all_cons !poses_of_cons.
have [-> ->] := IH (visualization.processFeedback feedback g).
rewrite /visualization.processFeedback.
case is1: (String.eqb visualization.t1_name _).
  by rewrite (marker_names_differ is1).
by case: (String.eqb visualization.t2_name _).
Qed.

End Feedback.

